(** * SORT multi-object tracker of [scuba_tracking/utils/sort.py]

    A shallow embedding of the tracking engine: box geometry, the per-track
    Kalman box tracker, the association of detections to predicted boxes and
    the [Sort.update] step, followed by the properties of the specification.

    Numbers.  The program computes on numpy [float64] values.  The embedding
    is written once over an interface [Numeric] of the scalar operations the
    program uses and is instantiated twice:
    - at Rocq's primitive binary64 floats, which evaluate exactly like the
      interpreter does (NaN, infinities and signed zeros included) and are
      used to run concrete scenarios;
    - at the real numbers, for the statements the specification makes about
      exact arithmetic.

    Integers (counters, identities, configuration) are Python integers and
    are modelled by [Z]; positions in lists are [nat]. *)

From Stdlib Require Import ZArith List Bool Lia Permutation Sorted.
From Stdlib Require Import Reals Lra.
From Stdlib Require Import Floats Uint63.
Import ListNotations.

Set Warnings "-inexact-float".
Local Open Scope Z_scope.

(* ================================================================== *)
(** ** Scalars *)

(** The scalar operations of numpy that the tracker uses. *)
Class Numeric (A : Type) : Type := {
  of_Z : Z -> A;                 (* an integer literal or an int converted to float *)
  add : A -> A -> A;
  sub : A -> A -> A;
  mul : A -> A -> A;
  div : A -> A -> A;
  opp : A -> A;
  sqrt : A -> A;                 (* np.sqrt *)
  maximum : A -> A -> A;         (* np.maximum *)
  minimum : A -> A -> A;         (* np.minimum *)
  ltb : A -> A -> bool;          (* a < b *)
  leb : A -> A -> bool;          (* a <= b *)
  absv : A -> A;                 (* abs, used by the pivot search of the inverse *)
  isnan : A -> bool;             (* np.isnan *)
  isfinite : A -> bool;          (* np.isfinite: what np.ma.masked_invalid keeps *)
  floor_div2 : A -> A            (* v // 2 *)
}.

Declare Scope num_scope.
Delimit Scope num_scope with num.
Infix "+" := add : num_scope.
Infix "-" := sub : num_scope.
Infix "*" := mul : num_scope.
Infix "/" := div : num_scope.
Infix "<?" := ltb : num_scope.
Infix "<=?" := leb : num_scope.

(** *** binary64 floats *)

Module F64.

Definition of_Z (z : Z) : float :=
  match z with
  | Z0 => 0%float
  | Zpos _ => PrimFloat.of_uint63 (Uint63.of_Z z)
  | Zneg p => PrimFloat.opp (PrimFloat.of_uint63 (Uint63.of_Z (Zpos p)))
  end.

(** numpy: [(a >= b || isnan(a)) ? a : b].  On a tie between [+0] and
    [-0], which compare equal, the operand returned depends on the numpy
    build; this one returns the first. *)
Definition maximum (a b : float) : float :=
  if PrimFloat.leb b a || PrimFloat.is_nan a then a else b.

(** numpy: [(a <= b || isnan(a)) ? a : b]. *)
Definition minimum (a b : float) : float :=
  if PrimFloat.leb a b || PrimFloat.is_nan a then a else b.

Definition two52 : float := 0x1p52%float.

(** Largest integer not above [v]; values of magnitude [2^52] and more are
    integers already. *)
Definition floor (v : float) : float :=
  let m := PrimFloat.abs v in
  if PrimFloat.ltb m two52 then
    let t := PrimFloat.sub (PrimFloat.add m two52) two52 in
    let down := if PrimFloat.ltb m t then PrimFloat.sub t 1%float else t in
    if PrimFloat.leb 0%float v then down
    else if PrimFloat.eqb down m then PrimFloat.opp down
         else PrimFloat.opp (PrimFloat.add down 1%float)
  else v.

(** [v // 2] as numpy's floor division evaluates it: NaN for a value that is
    not finite, a zero of the sign of [v] for a zero, and the floor of the
    exact quotient otherwise (a negative [v] whose half underflows gives
    [-1]). *)
Definition floor_div2 (v : float) : float :=
  if PrimFloat.is_finite v then
    if PrimFloat.eqb v 0%float then PrimFloat.div v 2%float
    else
      let f := floor (PrimFloat.div v 2%float) in
      if PrimFloat.ltb v 0%float && PrimFloat.eqb f 0%float
      then (-1)%float else f
  else nan.

End F64.

#[export] Instance Numeric_float : Numeric float := {|
  of_Z := F64.of_Z;
  add := PrimFloat.add;
  sub := PrimFloat.sub;
  mul := PrimFloat.mul;
  div := PrimFloat.div;
  opp := PrimFloat.opp;
  sqrt := PrimFloat.sqrt;
  maximum := F64.maximum;
  minimum := F64.minimum;
  ltb := PrimFloat.ltb;
  leb := PrimFloat.leb;
  absv := PrimFloat.abs;
  isnan := PrimFloat.is_nan;
  isfinite := PrimFloat.is_finite;
  floor_div2 := F64.floor_div2
|}.

(** *** Real numbers *)

Module Exact.

Definition ltb (a b : R) : bool := if Rlt_dec a b then true else false.
Definition leb (a b : R) : bool := if Rle_dec a b then true else false.
Definition floor_div2 (v : R) : R := IZR (Int_part (v / 2)).

End Exact.

#[export] Instance Numeric_R : Numeric R := {|
  of_Z := IZR;
  add := Rplus;
  sub := Rminus;
  mul := Rmult;
  div := Rdiv;
  opp := Ropp;
  sqrt := R_sqrt.sqrt;
  maximum := Rmax;
  minimum := Rmin;
  ltb := Exact.ltb;
  leb := Exact.leb;
  absv := Rabs;
  isnan := fun _ => false;
  isfinite := fun _ => true;
  floor_div2 := Exact.floor_div2
|}.

(** The order laws the association proofs rely on: [a < b] excludes
    [b < a].  Both instances satisfy them (NaN compares false). *)
Class NumericOrder (A : Type) `{Numeric A} : Prop := {
  ltb_asym : forall a b : A, ltb a b = true -> ltb b a = false
}.

(* ================================================================== *)
(** ** Arrays *)

Section Arrays.
Context {A : Type} `{Numeric A}.
Local Open Scope num_scope.

Definition zero : A := of_Z 0.
Definition one : A := of_Z 1.

(** [v[i]] of a one-dimensional array.  An index out of range raises
    IndexError in Python; every array of the program has the columns it
    reads (detections have at least 6, boxes 5, states 8), so the default is
    never reached on them. *)
Definition idx (v : list A) (i : nat) : A := nth i v zero.

(** [M[r, c]]. *)
Definition idx2 (M : list (list A)) (r c : nat) : A := idx (nth r M []) c.

(** [v[i] = a] (in range). *)
Fixpoint set_idx (v : list A) (i : nat) (a : A) : list A :=
  match v, i with
  | [], _ => []
  | _ :: t, O => a :: t
  | h :: t, S i' => h :: set_idx t i' a
  end.

Definition zeros (n : nat) : list A := repeat zero n.

(** np.eye(n). *)
Definition eye (n : nat) : list (list A) :=
  map (fun r => map (fun c => if Nat.eqb r c then one else zero) (seq 0 n)) (seq 0 n).

(** The inner product, accumulated from the left. *)
Definition dotv (u v : list A) : A :=
  fold_left (fun acc p => acc + fst p * snd p) (combine u v) zero.

Fixpoint transpose_n (n : nat) (M : list (list A)) : list (list A) :=
  match n with
  | O => []
  | S n' => map (fun row => hd zero row) M :: transpose_n n' (map (@tl A) M)
  end.

(** [M.T] *)
Definition transpose (M : list (list A)) : list (list A) :=
  transpose_n (length (hd [] M)) M.

(** [dot(M, v)] for a matrix and a vector. *)
Definition mat_vec (M : list (list A)) (v : list A) : list A :=
  map (fun row => dotv row v) M.

(** [dot(M, N)]. *)
Definition mat_mul (M N : list (list A)) : list (list A) :=
  let Nt := transpose N in
  map (fun row => map (fun col => dotv row col) Nt) M.

Definition vec_add (u v : list A) : list A :=
  map (fun p => fst p + snd p) (combine u v).
Definition vec_sub (u v : list A) : list A :=
  map (fun p => fst p - snd p) (combine u v).
Definition mat_add (M N : list (list A)) : list (list A) :=
  map (fun p => vec_add (fst p) (snd p)) (combine M N).
Definition mat_sub (M N : list (list A)) : list (list A) :=
  map (fun p => vec_sub (fst p) (snd p)) (combine M N).

(** [M *= c]. *)
Definition mat_scale (c : A) (M : list (list A)) : list (list A) :=
  map (map (fun a => a * c)) M.

(** [M[lo:, lo:] *= c]. *)
Definition scale_block (lo : nat) (c : A) (M : list (list A)) : list (list A) :=
  map (fun rr : nat * list A =>
         let (r, row) := rr in
         map (fun ca : nat * A =>
                let (k, a) := ca in
                if Nat.leb lo r && Nat.leb lo k then a * c else a)
             (combine (seq 0 (length row)) row))
      (combine (seq 0 (length M)) M).

(** [M[r, c] *= k]. *)
Definition scale_entry (r c : nat) (k : A) (M : list (list A)) : list (list A) :=
  map (fun rr : nat * list A =>
         let (i, row) := rr in
         if Nat.eqb i r then set_idx row c (idx row c * k) else row)
      (combine (seq 0 (length M)) M).

(** *** Matrix inverse

    [numpy.linalg.inv] solves [S X = I] by an LU factorisation with partial
    pivoting.  The model eliminates on the augmented matrix [S | I] with the
    same pivot choice (the row of largest magnitude in the column).  A
    singular matrix makes numpy raise; the model divides by the zero pivot
    and returns non-finite entries instead. *)

(** Position, from [k] on, of the row with the largest [|row[c]|]. *)
Fixpoint pivot_row (c : nat) (rows : list (list A)) (k best : nat) (bv : A) : nat :=
  match rows with
  | [] => best
  | r :: rest =>
      let v := absv (idx r c) in
      if bv <? v then pivot_row c rest (S k) k v
      else pivot_row c rest (S k) best bv
  end.

Definition swap_rows (M : list (list A)) (i j : nat) : list (list A) :=
  map (fun k => if Nat.eqb k i then nth j M []
                else if Nat.eqb k j then nth i M [] else nth k M [])
      (seq 0 (length M)).

Definition eliminate_col (c : nat) (M : list (list A)) : list (list A) :=
  let p := pivot_row c (skipn c M) c c (absv (idx2 M c c)) in
  let M1 := swap_rows M c p in
  let prow := nth c M1 [] in
  let pv := idx prow c in
  let nrow := map (fun a => a / pv) prow in
  map (fun rr : nat * list A =>
         let (r, row) := rr in
         if Nat.eqb r c then nrow
         else vec_sub row (map (fun a => idx row c * a) nrow))
      (combine (seq 0 (length M1)) M1).

Definition inv (S : list (list A)) : list (list A) :=
  let n := length S in
  let aug := map (fun p => fst p ++ snd p) (combine S (eye n)) in
  map (skipn n) (fold_left (fun M c => eliminate_col c M) (seq 0 n) aug).

End Arrays.

(* ================================================================== *)
(** ** Box geometry *)

Section Geometry.
Context {A : Type} `{Numeric A}.
Local Open Scope num_scope.

(** One entry of [iou_batch]: the boxes are [x1, y1, x2, y2, ...]. *)
Definition iou (bb_test bb_gt : list A) : A :=
  let xx1 := maximum (idx bb_test 0) (idx bb_gt 0) in
  let yy1 := maximum (idx bb_test 1) (idx bb_gt 1) in
  let xx2 := minimum (idx bb_test 2) (idx bb_gt 2) in
  let yy2 := minimum (idx bb_test 3) (idx bb_gt 3) in
  let w := maximum zero (xx2 - xx1) in
  let h := maximum zero (yy2 - yy1) in
  let wh := w * h in
  wh / ((idx bb_test 2 - idx bb_test 0) * (idx bb_test 3 - idx bb_test 1)
        + (idx bb_gt 2 - idx bb_gt 0) * (idx bb_gt 3 - idx bb_gt 1) - wh).

(** [iou_batch(bb_test, bb_gt)]: entry [r, c] compares [bb_test[r]] with
    [bb_gt[c]]. *)
Definition iou_batch (bb_test bb_gt : list (list A)) : list (list A) :=
  map (fun t => map (fun g => iou t g) bb_gt) bb_test.

(** [x1,y1,x2,y2,conf] to the column [x,y,s,r,conf]. *)
Definition convert_bbox_to_z (bbox : list A) : list A :=
  let w := idx bbox 2 - idx bbox 0 in
  let h := idx bbox 3 - idx bbox 1 in
  let x := idx bbox 0 + w / of_Z 2 in
  let y := idx bbox 1 + h / of_Z 2 in
  let s := w * h in
  let conf := idx bbox 4 in
  let r := w / h in
  [x; y; s; r; conf].

(** The state [x,y,s,r,conf,...] to the row [x1,y1,x2,y2,conf]. *)
Definition convert_x_to_bbox (x : list A) : list A :=
  let w := sqrt (idx x 2 * idx x 3) in
  let h := idx x 2 / w in
  [idx x 0 - w / of_Z 2; idx x 1 - h / of_Z 2;
   idx x 0 + w / of_Z 2; idx x 1 + h / of_Z 2; idx x 4].

End Geometry.

(* ================================================================== *)
(** ** The linear Kalman filter

    [filterpy.kalman.KalmanFilter] is a library outside the repository; the
    record keeps the attributes the tracker reads or writes, and [predict]
    and [update] follow the library's equations (no control input, the
    fading-memory factor at its default of 1). *)

Section Kalman.
Context {A : Type} `{Numeric A}.
Local Open Scope num_scope.

Record KalmanFilter : Type := mkKalmanFilter {
  kf_x : list A;             (* state, dim_x by 1 *)
  kf_P : list (list A);      (* state covariance *)
  kf_Q : list (list A);      (* process noise *)
  kf_F : list (list A);      (* transition *)
  kf_H : list (list A);      (* measurement function *)
  kf_R : list (list A)       (* measurement noise *)
}.

(** [KalmanFilter(dim_x, dim_z)]. *)
Definition KalmanFilter_new (dim_x dim_z : nat) : KalmanFilter :=
  {| kf_x := zeros dim_x;
     kf_P := eye dim_x;
     kf_Q := eye dim_x;
     kf_F := eye dim_x;
     kf_H := repeat (zeros dim_x) dim_z;
     kf_R := eye dim_z |}.

Definition set_x (k : KalmanFilter) (x : list A) : KalmanFilter :=
  {| kf_x := x; kf_P := kf_P k; kf_Q := kf_Q k;
     kf_F := kf_F k; kf_H := kf_H k; kf_R := kf_R k |}.

(** [x = F x], [P = alpha^2 F P F' + Q]. *)
Definition KalmanFilter_predict (k : KalmanFilter) : KalmanFilter :=
  let F := kf_F k in
  {| kf_x := mat_vec F (kf_x k);
     kf_P := mat_add (mat_scale one (mat_mul (mat_mul F (kf_P k)) (transpose F)))
                     (kf_Q k);
     kf_Q := kf_Q k; kf_F := F; kf_H := kf_H k; kf_R := kf_R k |}.

(** The measurement update in Joseph form. *)
Definition KalmanFilter_update (k : KalmanFilter) (z : list A) : KalmanFilter :=
  let Hm := kf_H k in
  let P := kf_P k in
  let Rm := kf_R k in
  let y := vec_sub z (mat_vec Hm (kf_x k)) in
  let PHT := mat_mul P (transpose Hm) in
  let S := mat_add (mat_mul Hm PHT) Rm in
  let SI := inv S in
  let K := mat_mul PHT SI in
  let x' := vec_add (kf_x k) (mat_vec K y) in
  let I_KH := mat_sub (eye (length (kf_x k))) (mat_mul K Hm) in
  let P' := mat_add (mat_mul (mat_mul I_KH P) (transpose I_KH))
                    (mat_mul (mat_mul K Rm) (transpose K)) in
  {| kf_x := x'; kf_P := P';
     kf_Q := kf_Q k; kf_F := kf_F k; kf_H := Hm; kf_R := Rm |}.

End Kalman.

Arguments KalmanFilter A : clear implicits.

(* ================================================================== *)
(** ** KalmanBoxTracker *)

Section Tracker.
Context {A : Type} `{Numeric A}.
Local Open Scope num_scope.

Record KalmanBoxTracker : Type := mkKalmanBoxTracker {
  kf : KalmanFilter A;
  time_since_update : Z;
  id : Z;
  history : list (list A);
  hits : Z;
  hit_streak : Z;
  age : Z;
  centroidarr : list (A * A);
  detclass : A;
  bbox_history : list (list A)
}.

Definition int_matrix (M : list (list Z)) : list (list A) := map (map of_Z) M.

Definition F_const : list (list A) := int_matrix
  [[1;0;0;0;0;1;0;0]; [0;1;0;0;0;0;1;0]; [0;0;1;0;0;0;0;1]; [0;0;0;1;0;0;0;0];
   [0;0;0;0;1;0;0;0]; [0;0;0;0;0;1;0;0]; [0;0;0;0;0;0;1;0]; [0;0;0;0;0;0;0;1]].

Definition H_const : list (list A) := int_matrix
  [[1;0;0;0;0;0;0;0]; [0;1;0;0;0;0;0;0]; [0;0;1;0;0;0;0;0]; [0;0;0;1;0;0;0;0];
   [0;0;0;0;1;0;0;0]].

Definition half : A := of_Z 1 / of_Z 2.

(** The centroid [((b0+b2)//2, (b1+b3)//2)]. *)
Definition centroid (bbox : list A) : A * A :=
  (floor_div2 (idx bbox 0 + idx bbox 2), floor_div2 (idx bbox 1 + idx bbox 3)).

(** [KalmanBoxTracker(bbox)]: [count] is the class attribute
    [KalmanBoxTracker.count], shared by every tracker of the process; the
    constructor returns the new object and the incremented counter. *)
Definition KalmanBoxTracker_init (count : Z) (bbox : list A)
  : KalmanBoxTracker * Z :=
  let k0 : KalmanFilter A := KalmanFilter_new 8 5 in
  let R1 := scale_block 2 (of_Z 10) (kf_R k0) in
  let P1 := mat_scale (of_Z 10) (scale_block 5 (of_Z 1000) (kf_P k0)) in
  let Q1 := scale_block 5 half (scale_entry 7 7 half (kf_Q k0)) in
  let x1 := convert_bbox_to_z bbox ++ skipn 5 (kf_x k0) in
  ({| kf := {| kf_x := x1; kf_P := P1; kf_Q := Q1;
               kf_F := F_const; kf_H := H_const; kf_R := R1 |};
      time_since_update := 0;
      id := count;
      history := [];
      hits := 0;
      hit_streak := 0;
      age := 0;
      centroidarr := [centroid bbox];
      detclass := idx bbox 5;
      bbox_history := [bbox] |},
   (count + 1)%Z).

(** [trk.update(bbox)]. *)
Definition KalmanBoxTracker_update (t : KalmanBoxTracker) (bbox : list A)
  : KalmanBoxTracker :=
  {| kf := KalmanFilter_update (kf t) (convert_bbox_to_z bbox);
     time_since_update := 0;
     id := id t;
     history := [];
     hits := (hits t + 1)%Z;
     hit_streak := (hit_streak t + 1)%Z;
     age := age t;
     centroidarr := centroidarr t ++ [centroid bbox];
     detclass := idx bbox 5;
     bbox_history := bbox_history t ++ [bbox] |}.

(** The state handed to the filter by [predict]: [x[7] *= 0.0] when
    [x[7] + x[2] <= 0]. *)
Definition damp_area_velocity (x : list A) : list A :=
  if (idx x 7 + idx x 2) <=? zero then set_idx x 7 (idx x 7 * zero) else x.

(** [trk.predict()]: the returned value is the row of the 1-by-5 array
    appended to [history]. *)
Definition KalmanBoxTracker_predict (t : KalmanBoxTracker)
  : list A * KalmanBoxTracker :=
  let k1 := set_x (kf t) (damp_area_velocity (kf_x (kf t))) in
  let k2 := KalmanFilter_predict k1 in
  let box := convert_x_to_bbox (kf_x k2) in
  (box,
   {| kf := k2;
      time_since_update := (time_since_update t + 1)%Z;
      id := id t;
      history := history t ++ [box];
      hits := hits t;
      hit_streak := (if 0 <? time_since_update t then 0 else hit_streak t)%Z;
      age := (age t + 1)%Z;
      centroidarr := centroidarr t;
      detclass := detclass t;
      bbox_history := bbox_history t |}).

(** [trk.get_state()[0]]: the nine entries box, confidence, class and the
    three velocities. *)
Definition KalmanBoxTracker_get_state (t : KalmanBoxTracker) : list A :=
  let x := kf_x (kf t) in
  convert_x_to_bbox x ++ [detclass t] ++ [idx x 5] ++ [idx x 6] ++ [idx x 7].

End Tracker.

Arguments KalmanBoxTracker A : clear implicits.

(* ================================================================== *)
(** ** Association of detections to predicted boxes *)

Section Association.
Context {A : Type} `{Numeric A}.
Local Open Scope num_scope.

(** *** The assignment solver

    [scipy.optimize.linear_sum_assignment] is a library outside the
    repository.  It returns, for an n-by-m cost matrix, [min n m] pairs with
    distinct rows and distinct columns of least total cost, listed by
    increasing row.  The model finds such an assignment by exhaustive search
    and keeps the first of least cost; which one scipy returns among several
    of equal cost is not modelled.  On a cost matrix that holds a NaN scipy
    raises ValueError; the search returns an assignment there too. *)

(** Every way to give each of [rows] a column of its own out of [cols]. *)
Fixpoint injections (rows cols : list nat) : list (list (nat * nat)) :=
  match rows with
  | [] => [[]]
  | r :: rs =>
      flat_map (fun c => map (cons (r, c)) (injections rs (remove Nat.eq_dec c cols)))
               cols
  end.

Definition total_cost (cost : list (list A)) (asg : list (nat * nat)) : A :=
  fold_left (fun acc (m : nat * nat) => acc + idx2 cost (fst m) (snd m)) asg zero.

Definition cheapest (cost : list (list A)) (cands : list (list (nat * nat)))
  : list (nat * nat) :=
  match cands with
  | [] => []
  | c0 :: rest =>
      fold_left (fun best c =>
                   if total_cost cost c <? total_cost cost best then c else best)
                rest c0
  end.

Fixpoint insert_by_row (m : nat * nat) (l : list (nat * nat)) : list (nat * nat) :=
  match l with
  | [] => [m]
  | h :: t => if Nat.leb (fst m) (fst h) then m :: l else h :: insert_by_row m t
  end.

Definition sort_by_row (l : list (nat * nat)) : list (nat * nat) :=
  fold_right insert_by_row [] l.

Definition linear_sum_assignment (cost : list (list A)) : list (nat * nat) :=
  let n := length cost in
  let m := length (hd [] cost) in
  if Nat.leb n m then cheapest cost (injections (seq 0 n) (seq 0 m))
  else
    let flip := fun rc : nat * nat => (snd rc, fst rc) in
    let cands := map (map flip) (injections (seq 0 m) (seq 0 n)) in
    sort_by_row (cheapest cost cands).

(** [linear_assignment(cost_matrix)]: the solver's rows and columns zipped. *)
Definition linear_assignment (cost_matrix : list (list A)) : list (nat * nat) :=
  linear_sum_assignment cost_matrix.

(** *** associate_detections_to_trackers *)

(** [(iou_matrix > iou_threshold).astype(np.int32)]. *)
Definition threshold_matrix (iou_matrix : list (list A)) (iou_threshold : A)
  : list (list nat) :=
  map (map (fun v => if iou_threshold <? v then 1%nat else 0%nat)) iou_matrix.

(** [a.sum(1)] and [a.sum(0)]. *)
Definition row_sums (a : list (list nat)) : list nat := map (@list_sum) a.
Definition col_sums (a : list (list nat)) : list nat :=
  map (fun c => list_sum (map (fun row => nth c row 0%nat) a))
      (seq 0 (length (hd [] a))).

(** The non-zero entries of row [r], as pairs [(r, c)]; [start] is the
    column of the first entry of [row]. *)
Definition row_hits (r start : nat) (row : list nat) : list (nat * nat) :=
  flat_map (fun cv : nat * nat => if Nat.eqb (snd cv) 0 then [] else [(r, fst cv)])
           (combine (seq start (length row)) row).

Definition where_from (start : nat) (a : list (list nat)) : list (nat * nat) :=
  flat_map (fun rr : nat * list nat => row_hits (fst rr) 0 (snd rr))
           (combine (seq start (length a)) a).

(** [np.stack(np.where(a), axis=1)]: the positions of the non-zero entries,
    row by row. *)
Definition where_ (a : list (list nat)) : list (nat * nat) := where_from 0 a.

Definition mem (n : nat) (l : list nat) : bool := existsb (Nat.eqb n) l.

(** The part of [associate_detections_to_trackers] after [matched_indices]
    is known: the indices left out, then the filter on low IoU. *)
Definition filter_matches (n_det n_trk : nat) (iou_matrix : list (list A))
    (iou_threshold : A) (matched_indices : list (nat * nat))
  : list (nat * nat) * list nat * list nat :=
  let unmatched_detections :=
    filter (fun d => negb (mem d (map fst matched_indices))) (seq 0 n_det) in
  let unmatched_trackers :=
    filter (fun t => negb (mem t (map snd matched_indices))) (seq 0 n_trk) in
  fold_left
    (fun (acc : list (nat * nat) * list nat * list nat) (m : nat * nat) =>
       let '(matches, ud, ut) := acc in
       if idx2 iou_matrix (fst m) (snd m) <? iou_threshold
       then (matches, ud ++ [fst m], ut ++ [snd m])
       else (matches ++ [m], ud, ut))
    matched_indices
    ([], unmatched_detections, unmatched_trackers).

(** The fast-path test [a.sum(1).max() == 1 and a.sum(0).max() == 1]. *)
Definition one_to_one (a : list (list nat)) : bool :=
  Nat.eqb (list_max (row_sums a)) 1 && Nat.eqb (list_max (col_sums a)) 1.

Definition negate (M : list (list A)) : list (list A) := map (map opp) M.

Definition associate_detections_to_trackers
    (detections trackers : list (list A)) (iou_threshold : A)
  : list (nat * nat) * list nat * list nat :=
  if Nat.eqb (length trackers) 0 then
    ([], seq 0 (length detections), [])
  else
    let iou_matrix := iou_batch detections trackers in
    let matched_indices :=
      if Nat.ltb 0 (Nat.min (length detections) (length trackers)) then
        let a := threshold_matrix iou_matrix iou_threshold in
        if one_to_one a then where_ a
        else linear_assignment (negate iou_matrix)
      else [] in
    filter_matches (length detections) (length trackers)
                   iou_matrix iou_threshold matched_indices.

(** The general path alone: the same function with the fast-path branch
    taken out, to compare the two. *)
Definition associate_general
    (detections trackers : list (list A)) (iou_threshold : A)
  : list (nat * nat) * list nat * list nat :=
  let iou_matrix := iou_batch detections trackers in
  filter_matches (length detections) (length trackers) iou_matrix iou_threshold
                 (linear_assignment (negate iou_matrix)).

End Association.

(* ================================================================== *)
(** ** Sort *)

Section SortStep.
Context {A : Type} `{Numeric A}.
Local Open Scope num_scope.

Record Sort : Type := mkSort {
  max_age : Z;
  min_hits : Z;
  iou_threshold : A;
  trackers : list (KalmanBoxTracker A);
  frame_count : Z
}.

(** [Sort(max_age, min_hits, iou_threshold)]. *)
Definition Sort_init (max_age min_hits : Z) (iou_threshold : A) : Sort :=
  {| max_age := max_age; min_hits := min_hits; iou_threshold := iou_threshold;
     trackers := []; frame_count := 0 |}.

(** A two-dimensional numpy array: its shape and its rows. *)
Record ndarray : Type := mkArray {
  shape : nat * nat;
  rows : list (list A)
}.

(** [np.empty((0, w))]. *)
Definition empty_array (w : nat) : ndarray := {| shape := (0%nat, w); rows := [] |}.

(** [np.concatenate(ret)] for a non-empty list of 1-by-w arrays. *)
Definition concatenate (ret : list (list A)) : ndarray :=
  {| shape := (length ret, length (hd [] ret)); rows := ret |}.

(** [l.pop(i)]. *)
Definition pop {X : Type} (i : nat) (l : list X) : list X :=
  firstn i l ++ skipn (S i) l.

(** [l[i] = f(l[i])], the effect of a method call that mutates [l[i]]. *)
Fixpoint update_nth {X : Type} (i : nat) (f : X -> X) (l : list X) : list X :=
  match l, i with
  | [], _ => []
  | h :: t, O => f h :: t
  | h :: t, S i' => h :: update_nth i' f t
  end.

(** *** The phases of [Sort.update] *)

(** First loop: every tracker predicts; [fst] is [pos]. *)
Definition predictions (s : Sort) : list (list A * KalmanBoxTracker A) :=
  map KalmanBoxTracker_predict (trackers s).

(** The rows written to [trks]: [pos[0..4]] and a 0. *)
Definition trk_row (pos : list A) : list A :=
  [idx pos 0; idx pos 1; idx pos 2; idx pos 3; idx pos 4; zero].

(** [to_del]: the positions whose [pos] holds a NaN. *)
Definition to_del (s : Sort) : list nat :=
  map fst (filter (fun tp : nat * (list A * KalmanBoxTracker A) =>
                     existsb isnan (fst (snd tp)))
                  (combine (seq 0 (length (predictions s))) (predictions s))).

(** [np.ma.compress_rows(np.ma.masked_invalid(trks))]: the rows without a
    NaN or an infinity. *)
Definition compress_rows (trks : list (list A)) : list (list A) :=
  filter (forallb isfinite) trks.

Definition trks (s : Sort) : list (list A) :=
  compress_rows (map (fun p => trk_row (fst p)) (predictions s)).

(** [for t in reversed(to_del): self.trackers.pop(t)]. *)
Definition after_deletion (s : Sort) : list (KalmanBoxTracker A) :=
  fold_left (fun l t => pop t l) (rev (to_del s)) (map snd (predictions s)).

Definition association (s : Sort) (dets : list (list A))
  : list (nat * nat) * list nat * list nat :=
  associate_detections_to_trackers dets (trks s) (iou_threshold s).

Definition matched (s : Sort) (dets : list (list A)) : list (nat * nat) :=
  fst (fst (association s dets)).
Definition unmatched_dets (s : Sort) (dets : list (list A)) : list nat :=
  snd (fst (association s dets)).

(** [for m in matched: self.trackers[m[1]].update(dets[m[0], :])]. *)
Definition after_correction (s : Sort) (dets : list (list A))
  : list (KalmanBoxTracker A) :=
  fold_left (fun l (m : nat * nat) =>
               update_nth (snd m)
                          (fun t => KalmanBoxTracker_update t (nth (fst m) dets [])) l)
            (matched s dets) (after_deletion s).

(** [for i in unmatched_dets: self.trackers.append(KalmanBoxTracker(...))]:
    the new trackers, in creation order, and the counter after them. *)
Definition births (count : Z) (s : Sort) (dets : list (list A))
  : list (KalmanBoxTracker A) * Z :=
  fold_left (fun (acc : list (KalmanBoxTracker A) * Z) i =>
               let (trk, c) := KalmanBoxTracker_init (snd acc) (nth i dets [] ++ [zero]) in
               (fst acc ++ [trk], c))
            (unmatched_dets s dets) ([], count).

(** [self.trackers] when the last loop starts. *)
Definition before_eviction (count : Z) (s : Sort) (dets : list (list A))
  : list (KalmanBoxTracker A) :=
  after_correction s dets ++ fst (births count s dets).

(** The emission test. *)
Definition confirmed (max_age min_hits : Z) (trk : KalmanBoxTracker A) : bool :=
  (time_since_update trk <? max_age)%Z && (min_hits <=? hits trk)%Z.

(** The row appended to [ret]. *)
Definition output_row (trk : KalmanBoxTracker A) : list A :=
  KalmanBoxTracker_get_state trk ++ [of_Z (id trk)].

(** The rows a step emits, said without the loop: the output rows of the
    confirmed trackers, last tracker first. *)
Definition emitted (count : Z) (s : Sort) (dets : list (list A)) : list (list A) :=
  map output_row
      (filter (confirmed (max_age s) (min_hits s)) (rev (before_eviction count s dets))).

(** The last loop.  [reversed(self.trackers)] reads the list by a position
    that starts at the last element and steps down, and [i] steps down with
    it; [pop(i)] removes the element just read, so the positions still to be
    read keep their elements.  The message printed for a track that is not
    emitted is left out. *)
Fixpoint emit_loop (max_age min_hits : Z) (i : nat)
    (trackers : list (KalmanBoxTracker A)) (ret : list (list A))
  : list (list A) * list (KalmanBoxTracker A) :=
  match i with
  | O => (ret, trackers)
  | S i' =>
      match nth_error trackers i' with
      | None => (ret, trackers)
      | Some trk =>
          let ret' := if confirmed max_age min_hits trk
                      then ret ++ [output_row trk] else ret in
          let trackers' := if (max_age <? time_since_update trk)%Z
                           then pop i' trackers else trackers in
          emit_loop max_age min_hits i' trackers' ret'
      end
  end.

(** [Sort.update(dets)]: the returned array, the tracker object afterwards
    and the class counter afterwards. *)
Definition Sort_update (count : Z) (s : Sort) (dets : list (list A))
  : ndarray * Sort * Z :=
  let live := before_eviction count s dets in
  let (ret, kept) := emit_loop (max_age s) (min_hits s) (length live) live [] in
  (if Nat.ltb 0 (length ret) then concatenate ret else empty_array 6,
   {| max_age := max_age s; min_hits := min_hits s;
      iou_threshold := iou_threshold s;
      trackers := kept;
      frame_count := (frame_count s + 1)%Z |},
   snd (births count s dets)).

(** A run over successive frames: the outputs, the identities given to the
    trackers created at each step, the final object and the final counter. *)
Fixpoint run (count : Z) (s : Sort) (frames : list (list (list A)))
  : list ndarray * list Z * Sort * Z :=
  match frames with
  | [] => ([], [], s, count)
  | dets :: rest =>
      let '(out, s1, c1) := Sort_update count s dets in
      let born := map id (fst (births count s dets)) in
      let '(outs, ids, s2, c2) := run c1 s1 rest in
      (out :: outs, born ++ ids, s2, c2)
  end.

End SortStep.

Arguments Sort A : clear implicits.
Arguments ndarray A : clear implicits.

(* ================================================================== *)
(** ** Vocabulary of the statements *)

(** [l1] is [l2] with some elements left out, the order kept. *)
Inductive subseq {X : Type} : list X -> list X -> Prop :=
| subseq_nil : subseq [] []
| subseq_skip : forall x l1 l2, subseq l1 l2 -> subseq l1 (x :: l2)
| subseq_keep : forall x l1 l2, subseq l1 l2 -> subseq (x :: l1) (x :: l2).

(** The integers [c, c+1, ..., c+n-1]. *)
Definition consecutive (c : Z) (n : nat) : list Z :=
  map (fun k => c + Z.of_nat k) (seq 0 n).

(** Pairs listed by strictly increasing row, as the solver lists them. *)
Definition by_row (p q : nat * nat) : Prop := (fst p < fst q)%nat.

(** The test of the eviction pass, negated: the track stays. *)
Definition stays {A : Type} (max_age : Z) (trk : KalmanBoxTracker A) : bool :=
  negb (max_age <? time_since_update trk).


(* ================================================================== *)
(** ** Exact geometry: the words of the specification *)

Module Plane.
Local Open Scope R_scope.

Definition width (b : list R) : R := idx b 2 - idx b 0.
Definition height (b : list R) : R := idx b 3 - idx b 1.

(** A well-formed box has positive width and height. *)
Definition well_formed (b : list R) : Prop := 0 < width b /\ 0 < height b.

Definition area (b : list R) : R := width b * height b.

(** The rectangle common to two boxes has the sides
    [min x2 - max x1] and [min y2 - max y1] where these are positive. *)
Definition intersection_area (a b : list R) : R :=
  Rmax 0 (Rmin (idx a 2) (idx b 2) - Rmax (idx a 0) (idx b 0)) *
  Rmax 0 (Rmin (idx a 3) (idx b 3) - Rmax (idx a 1) (idx b 1)).

Definition union_area (a b : list R) : R :=
  area a + area b - intersection_area a b.


(** The corner form of a box: its first five entries. *)
Definition corners (b : list R) : list R :=
  [idx b 0; idx b 1; idx b 2; idx b 3; idx b 4].

End Plane.

(* ================================================================== *)
(** ** Scenarios on binary64 floats *)

Module Scenario.
Local Open Scope float_scope.

(** The stationary detection of the specification. *)
Definition still : list float := [0; 0; 10; 10; 0.9; 0].

(** A tracker with the default configuration. *)
Definition fresh : Sort float := Sort_init 1 3 0.3.

Definition outputs (r : list (ndarray float) * list Z * Sort float * Z)
  : list (ndarray float) := fst (fst (fst r)).
Definition born (r : list (ndarray float) * list Z * Sort float * Z)
  : list Z := snd (fst (fst r)).
Definition final (r : list (ndarray float) * list Z * Sort float * Z)
  : Sort float := snd (fst r).

(** What the bookkeeping of a tracker says: identity, hits,
    time_since_update. *)
Definition card (t : KalmanBoxTracker float) : Z * Z * Z :=
  (id t, hits t, time_since_update t).

(** The tracker after the detection was seen once and then missed once. *)
Definition seen_then_missed : Sort float :=
  final (run 0 fresh [[still]; []]).

(** A well-formed detection 2^700 wide and 1 high: its area times its
    aspect ratio overflows. *)
Definition wide : list float := [0; 0; 0x1p700; 1; 0.9; 0].

(** The tracker after one frame that shows [wide] and [still]. *)
Definition wide_and_still : Sort float :=
  final (run 0 fresh [[wide; still]]).

(** A well-formed detection 2^700 wide and 2^-700 high: its aspect ratio
    overflows. *)
Definition sliver : list float := [0; 0; 0x1p700; 0x1p-700; 0.9; 0].

(** Four boxes in a row, each 10 wide and 1 high: two detections and two
    predicted boxes. *)
Definition chain_dets : list (list float) :=
  [[5.5; 0; 15.5; 1; 0.9; 0]; [15; 0; 25; 1; 0.9; 0]].
Definition chain_trks : list (list float) :=
  [[9.5; 0; 19.5; 1; 0.9; 0]; [0; 0; 10; 1; 0.9; 0]].

(** Two detections far apart, and two predicted boxes of which the first
    coincides with the first detection. *)
Definition apart_dets : list (list float) :=
  [[0; 0; 10; 10; 0.9; 0]; [100; 100; 110; 110; 0.9; 0]].
Definition apart_trks : list (list float) :=
  [[0; 0; 10; 10; 0.9; 0]; [200; 200; 210; 210; 0.9; 0]].

End Scenario.

(* ================================================================== *)
(** ** Vocabulary of the further properties *)

(** A prediction [(pos, trk)] whose box holds no NaN: the tracker is not put
    on [to_del]. *)
Definition nan_free {A : Type} `{Numeric A}
    (p : list A * KalmanBoxTracker A) : bool :=
  negb (existsb isnan (fst p)).

(** The box a tracker currently stands for, as [predict] returns it and
    [get_state] reports it. *)
Definition current_box {A : Type} `{Numeric A} (trk : KalmanBoxTracker A) : list A :=
  convert_x_to_bbox (kf_x (kf trk)).

(** The counters of a tracker are in order: ages are not negative, a streak
    is part of the hits, and a tracker has been corrected at most once per
    step of its life. *)
Definition counters_ok {A : Type} (trk : KalmanBoxTracker A) : Prop :=
  (0 <= time_since_update trk <= age trk /\
   0 <= hit_streak trk <= hits trk /\ hits trk <= age trk)%Z.

(** An assignment for an n-by-m matrix: no row twice, no column twice,
    indices in range. *)
Definition valid_assignment (n m : nat) (M : list (nat * nat)) : Prop :=
  NoDup (map fst M) /\ NoDup (map snd M) /\
  forall p, In p M -> (fst p < n /\ snd p < m)%nat.

(** A NaN is not finite: what makes [masked_invalid] drop every row that the
    NaN test marks.  It holds of both instances. *)
Class NumericFinite (A : Type) `{Numeric A} : Prop := {
  nan_not_finite : forall a : A, isnan a = true -> isfinite a = false
}.

(** The counters right after [predict]: one step older, not yet corrected
    in this step. *)
Definition counters_predicted {A : Type} (trk : KalmanBoxTracker A) : Prop :=
  (0 <= time_since_update trk <= age trk /\
   0 <= hit_streak trk <= hits trk /\ hits trk + 1 <= age trk)%Z.

(* ================================================================== *)
(** ** Vocabulary of the numerical and association statements *)

(** Pairs listed by increasing row, rows possibly repeated. *)
Definition rows_ascend (p q : nat * nat) : Prop := (fst p <= fst q)%nat.

(** The sum of the entries of a matrix at the pairs of an assignment. *)
Definition entries_sum (M : list (list R)) (asg : list (nat * nat)) : R :=
  fold_right Rplus 0%R (map (fun p => idx2 M (fst p) (snd p)) asg).

(** An assignment for an n-by-m cost matrix of the kind a solver returns:
    of full size [min n m], and with no assignment of full size strictly
    cheaper. *)
Definition optimal_assignment {A : Type} `{Numeric A} (n m : nat)
    (cost : list (list A)) (M : list (nat * nat)) : Prop :=
  valid_assignment n m M /\ length M = Nat.min n m /\
  forall M', valid_assignment n m M' -> length M' = Nat.min n m ->
             ltb (total_cost cost M') (total_cost cost M) = false.

(** Whether a list of pairs holds a pair. *)
Definition holds (l : list (nat * nat)) (p : nat * nat) : bool :=
  existsb (fun q => Nat.eqb (fst q) (fst p) && Nat.eqb (snd q) (snd p)) l.


(** Two unit squares far from each other, over the reals. *)
Module Apart.
Local Open Scope R_scope.

Definition here : list R := [0; 0; 1; 1; 0.9; 0].
Definition there : list R := [5; 5; 6; 6; 0.9; 0].

End Apart.

Module Extreme.
Local Open Scope float_scope.




End Extreme.
(* ================================================================== *)
(** ** Lists: popping, updating in place, subsequences *)

Section ListFacts.
Context {X : Type}.

Lemma subseq_refl (l : list X) : subseq l l.
Proof. induction l; [constructor | apply subseq_keep; assumption]. Qed.

Lemma subseq_trans (l1 l2 l3 : list X) :
  subseq l1 l2 -> subseq l2 l3 -> subseq l1 l3.
Proof.
  intros H12 H23. revert l1 H12.
  induction H23 as [|x l2 l3 _ IH|x l2 l3 _ IH]; intros l1 H12.
  - exact H12.
  - constructor. apply IH, H12.
  - inversion H12; subst.
    + constructor. apply IH. assumption.
    + apply subseq_keep. apply IH. assumption.
Qed.

Lemma subseq_nil_l (l : list X) : subseq [] l.
Proof. induction l; constructor; assumption. Qed.

Lemma subseq_app (a1 a2 b1 b2 : list X) :
  subseq a1 a2 -> subseq b1 b2 -> subseq (a1 ++ b1) (a2 ++ b2).
Proof.
  intros Ha Hb.
  induction Ha; simpl; [assumption | apply subseq_skip | apply subseq_keep]; assumption.
Qed.

Lemma subseq_filter (p : X -> bool) (l : list X) : subseq (filter p l) l.
Proof.
  induction l as [|x l IH]; simpl.
  - constructor.
  - destruct (p x); [apply subseq_keep | apply subseq_skip]; assumption.
Qed.

Lemma subseq_pop (i : nat) (l : list X) : subseq (pop i l) l.
Proof.
  unfold pop. revert i. induction l as [|x l IH]; intros [|i]; simpl.
  - constructor.
  - constructor.
  - apply subseq_skip, subseq_refl.
  - apply subseq_keep. apply (IH i).
Qed.

Lemma subseq_pops (idxs : list nat) (l : list X) :
  subseq (fold_left (fun l t => pop t l) idxs l) l.
Proof.
  revert l. induction idxs as [|i idxs IH]; intros l; simpl.
  - apply subseq_refl.
  - eapply subseq_trans; [apply IH | apply subseq_pop].
Qed.

Lemma subseq_map {Y : Type} (f : X -> Y) (l1 l2 : list X) :
  subseq l1 l2 -> subseq (map f l1) (map f l2).
Proof.
  induction 1; simpl; [constructor | apply subseq_skip | apply subseq_keep]; assumption.
Qed.


Lemma pop_middle (pre suf : list X) (x : X) :
  pop (length pre) (pre ++ x :: suf) = pre ++ suf.
Proof.
  unfold pop. induction pre as [|a pre IH]; simpl.
  - reflexivity.
  - f_equal. exact IH.
Qed.

Lemma length_update_nth (i : nat) (f : X -> X) (l : list X) :
  length (update_nth i f l) = length l.
Proof.
  revert i. induction l as [|x l IH]; intros [|i]; simpl; auto.
Qed.

Lemma nth_error_update_nth_other (i j : nat) (f : X -> X) (l : list X) :
  i <> j -> nth_error (update_nth i f l) j = nth_error l j.
Proof.
  revert i j. induction l as [|x l IH]; intros [|i] [|j] Hij; simpl; auto.
  congruence.
Qed.

Lemma map_update_nth {Y : Type} (g : X -> Y) (i : nat) (f : X -> X) (l : list X) :
  (forall x, g (f x) = g x) -> map g (update_nth i f l) = map g l.
Proof.
  intros Hg. revert i. induction l as [|x l IH]; intros [|i]; simpl; auto.
  - rewrite Hg. reflexivity.
  - rewrite IH. reflexivity.
Qed.

End ListFacts.

(* ================================================================== *)
(** ** The step: emission, eviction, identities *)

Section StepFacts.
Context {A : Type} `{Numeric A}.

(** The last loop read as two filters: [pre] is the part of the list still
    to be visited, [suf] the part already visited and kept. *)
Lemma emit_loop_filters (ma mh : Z) (pre suf : list (KalmanBoxTracker A))
    (ret : list (list A)) :
  emit_loop ma mh (length pre) (pre ++ suf) ret =
  (ret ++ map output_row (filter (confirmed ma mh) (rev pre)),
   filter (stays ma) pre ++ suf).
Proof.
  revert suf ret. induction pre as [|trk pre IH] using rev_ind; intros suf ret.
  - simpl. rewrite app_nil_r. reflexivity.
  - rewrite length_app, Nat.add_comm. cbn [length Nat.add emit_loop].
    rewrite <- app_assoc. cbn [app].
    rewrite nth_error_app2, Nat.sub_diag by lia. cbn [nth_error].
    rewrite rev_unit, filter_app. cbn [filter]. unfold stays at 2.
    destruct (ma <? time_since_update trk)%Z; cbn [negb].
    + rewrite pop_middle, IH, app_nil_r.
      destruct (confirmed ma mh trk); cbn [map];
        rewrite <- ?app_assoc; reflexivity.
    + rewrite IH.
      destruct (confirmed ma mh trk); cbn [map];
        rewrite <- ?app_assoc; reflexivity.
Qed.

Lemma Sort_update_filters (count : Z) (s : Sort A) (dets : list (list A)) :
  Sort_update count s dets =
  (if Nat.ltb 0 (length (emitted count s dets))
   then concatenate (emitted count s dets) else empty_array 6,
   {| max_age := max_age s; min_hits := min_hits s;
      iou_threshold := iou_threshold s;
      trackers := filter (stays (max_age s)) (before_eviction count s dets);
      frame_count := (frame_count s + 1)%Z |},
   snd (births count s dets)).
Proof.
  unfold Sort_update.
  pose proof (emit_loop_filters (max_age s) (min_hits s)
                (before_eviction count s dets) [] []) as E.
  rewrite !app_nil_r in E. cbn [app] in E. rewrite E. reflexivity.
Qed.

Lemma rows_of_update (count : Z) (s : Sort A) (dets : list (list A)) :
  rows (fst (fst (Sort_update count s dets))) = emitted count s dets.
Proof.
  rewrite Sort_update_filters. cbn [fst].
  destruct (emitted count s dets); reflexivity.
Qed.

Lemma trackers_of_update (count : Z) (s : Sort A) (dets : list (list A)) :
  trackers (snd (fst (Sort_update count s dets))) =
  filter (stays (max_age s)) (before_eviction count s dets).
Proof. rewrite Sort_update_filters. reflexivity. Qed.

Lemma config_of_update (count : Z) (s : Sort A) (dets : list (list A)) :
  max_age (snd (fst (Sort_update count s dets))) = max_age s /\
  min_hits (snd (fst (Sort_update count s dets))) = min_hits s.
Proof. rewrite Sort_update_filters. split; reflexivity. Qed.

Lemma confirmed_iff (ma mh : Z) (trk : KalmanBoxTracker A) :
  confirmed ma mh trk = true <->
  (time_since_update trk < ma /\ mh <= hits trk)%Z.
Proof.
  unfold confirmed. rewrite andb_true_iff, Z.ltb_lt, Z.leb_le. reflexivity.
Qed.

Lemma stays_iff (ma : Z) (trk : KalmanBoxTracker A) :
  stays ma trk = true <-> (time_since_update trk <= ma)%Z.
Proof.
  unfold stays. rewrite negb_true_iff, Z.ltb_ge. reflexivity.
Qed.

(** *** Identities *)

Lemma id_of_update (t : KalmanBoxTracker A) (bbox : list A) :
  id (KalmanBoxTracker_update t bbox) = id t.
Proof. reflexivity. Qed.

Lemma id_of_predict (t : KalmanBoxTracker A) :
  id (snd (KalmanBoxTracker_predict t)) = id t.
Proof. reflexivity. Qed.

Lemma consecutive_from (c : Z) (a m : nat) :
  map (fun k => c + Z.of_nat k)%Z (seq a m) = consecutive (c + Z.of_nat a) m.
Proof.
  revert a. induction m as [|m IH]; intros a; [reflexivity|].
  unfold consecutive. cbn [seq map]. f_equal; [lia|].
  rewrite IH. unfold consecutive.
  rewrite <- seq_shift, map_map. apply map_ext. intros k. lia.
Qed.

Lemma consecutive_app (c : Z) (n m : nat) :
  consecutive c (n + m) = consecutive c n ++ consecutive (c + Z.of_nat n) m.
Proof.
  unfold consecutive at 1 2. rewrite seq_app, map_app. f_equal.
  apply consecutive_from.
Qed.

Lemma consecutive_bounds (c : Z) (n : nat) (z : Z) :
  In z (consecutive c n) <-> (c <= z < c + Z.of_nat n)%Z.
Proof.
  unfold consecutive. rewrite in_map_iff. split.
  - intros (k & <- & Hk). apply in_seq in Hk. lia.
  - intros Hz. exists (Z.to_nat (z - c)). split; [lia|].
    apply in_seq. lia.
Qed.

Lemma consecutive_sorted (c : Z) (n : nat) :
  StronglySorted Z.lt (consecutive c n).
Proof.
  revert c. induction n as [|n IH]; intros c.
  - constructor.
  - change (S n) with (1 + n)%nat. rewrite consecutive_app.
    cbn [consecutive seq map app]. constructor.
    + apply IH.
    + apply Forall_forall. intros z Hz. apply consecutive_bounds in Hz. lia.
Qed.

Lemma sorted_lt_NoDup (l : list Z) : StronglySorted Z.lt l -> NoDup l.
Proof.
  induction 1 as [|z l _ IH Hall]; constructor; auto.
  intros Hin. rewrite Forall_forall in Hall. specialize (Hall z Hin). lia.
Qed.

(** The creation loop gives out the counter's successive values. *)
Lemma births_loop (dets : list (list A)) (l : list nat)
    (acc : list (KalmanBoxTracker A)) (c : Z) :
  let r := fold_left
             (fun (acc : list (KalmanBoxTracker A) * Z) i =>
                let (trk, c) := KalmanBoxTracker_init (snd acc) (nth i dets [] ++ [zero]) in
                (fst acc ++ [trk], c))
             l (acc, c) in
  map id (fst r) = map id acc ++ consecutive c (length l) /\
  snd r = (c + Z.of_nat (length l))%Z.
Proof.
  revert acc c. induction l as [|i l IH]; intros acc c; cbn zeta.
  - cbn. rewrite app_nil_r. split; [reflexivity | lia].
  - cbn [fold_left KalmanBoxTracker_init fst snd].
    destruct (IH (acc ++ [fst (KalmanBoxTracker_init c (nth i dets [] ++ [zero]))])
                 (c + 1)%Z) as [E1 E2].
    cbn zeta in E1, E2. cbn [KalmanBoxTracker_init fst] in E1, E2.
    rewrite E1, E2. split.
    + rewrite map_app. cbn [map id]. rewrite <- app_assoc.
      change (length (i :: l)) with (1 + length l)%nat.
      rewrite consecutive_app. cbn [consecutive seq map app].
      repeat f_equal; lia.
    + cbn [length]. lia.
Qed.

Lemma births_ids (count : Z) (s : Sort A) (dets : list (list A)) :
  map id (fst (births count s dets)) =
    consecutive count (length (unmatched_dets s dets)) /\
  snd (births count s dets) =
    (count + Z.of_nat (length (unmatched_dets s dets)))%Z.
Proof.
  unfold births.
  pose proof (births_loop dets (unmatched_dets s dets) [] count) as L.
  cbn zeta in L. exact L.
Qed.

Lemma ids_after_correction (s : Sort A) (dets : list (list A)) :
  subseq (map id (after_correction s dets)) (map id (trackers s)).
Proof.
  unfold after_correction.
  assert (G : forall ms l,
             map id (fold_left
                       (fun l (m : nat * nat) =>
                          update_nth (snd m)
                            (fun t => KalmanBoxTracker_update t (nth (fst m) dets [])) l)
                       ms l) = map id l).
  { induction ms as [|m ms IH]; intros l; cbn [fold_left]; [reflexivity|].
    rewrite IH. apply map_update_nth. intros t. reflexivity. }
  rewrite G. unfold after_deletion.
  eapply subseq_trans; [apply subseq_map, subseq_pops|].
  unfold predictions. rewrite !map_map. cbn [KalmanBoxTracker_predict snd id].
  apply subseq_refl.
Qed.

Lemma ids_of_update (count : Z) (s : Sort A) (dets : list (list A)) :
  subseq (map id (trackers (snd (fst (Sort_update count s dets)))))
         (map id (trackers s) ++ map id (fst (births count s dets))).
Proof.
  rewrite trackers_of_update.
  eapply subseq_trans; [apply subseq_map, subseq_filter|].
  unfold before_eviction. rewrite map_app.
  apply subseq_app; [apply ids_after_correction | apply subseq_refl].
Qed.

Lemma run_ids (frames : list (list (list A))) (count : Z) (s : Sort A) :
  let ids := snd (fst (fst (run count s frames))) in
  let s' := snd (fst (run count s frames)) in
  let count' := snd (run count s frames) in
  ids = consecutive count (length ids) /\
  count' = (count + Z.of_nat (length ids))%Z /\
  subseq (map id (trackers s')) (map id (trackers s) ++ ids).
Proof.
  revert count s. induction frames as [|dets rest IH]; intros count s; cbn zeta.
  - cbn. rewrite app_nil_r. repeat split; [lia | apply subseq_refl].
  - cbn [run].
    pose proof (ids_of_update count s dets) as Hstep.
    destruct (births_ids count s dets) as [Eb Ec].
    destruct (Sort_update count s dets) as [[out s1] c1] eqn:EU.
    assert (Ec1 : c1 = snd (births count s dets)).
    { rewrite Sort_update_filters in EU. congruence. }
    cbn [fst snd] in Hstep.
    specialize (IH c1 s1). cbn zeta in IH.
    destruct (run c1 s1 rest) as [[[outs ids] s2] c2].
    cbn [fst snd] in *. destruct IH as (I1 & I2 & I3).
    set (nb := length (unmatched_dets s dets)) in *.
    rewrite Eb in *. rewrite Ec in Ec1. subst c1.
    assert (Ln : length (consecutive count nb) = nb).
    { unfold consecutive. rewrite length_map, length_seq. reflexivity. }
    rewrite length_app, Ln, consecutive_app.
    repeat split.
    + f_equal. exact I1.
    + rewrite I2. lia.
    + eapply subseq_trans; [exact I3|].
      rewrite app_assoc. apply subseq_app; [exact Hstep | apply subseq_refl].
Qed.

End StepFacts.

(* ================================================================== *)
(** ** Properties of the step *)

Section StepClaims.
Context {A : Type} `{Numeric A}.

Lemma length_output_row (trk : KalmanBoxTracker A) :
  length (output_row trk) = 10%nat.
Proof. reflexivity. Qed.

Lemma correction_elsewhere (dets : list (list A)) (ms : list (nat * nat))
    (l : list (KalmanBoxTracker A)) (j : nat) :
  ~ In j (map snd ms) ->
  nth_error
    (fold_left
       (fun l (m : nat * nat) =>
          update_nth (snd m)
            (fun t => KalmanBoxTracker_update t (nth (fst m) dets [])) l)
       ms l) j = nth_error l j.
Proof.
  revert l. induction ms as [|m ms IH]; intros l Hj; cbn [fold_left].
  - reflexivity.
  - cbn [map In] in Hj. rewrite IH by tauto.
    apply nth_error_update_nth_other. tauto.
Qed.

Lemma length_after_correction (s : Sort A) (dets : list (list A)) :
  length (after_correction s dets) = length (after_deletion s).
Proof.
  unfold after_correction. generalize (after_deletion s) as l.
  induction (matched s dets) as [|m ms IH]; intros l; cbn [fold_left].
  - reflexivity.
  - rewrite IH. apply length_update_nth.
Qed.

(** C1.  The rows returned by a step are the output rows of exactly those
    trackers of the list reached after correction and creation whose
    [time_since_update] is below [max_age] and whose [hits] is at least
    [min_hits], in the order of the reversed list; a tracker within the age
    limit that lacks the hits is not among them and stays in
    [self.trackers]. *)
Theorem emission_gate (count : Z) (s : Sort A) (dets : list (list A)) :
  let live := before_eviction count s dets in
  let out := fst (fst (Sort_update count s dets)) in
  let s' := snd (fst (Sort_update count s dets)) in
  rows out =
    map output_row
        (filter (fun trk => (time_since_update trk <? max_age s)%Z
                            && (min_hits s <=? hits trk)%Z) (rev live))
  /\ (forall trk,
        In trk (filter (confirmed (max_age s) (min_hits s)) (rev live)) <->
        In trk live /\
        (time_since_update trk < max_age s)%Z /\ (min_hits s <= hits trk)%Z)
  /\ (forall trk,
        In trk live ->
        (time_since_update trk < max_age s)%Z -> (hits trk < min_hits s)%Z ->
        In trk (trackers s') /\
        ~ In trk (filter (confirmed (max_age s) (min_hits s)) (rev live))).
Proof.
  cbn zeta. split; [|split].
  - rewrite rows_of_update. reflexivity.
  - intros trk. rewrite filter_In, <- in_rev, confirmed_iff. reflexivity.
  - intros trk Hin Hage Hhits. split.
    + rewrite trackers_of_update. apply filter_In. split; [exact Hin|].
      apply stays_iff. lia.
    + rewrite filter_In, confirmed_iff. lia.
Qed.

(** C6.  Over any run of a tracker that starts empty, the identities given
    to the trackers created are the successive values of the counter:
    strictly increasing, pairwise distinct, and the counter ends above all
    of them, so none is given out again; the identities of the live
    trackers are among them, in creation order, and neither a correction
    nor a prediction changes a tracker's identity. *)
Theorem identities_increasing (count max_age min_hits : Z) (thr : A)
    (frames : list (list (list A))) :
  let r := run count (Sort_init max_age min_hits thr) frames in
  let ids := snd (fst (fst r)) in
  ids = consecutive count (length ids)
  /\ snd r = (count + Z.of_nat (length ids))%Z
  /\ StronglySorted Z.lt ids
  /\ NoDup ids
  /\ Forall (fun i => (i < snd r)%Z) ids
  /\ subseq (map id (trackers (snd (fst r)))) ids
  /\ (forall (t : KalmanBoxTracker A) bbox,
        id (KalmanBoxTracker_update t bbox) = id t /\
        id (snd (KalmanBoxTracker_predict t)) = id t).
Proof.
  cbn zeta.
  destruct (run_ids frames count (Sort_init max_age min_hits thr)) as (E & C & S).
  cbn zeta in E, C, S. cbn [Sort_init trackers map app] in S.
  assert (Hs : StronglySorted Z.lt
                 (snd (fst (fst (run count (Sort_init max_age min_hits thr) frames))))).
  { rewrite E. apply consecutive_sorted. }
  repeat split; auto.
  - apply sorted_lt_NoDup, Hs.
  - apply Forall_forall. intros i Hi. rewrite E in Hi.
    apply consecutive_bounds in Hi. lia.
Qed.

(** C10.  Every emitted row has 10 entries; when some tracker passes the
    emission test the returned array has as many rows as were emitted and
    width 10, and when none does the returned array is the empty array of
    width 6. *)
Theorem output_width (count : Z) (s : Sort A) (dets : list (list A)) :
  let live := before_eviction count s dets in
  let out := fst (fst (Sort_update count s dets)) in
  (existsb (confirmed (max_age s) (min_hits s)) live = true ->
     rows out <> [] /\
     shape out = (length (rows out), 10%nat) /\
     Forall (fun row => length row = 10%nat) (rows out))
  /\ (existsb (confirmed (max_age s) (min_hits s)) live = false ->
     out = empty_array 6 /\ shape out = (0%nat, 6%nat)).
Proof.
  cbn zeta. rewrite Sort_update_filters. cbn [fst]. unfold emitted.
  set (live := before_eviction count s dets).
  set (p := confirmed (max_age s) (min_hits s)).
  split.
  - intros Hex. apply existsb_exists in Hex. destruct Hex as (trk & Hin & Hp).
    assert (Hf : In trk (filter p (rev live))).
    { apply filter_In. split; [apply in_rev; rewrite rev_involutive|]; assumption. }
    destruct (filter p (rev live)) as [|t0 l] eqn:Ef; [destruct Hf|].
    cbn [map length Nat.ltb Nat.leb concatenate rows shape hd].
    repeat split.
    + discriminate.
    + apply Forall_forall. intros row Hrow.
      change (output_row t0 :: map output_row l) with (map output_row (t0 :: l)) in Hrow.
      apply in_map_iff in Hrow. destruct Hrow as (t & <- & _).
      apply length_output_row.
  - intros Hex.
    assert (Ef : filter p (rev live) = []).
    { destruct (filter p (rev live)) as [|t0 l] eqn:Ef; [reflexivity|].
      assert (Hin : In t0 (filter p (rev live))) by (rewrite Ef; left; reflexivity).
      apply filter_In in Hin. destruct Hin as [Hin Hp].
      apply in_rev in Hin.
      assert (existsb p live = true) by (apply existsb_exists; eauto).
      congruence. }
    rewrite Ef. cbn. split; reflexivity.
Qed.

End StepClaims.

(* ================================================================== *)
(** ** Geometry over the reals *)

Section ExactGeometry.
Import Plane.
Local Open Scope R_scope.

Lemma iou_exact (a b : list R) :
  iou a b = intersection_area a b / union_area a b.
Proof. reflexivity. Qed.









(** Over the reals the velocity of the area really becomes 0. *)
Lemma damp_area_velocity_exact (x : list R) :
  length x = 8%nat ->
  idx x 7 + idx x 2 <= 0 ->
  damp_area_velocity x = set_idx x 7 0.
Proof.
  intros _ Hle. unfold damp_area_velocity.
  cbn [leb add mul Numeric_R]. unfold Exact.leb, zero. cbn [of_Z Numeric_R].
  destruct (Rle_dec (idx x 7 + idx x 2) 0) as [_|Hn]; [|contradiction].
  rewrite Rmult_0_r. reflexivity.
Qed.

End ExactGeometry.

(* ================================================================== *)
(** ** The order laws of the two instances *)

Lemma SFcompare_Lt_asym (x y : SpecFloat.spec_float) :
  SpecFloat.SFcompare x y = Some Lt -> SpecFloat.SFcompare y x <> Some Lt.
Proof.
  destruct x as [sx|sx| |sx mx ex], y as [sy|sy| |sy my ey]; cbn;
    try discriminate; try (destruct sx); try (destruct sy);
    try discriminate; try congruence.
  - rewrite (Z.compare_antisym ex ey).
    destruct (ex ?= ey)%Z; cbn; try congruence.
    change (Pos.compare_cont Eq my mx) with (my ?= mx)%positive.
    change (Pos.compare_cont Eq mx my) with (mx ?= my)%positive.
    rewrite (Pos.compare_antisym mx my).
    destruct (mx ?= my)%positive; cbn; congruence.
  - rewrite (Z.compare_antisym ex ey).
    destruct (ex ?= ey)%Z; cbn; try congruence.
    change (Pos.compare_cont Eq my mx) with (my ?= mx)%positive.
    change (Pos.compare_cont Eq mx my) with (mx ?= my)%positive.
    rewrite (Pos.compare_antisym mx my).
    destruct (mx ?= my)%positive; cbn; congruence.
Qed.

#[export] Instance NumericOrder_float : NumericOrder float.
Proof.
  constructor. intros a b. cbn [ltb Numeric_float].
  rewrite !FloatAxioms.ltb_spec. unfold SpecFloat.SFltb.
  pose proof (SFcompare_Lt_asym (Prim2SF a) (Prim2SF b)) as Hasym.
  destruct (SpecFloat.SFcompare (Prim2SF a) (Prim2SF b)) as [[| |]|];
    try discriminate.
  intros _.
  destruct (SpecFloat.SFcompare (Prim2SF b) (Prim2SF a)) as [[| |]|];
    try reflexivity.
  exfalso. apply Hasym; reflexivity.
Qed.

#[export] Instance NumericOrder_R : NumericOrder R.
Proof.
  constructor. intros a b. cbn [ltb Numeric_R]. unfold Exact.ltb.
  destruct (Rlt_dec a b) as [Hab|]; [|discriminate].
  intros _. destruct (Rlt_dec b a) as [Hba|]; [|reflexivity].
  exfalso. lra.
Qed.

(* ================================================================== *)
(** ** Runs on binary64 floats *)

Section FloatRuns.
Import Scenario.
Local Open Scope float_scope.

(** C3, refuted as stated.  With [min_hits = 3] and [max_age = 1] the
    third frame of the stationary detection emits nothing: the tracker was
    created with [hits = 0] and has been corrected twice. *)
Lemma third_frame_emits_nothing :
  outputs (run 0 fresh [[still]; [still]; [still]]) =
    [empty_array 6; empty_array 6; empty_array 6]
  /\ map card (trackers (final (run 0 fresh [[still]; [still]; [still]]))) =
     [(0, 2, 0)%Z]
  /\ ~ (exists row, rows (nth 2 (outputs (run 0 fresh [[still]; [still]; [still]]))
                           (empty_array 0)) = [row]).
Proof.
  split; [vm_compute; reflexivity|]. split; [vm_compute; reflexivity|].
  intros [row Hrow]. vm_compute in Hrow. discriminate.
Qed.

(** C3, as the program has it.  The first frame creates one tracker, with
    the identity the counter held, and emits nothing; the second and the
    third emit nothing; the fourth emits exactly one row, with the box
    [(0,0,10,10)], the confidence, the class, zero velocities and that
    identity. *)
Theorem fourth_frame_emits :
  let r := run 0 fresh [[still]; [still]; [still]; [still]] in
  born (run 0 fresh [[still]]) = [0%Z]
  /\ born r = [0%Z]
  /\ outputs r =
     [empty_array 6; empty_array 6; empty_array 6;
      concatenate [[0; 0; 10; 10; 0.9; 0; 0; 0; 0; of_Z 0]]]
  /\ map card (trackers (final r)) = [(0, 3, 0)%Z].
Proof.
  cbn zeta. repeat split; vm_compute; reflexivity.
Qed.

(** C2, refuted as stated, with [max_age = 1] in both cases.  A tracker seen
    once and missed once enters the next step with [time_since_update = 1];
    the prediction of that step raises it to 2, above [max_age], and yet the
    tracker, matched again by the detection, is still live after the step.
    And a tracker whose predicted box is NaN (a well-formed detection whose
    aspect ratio overflows) is removed in its second step, where its
    predicted [time_since_update] is 1 and does not exceed [max_age]. *)
Lemma eviction_not_by_predicted_age :
  (max_age seen_then_missed = 1%Z
   /\ map card (trackers seen_then_missed) = [(0, 0, 1)%Z]
   /\ map (fun p => card (snd p)) (predictions seen_then_missed) = [(0, 0, 2)%Z]
   /\ map card (trackers (snd (fst (Sort_update 1 seen_then_missed [still])))) =
      [(0, 1, 0)%Z])
  /\ (max_age (final (run 0 fresh [[sliver]])) = 1%Z
      /\ map (fun p => (fst p, card (snd p)))
             (predictions (final (run 0 fresh [[sliver]]))) =
         [([nan; nan; nan; nan; nan], (0, 0, 1)%Z)]
      /\ trackers (snd (fst (Sort_update 1 (final (run 0 fresh [[sliver]])) []))) = []).
Proof.
  repeat split; vm_compute; reflexivity.
Qed.

(** C5, the defect.  A tracker whose predicted box holds an infinity but no
    NaN keeps its place in [self.trackers] while its row is taken out of
    [trks]: the positions of [trks] no longer name the same trackers, and
    the detection matched with the second tracker's box corrects the first
    tracker. *)
Theorem infinite_box_misaligns :
  map card (trackers wide_and_still) = [(0, 0, 0)%Z; (1, 0, 0)%Z]
  /\ map fst (predictions wide_and_still) =
     [[neg_infinity; 0.5; infinity; 0.5; 0.9]; [0; 0; 10; 10; 0.9]]
  /\ to_del wide_and_still = []
  /\ length (after_deletion wide_and_still) = 2%nat
  /\ trks wide_and_still = [[0; 0; 10; 10; 0.9; 0]]
  /\ association wide_and_still [still] = ([(0%nat, 0%nat)], [], [])
  /\ map card (trackers (snd (fst (Sort_update 2 wide_and_still [still])))) =
     [(0, 1, 0)%Z; (1, 0, 1)%Z].
Proof.
  repeat split; vm_compute; reflexivity.
Qed.

(** C4, refuted as stated.  Detections and predicted boxes with the IoU
    matrix [[0.43, 0.29], [0.29, 0]] and the threshold 0.3: the thresholded
    matrix has a single 1, the fast path matches detection 0 with box 0, but
    the assignment of greatest total IoU is the other diagonal, whose two
    pairs fall below the threshold, so the general path matches nothing. *)
Lemma fast_path_differs :
  one_to_one (threshold_matrix (iou_batch chain_dets chain_trks) 0.3) = true
  /\ threshold_matrix (iou_batch chain_dets chain_trks) 0.3 =
     [[1; 0]; [0; 0]]%nat
  /\ associate_detections_to_trackers chain_dets chain_trks 0.3 =
     ([(0, 0)], [1], [1])%nat
  /\ ltb (total_cost (negate (iou_batch chain_dets chain_trks)) [(0, 1); (1, 0)]%nat)
         (total_cost (negate (iou_batch chain_dets chain_trks)) [(0, 0); (1, 1)]%nat)
     = true
  /\ associate_general chain_dets chain_trks 0.3 = ([], [0; 1], [1; 0])%nat
  /\ associate_detections_to_trackers chain_dets chain_trks 0.3 <>
     associate_general chain_dets chain_trks 0.3.
Proof.
  repeat split; try (vm_compute; reflexivity).
  vm_compute. discriminate.
Qed.

End FloatRuns.

(* ================================================================== *)
(** ** Association: the fast path against the general path *)

Section WhereFacts.
Local Open Scope nat_scope.

Lemma mem_In (n : nat) (l : list nat) : mem n l = true <-> In n l.
Proof.
  unfold mem. rewrite existsb_exists. split.
  - intros (k & Hk & E). apply Nat.eqb_eq in E. subst. exact Hk.
  - intros Hn. exists n. split; [exact Hn | apply Nat.eqb_refl].
Qed.

Lemma row_hits_cons (r s v : nat) (row : list nat) :
  row_hits r s (v :: row) =
  (if Nat.eqb v 0 then [] else [(r, s)]) ++ row_hits r (S s) row.
Proof. reflexivity. Qed.

Lemma In_row_hits (r s : nat) (row : list nat) (p : nat * nat) :
  In p (row_hits r s row) <->
  fst p = r /\ s <= snd p /\
  exists v, nth_error row (snd p - s) = Some v /\ v <> 0.
Proof.
  revert s. induction row as [|v row IH]; intros s.
  - cbn. split; [tauto|]. intros (_ & _ & v & Hv & _).
    destruct (snd p - s); discriminate.
  - rewrite row_hits_cons, in_app_iff, IH. split.
    + intros [Hhd|(E & Hle & w & Hw & Hn)].
      * destruct (Nat.eqb_spec v 0) as [|Hv]; [destruct Hhd|].
        destruct Hhd as [<-|[]]. cbn [fst snd].
        rewrite Nat.sub_diag. split; [reflexivity|]. split; [lia|].
        exists v. split; [reflexivity | exact Hv].
      * repeat split; [exact E | lia |]. exists w. split; [|exact Hn].
        replace (snd p - s) with (S (snd p - S s)) by lia. exact Hw.
    + intros (E & Hle & w & Hw & Hn).
      destruct (Nat.eq_dec (snd p) s) as [Es|Hs].
      * left. rewrite Es, Nat.sub_diag in Hw. cbn in Hw. injection Hw as ->.
        destruct (Nat.eqb_spec w 0) as [|_]; [contradiction|].
        left. destruct p; cbn in *; congruence.
      * right. repeat split; [exact E | lia |]. exists w. split; [|exact Hn].
        replace (snd p - s) with (S (snd p - S s)) in Hw by lia. exact Hw.
Qed.

Lemma length_row_hits (r s : nat) (row : list nat) :
  length (row_hits r s row) <= list_sum row.
Proof.
  revert s. induction row as [|v row IH]; intros s; [cbn; lia|].
  rewrite row_hits_cons, length_app.
  change (list_sum (v :: row)) with (v + list_sum row).
  specialize (IH (S s)). destruct (Nat.eqb_spec v 0); cbn [length]; lia.
Qed.

Lemma where_from_cons (k : nat) (row : list nat) (a : list (list nat)) :
  where_from k (row :: a) = row_hits k 0 row ++ where_from (S k) a.
Proof. reflexivity. Qed.

Lemma In_where_from (k : nat) (a : list (list nat)) (p : nat * nat) :
  In p (where_from k a) <->
  k <= fst p /\
  exists row v, nth_error a (fst p - k) = Some row /\
                nth_error row (snd p) = Some v /\ v <> 0.
Proof.
  revert k. induction a as [|row a IH]; intros k.
  - cbn. split; [tauto|]. intros (_ & row & v & Hr & _).
    destruct (fst p - k); discriminate.
  - rewrite where_from_cons, in_app_iff, IH, In_row_hits. split.
    + intros [(E & _ & v & Hv & Hn)|(Hle & row' & v & Hr & Hv & Hn)].
      * rewrite Nat.sub_0_r in Hv. split; [lia|]. exists row, v.
        rewrite E, Nat.sub_diag. auto.
      * split; [lia|]. exists row', v.
        replace (fst p - k) with (S (fst p - S k)) by lia. auto.
    + intros (Hle & row' & v & Hr & Hv & Hn).
      destruct (Nat.eq_dec (fst p) k) as [E|Hk].
      * left. rewrite E, Nat.sub_diag in Hr. cbn in Hr. injection Hr as ->.
        repeat split; [exact E | lia |]. exists v. rewrite Nat.sub_0_r. auto.
      * right. split; [lia|]. exists row', v.
        replace (fst p - k) with (S (fst p - S k)) in Hr by lia. auto.
Qed.

Lemma where_from_sorted (k : nat) (a : list (list nat)) :
  Forall (fun row => list_sum row <= 1) a ->
  StronglySorted by_row (where_from k a).
Proof.
  revert k. induction a as [|row a IH]; intros k Hall.
  - constructor.
  - inversion Hall as [|? ? Hrow Hrest]; subst.
    rewrite where_from_cons.
    pose proof (length_row_hits k 0 row) as Hlen.
    destruct (row_hits k 0 row) as [|p [|q l]] eqn:E.
    + apply IH, Hrest.
    + cbn [app]. constructor; [apply IH, Hrest|].
      apply Forall_forall. intros q Hq. apply In_where_from in Hq.
      assert (Hp : In p (row_hits k 0 row)) by (rewrite E; left; reflexivity).
      apply In_row_hits in Hp. unfold by_row. lia.
    + cbn [length] in Hlen. lia.
Qed.

Lemma by_row_sorted_ext (l1 l2 : list (nat * nat)) :
  StronglySorted by_row l1 -> StronglySorted by_row l2 ->
  (forall p, In p l1 <-> In p l2) -> l1 = l2.
Proof.
  intros S1. revert l2.
  induction S1 as [|x l1 S1 IH F1]; intros l2 S2 Hext.
  - destruct l2 as [|y l2]; [reflexivity|].
    exfalso. apply (Hext y). left. reflexivity.
  - destruct S2 as [|y l2 S2 F2].
    + exfalso. apply (Hext x). left. reflexivity.
    + rewrite Forall_forall in F1, F2. unfold by_row in F1, F2.
      assert (Exy : x = y).
      { destruct (proj1 (Hext x) (or_introl eq_refl)) as [E|Hx]; [congruence|].
        destruct (proj2 (Hext y) (or_introl eq_refl)) as [E|Hy]; [congruence|].
        specialize (F1 _ Hy). specialize (F2 _ Hx). lia. }
      subst y. f_equal. apply IH; [exact S2|].
      intros p. split; intros Hp.
      * destruct (proj1 (Hext p) (or_intror Hp)) as [E|Hq]; [|exact Hq].
        subst p. specialize (F1 _ Hp). lia.
      * destruct (proj2 (Hext p) (or_intror Hp)) as [E|Hq]; [|exact Hq].
        subst p. specialize (F2 _ Hp). lia.
Qed.

Lemma by_row_sorted_filter (f : nat * nat -> bool) (l : list (nat * nat)) :
  StronglySorted by_row l -> StronglySorted by_row (filter f l).
Proof.
  induction 1 as [|x l S IH F]; cbn [filter]; [constructor|].
  destruct (f x); [|exact IH]. constructor; [exact IH|].
  rewrite Forall_forall in *. intros y Hy. apply filter_In in Hy. apply F, Hy.
Qed.

Lemma by_row_sorted_NoDup (l : list (nat * nat)) :
  StronglySorted by_row l -> NoDup (map fst l).
Proof.
  induction 1 as [|x l S IH F]; cbn [map]; constructor; [|exact IH].
  intros Hin. apply in_map_iff in Hin. destruct Hin as (y & E & Hy).
  rewrite Forall_forall in F. specialize (F _ Hy). unfold by_row in F. lia.
Qed.

Lemma filter_none {X : Type} (f : X -> bool) (l : list X) :
  (forall x, In x l -> f x = false) -> filter f l = [].
Proof.
  induction l as [|x l IH]; intros Hf; [reflexivity|]. cbn [filter].
  rewrite (Hf x (or_introl eq_refl)). apply IH.
  intros y Hy. apply Hf. right. exact Hy.
Qed.

Lemma filter_all {X : Type} (f : X -> bool) (l : list X) :
  (forall x, In x l -> f x = true) -> filter f l = l.
Proof.
  induction l as [|x l IH]; intros Hf; [reflexivity|]. cbn [filter].
  rewrite (Hf x (or_introl eq_refl)). f_equal. apply IH.
  intros y Hy. apply Hf. right. exact Hy.
Qed.

Lemma NoDup_map_filter {X Y : Type} (g : X -> Y) (f : X -> bool) (l : list X) :
  NoDup (map g l) -> NoDup (map g (filter f l)).
Proof.
  induction l as [|x l IH]; cbn [map filter]; intros Hnd; [constructor|].
  inversion Hnd as [|? ? Hx Hl]; subst.
  destruct (f x); [|apply IH, Hl]. cbn [map]. constructor; [|apply IH, Hl].
  intros Hin. apply Hx. apply in_map_iff in Hin. destruct Hin as (y & E & Hy).
  apply filter_In in Hy. apply in_map_iff. exists y. tauto.
Qed.

Lemma NoDup_map_inj {X Y : Type} (g : X -> Y) (l : list X) (x y : X) :
  NoDup (map g l) -> In x l -> In y l -> g x = g y -> x = y.
Proof.
  induction l as [|z l IH]; cbn [map]; intros Hnd Hx Hy E; [destruct Hx|].
  inversion Hnd as [|? ? Hz Hl]; subst.
  destruct Hx as [->|Hx], Hy as [->|Hy].
  - reflexivity.
  - exfalso. apply Hz. rewrite E. apply in_map, Hy.
  - exfalso. apply Hz. rewrite <- E. apply in_map, Hx.
  - apply IH; assumption.
Qed.

(** The indices left out of the chosen pairs and those of the rejected
    pairs, for the coordinate [pr] of the pairs ([fst]: detections, [snd]:
    trackers). *)
Lemma unmatched_permutation (pr : nat * nat -> nat) (N : nat)
    (W M : list (nat * nat)) (rej : nat * nat -> bool) :
  NoDup (map pr M) ->
  incl W M ->
  (forall m, In m M -> pr m < N) ->
  (forall m, In m M -> ~ In m W -> rej m = true) ->
  (forall m, In m W -> rej m = false) ->
  Permutation
    (filter (fun d => negb (mem d (map pr W))) (seq 0 N))
    (filter (fun d => negb (mem d (map pr M))) (seq 0 N)
     ++ map pr (filter rej M)).
Proof.
  intros Hnd Hincl Hrange Hout Hin.
  assert (Hdec : forall m, In m W \/ ~ In m W).
  { intros m. destruct (in_dec (fun p q : nat * nat =>
        ltac:(decide equality; apply Nat.eq_dec) : {p = q} + {p <> q}) m W); auto. }
  apply NoDup_Permutation.
  - apply NoDup_filter, seq_NoDup.
  - apply NoDup_app.
    + apply NoDup_filter, seq_NoDup.
    + apply NoDup_map_filter, Hnd.
    + intros d Hd1 Hd2. apply filter_In in Hd1. destruct Hd1 as [_ Hd1].
      apply negb_true_iff in Hd1.
      apply in_map_iff in Hd2. destruct Hd2 as (m & E & Hm).
      apply filter_In in Hm.
      assert (mem d (map pr M) = true).
      { apply mem_In, in_map_iff. exists m. tauto. }
      congruence.
  - intros d. rewrite in_app_iff, !filter_In, !negb_true_iff, in_map_iff, in_seq.
    split.
    + intros [Hd HW].
      destruct (mem d (map pr M)) eqn:EM; [|left; auto].
      right. apply mem_In, in_map_iff in EM. destruct EM as (m & E & Hm).
      exists m. split; [exact E|]. apply filter_In. split; [exact Hm|].
      apply Hout; [exact Hm|]. intros HmW.
      assert (mem d (map pr W) = true).
      { apply mem_In, in_map_iff. exists m. tauto. }
      congruence.
    + intros [[Hd HM]|(m & E & Hm)].
      * split; [exact Hd|].
        destruct (mem d (map pr W)) eqn:EW; [|reflexivity].
        apply mem_In, in_map_iff in EW. destruct EW as (w & E & Hw).
        assert (mem d (map pr M) = true).
        { apply mem_In, in_map_iff. exists w. split; [exact E | apply Hincl, Hw]. }
        congruence.
      * apply filter_In in Hm. destruct Hm as [Hm Hrej]. subst d.
        split; [specialize (Hrange m Hm); lia|].
        destruct (mem (pr m) (map pr W)) eqn:EW; [|reflexivity].
        apply mem_In, in_map_iff in EW. destruct EW as (w & E & Hw).
        assert (w = m).
        { apply (NoDup_map_inj pr M); auto. }
        subst w. rewrite (Hin m Hw) in Hrej. discriminate.
Qed.

End WhereFacts.

Section FastPath.
Context {A : Type} {N : Numeric A} {O : NumericOrder A}.
Local Open Scope nat_scope.

Lemma fold_matches (iou_matrix : list (list A)) (thr : A) (L : list (nat * nat))
    (acc : list (nat * nat)) (ud ut : list nat) :
  let rej := fun p : nat * nat => ltb (idx2 iou_matrix (fst p) (snd p)) thr in
  fold_left
    (fun (acc : list (nat * nat) * list nat * list nat) (m : nat * nat) =>
       let '(matches, ud, ut) := acc in
       if ltb (idx2 iou_matrix (fst m) (snd m)) thr
       then (matches, ud ++ [fst m], ut ++ [snd m])
       else (matches ++ [m], ud, ut))
    L (acc, ud, ut) =
  (acc ++ filter (fun p => negb (rej p)) L,
   ud ++ map fst (filter rej L), ut ++ map snd (filter rej L)).
Proof.
  cbn zeta. revert acc ud ut.
  induction L as [|p L IH]; intros acc ud ut; cbn [fold_left filter map].
  - rewrite !app_nil_r. reflexivity.
  - destruct (ltb (idx2 iou_matrix (fst p) (snd p)) thr) eqn:E; cbn [negb map].
    + rewrite IH, <- !app_assoc. reflexivity.
    + rewrite IH, <- !app_assoc. reflexivity.
Qed.

(** The fold of [filter_matches], read as filters. *)
Lemma filter_matches_split (n m : nat) (iou_matrix : list (list A)) (thr : A)
    (L : list (nat * nat)) :
  let rej := fun p : nat * nat => ltb (idx2 iou_matrix (fst p) (snd p)) thr in
  filter_matches n m iou_matrix thr L =
  (filter (fun p => negb (rej p)) L,
   filter (fun d => negb (mem d (map fst L))) (seq 0 n) ++ map fst (filter rej L),
   filter (fun t => negb (mem t (map snd L))) (seq 0 m) ++ map snd (filter rej L)).
Proof.
  cbn zeta. unfold filter_matches.
  pose proof (fold_matches iou_matrix thr L []) as F. cbn zeta in F.
  rewrite F. reflexivity.
Qed.

Lemma In_where_threshold (iou_matrix : list (list A)) (thr : A) (d t : nat) :
  In (d, t) (where_ (threshold_matrix iou_matrix thr)) <->
  exists irow x, nth_error iou_matrix d = Some irow /\
                 nth_error irow t = Some x /\ ltb thr x = true.
Proof.
  unfold where_, threshold_matrix. rewrite In_where_from. cbn [fst snd].
  rewrite Nat.sub_0_r, nth_error_map. split.
  - intros (_ & row & v & Hr & Hv & Hn).
    destruct (nth_error iou_matrix d) as [irow|]; [|discriminate].
    cbn in Hr. injection Hr as <-. rewrite nth_error_map in Hv.
    destruct (nth_error irow t) as [x|] eqn:Ex; [|discriminate].
    cbn in Hv. injection Hv as <-. exists irow, x.
    destruct (ltb thr x); [auto | contradiction].
  - intros (irow & x & Hr & Hx & Hlt). split; [lia|].
    exists (map (fun v => if ltb thr v then 1 else 0) irow), 1.
    rewrite Hr, nth_error_map, Hx. cbn [option_map]. rewrite Hlt. auto.
Qed.

Lemma idx2_nth_error (M : list (list A)) (d t : nat) (row : list A) (x : A) :
  nth_error M d = Some row -> nth_error row t = Some x -> idx2 M d t = x.
Proof.
  intros Hr Hx. unfold idx2, idx.
  rewrite (nth_error_nth M d [] Hr). apply nth_error_nth, Hx.
Qed.

Lemma iou_batch_entry (dets trks : list (list A)) (d t : nat) :
  d < length dets -> t < length trks ->
  exists irow, nth_error (iou_batch dets trks) d = Some irow /\
               nth_error irow t = Some (idx2 (iou_batch dets trks) d t).
Proof.
  intros Hd Ht. unfold iou_batch.
  destruct (nth_error dets d) as [det|] eqn:Ed;
    [|apply nth_error_None in Ed; lia].
  destruct (nth_error trks t) as [trk|] eqn:Et;
    [|apply nth_error_None in Et; lia].
  exists (map (fun g => iou det g) trks).
  assert (Hr : nth_error (map (fun t0 => map (fun g => iou t0 g) trks) dets) d
               = Some (map (fun g => iou det g) trks)).
  { rewrite nth_error_map, Ed. reflexivity. }
  assert (Hx : nth_error (map (fun g => iou det g) trks) t = Some (iou det trk)).
  { rewrite nth_error_map, Et. reflexivity. }
  split; [exact Hr|]. rewrite Hx. f_equal. symmetry.
  exact (idx2_nth_error _ d t _ _ Hr Hx).
Qed.

(** A pair is found by the thresholding exactly when it is in range and its
    IoU is above the threshold. *)
Lemma In_where_iou (dets trks : list (list A)) (thr : A) (d t : nat) :
  In (d, t) (where_ (threshold_matrix (iou_batch dets trks) thr)) <->
  d < length dets /\ t < length trks /\
  ltb thr (idx2 (iou_batch dets trks) d t) = true.
Proof.
  rewrite In_where_threshold. split.
  - intros (irow & x & Hr & Hx & Hlt).
    rewrite (idx2_nth_error _ d t _ _ Hr Hx).
    assert (Hd : d < length dets).
    { assert (Hs : nth_error (iou_batch dets trks) d <> None) by congruence.
      apply nth_error_Some in Hs. unfold iou_batch in Hs.
      rewrite length_map in Hs. exact Hs. }
    split; [exact Hd|]. split; [|exact Hlt].
    unfold iou_batch in Hr. rewrite nth_error_map in Hr.
    destruct (nth_error dets d) as [det|]; [|discriminate].
    cbn in Hr. injection Hr as <-.
    assert (Hs : nth_error (map (fun g => iou det g) trks) t <> None) by congruence.
    apply nth_error_Some in Hs. rewrite length_map in Hs. exact Hs.
  - intros (Hd & Ht & Hlt).
    destruct (iou_batch_entry dets trks d t Hd Ht) as (irow & Hr & Hx).
    exists irow, (idx2 (iou_batch dets trks) d t). auto.
Qed.

Lemma one_to_one_rows (a : list (list nat)) :
  one_to_one a = true -> Forall (fun row => list_sum row <= 1) a.
Proof.
  unfold one_to_one. intros Hone. apply andb_true_iff in Hone.
  destruct Hone as [Hr _]. apply Nat.eqb_eq in Hr.
  assert (Hle : list_max (row_sums a) <= 1) by lia.
  apply list_max_le in Hle. unfold row_sums in Hle.
  apply Forall_map in Hle. exact Hle.
Qed.

Lemma one_to_one_nonempty (dets trks : list (list A)) (thr : A) :
  one_to_one (threshold_matrix (iou_batch dets trks) thr) = true ->
  0 < length dets /\ 0 < length trks.
Proof.
  unfold one_to_one. intros Hone. apply andb_true_iff in Hone.
  destruct Hone as [Hr Hc]. apply Nat.eqb_eq in Hr, Hc.
  destruct dets as [|det dets]; [cbn in Hr; discriminate|].
  split; [cbn; lia|].
  destruct trks as [|trk trks]; [cbn in Hc; discriminate|].
  cbn; lia.
Qed.

(** On the fast path the function returns the thresholded pairs and the
    indices outside them. *)
Lemma fast_path_result (dets trks : list (list A)) (thr : A) :
  one_to_one (threshold_matrix (iou_batch dets trks) thr) = true ->
  let W := where_ (threshold_matrix (iou_batch dets trks) thr) in
  associate_detections_to_trackers dets trks thr =
  (W,
   filter (fun d => negb (mem d (map fst W))) (seq 0 (length dets)),
   filter (fun t => negb (mem t (map snd W))) (seq 0 (length trks))).
Proof.
  intros Hone. cbn zeta.
  destruct (one_to_one_nonempty dets trks thr Hone) as [Hn Hm].
  unfold associate_detections_to_trackers.
  destruct (Nat.eqb_spec (length trks) 0) as [E|_]; [lia|].
  destruct (Nat.ltb_spec 0 (Nat.min (length dets) (length trks))) as [_|E]; [|lia].
  rewrite Hone, filter_matches_split.
  set (W := where_ (threshold_matrix (iou_batch dets trks) thr)).
  assert (Hrej : forall p, In p W ->
             ltb (idx2 (iou_batch dets trks) (fst p) (snd p)) thr = false).
  { intros [d t] Hp. apply In_where_iou in Hp. apply ltb_asym. tauto. }
  assert (E1 : filter (fun p => ltb (idx2 (iou_batch dets trks) (fst p) (snd p)) thr) W = []).
  { apply filter_none. exact Hrej. }
  assert (E2 : filter (fun p => negb (ltb (idx2 (iou_batch dets trks) (fst p) (snd p)) thr)) W = W).
  { apply filter_all. intros p Hp. rewrite (Hrej p Hp). reflexivity. }
  rewrite E1, E2. cbn [map]. rewrite !app_nil_r. reflexivity.
Qed.

End FastPath.

(* ================================================================== *)
(** ** Further properties: deletion of NaN trackers, empty frames *)

Section DeletionFacts.
Context {X : Type}.

(** The positions, counted from [k], of the elements that satisfy [f]. *)
Lemma marked_snoc (f : X -> bool) (l : list X) (x : X) (k : nat) :
  map fst (filter (fun tp : nat * X => f (snd tp))
                  (combine (seq k (length (l ++ [x]))) (l ++ [x]))) =
  map fst (filter (fun tp : nat * X => f (snd tp))
                  (combine (seq k (length l)) l))
  ++ (if f x then [(k + length l)%nat] else []).
Proof.
  revert k. induction l as [|a l IH]; intros k.
  - cbn. rewrite Nat.add_0_r. destruct (f x); reflexivity.
  - cbn [app length seq combine filter snd].
    destruct (f a); cbn [map fst app].
    + rewrite IH. f_equal. replace (S k + length l)%nat with (k + S (length l))%nat by lia.
      reflexivity.
    + rewrite IH. replace (S k + length l)%nat with (k + S (length l))%nat by lia.
      reflexivity.
Qed.

(** Popping the marked positions, last first, leaves the unmarked elements
    in their order. *)
Lemma pops_reverse (f : X -> bool) (l pre suf : list X) :
  fold_left (fun l t => pop t l)
    (rev (map fst (filter (fun tp : nat * X => f (snd tp))
                          (combine (seq (length pre) (length l)) l))))
    (pre ++ l ++ suf) =
  pre ++ filter (fun x => negb (f x)) l ++ suf.
Proof.
  revert suf. induction l as [|x l IH] using rev_ind; intros suf.
  - reflexivity.
  - rewrite marked_snoc, rev_app_distr, fold_left_app, filter_app.
    cbn [filter]. rewrite <- !app_assoc. cbn [app].
    destruct (f x); cbn [rev app fold_left negb].
    + replace (pre ++ l ++ x :: suf) with ((pre ++ l) ++ x :: suf)
        by (rewrite <- app_assoc; reflexivity).
      replace (length pre + length l)%nat with (length (pre ++ l))
        by (rewrite length_app; reflexivity).
      rewrite pop_middle, <- app_assoc. apply IH.
    + apply (IH (x :: suf)).
Qed.

Lemma pops_map {Y : Type} (g : X -> Y) (idxs : list nat) (l : list X) :
  fold_left (fun l t => pop t l) idxs (map g l) =
  map g (fold_left (fun l t => pop t l) idxs l).
Proof.
  revert l. induction idxs as [|i idxs IH]; intros l; cbn [fold_left].
  - reflexivity.
  - rewrite <- IH. f_equal. unfold pop.
    rewrite map_app, firstn_map, skipn_map. reflexivity.
Qed.

End DeletionFacts.

Section FrameFacts.
Context {A : Type} `{Numeric A}.

Lemma after_deletion_filter (s : Sort A) :
  after_deletion s = map snd (filter nan_free (predictions s)).
Proof.
  unfold after_deletion, to_del. rewrite pops_map. f_equal.
  pose proof (pops_reverse (fun p : list A * KalmanBoxTracker A => existsb isnan (fst p))
                (predictions s) [] []) as P.
  cbn [length app] in P. rewrite !app_nil_r in P. exact P.
Qed.

(** X1.  The trackers left by the deletion loop are the predicted trackers
    whose box holds no NaN, in their order: popping the positions of
    [to_del] from the last to the first removes exactly the marked ones, and
    each tracker kept is the prediction of an old one. *)
Theorem deletion_keeps_nan_free (s : Sort A) :
  after_deletion s = map snd (filter nan_free (predictions s))
  /\ subseq (after_deletion s) (map (fun t => snd (KalmanBoxTracker_predict t)) (trackers s))
  /\ (length (after_deletion s) <= length (trackers s))%nat.
Proof.
  rewrite after_deletion_filter. split; [reflexivity|].
  assert (S : subseq (map snd (filter nan_free (predictions s)))
                     (map (fun t => snd (KalmanBoxTracker_predict t)) (trackers s))).
  { unfold predictions. rewrite <- (map_map KalmanBoxTracker_predict snd).
    apply subseq_map, subseq_filter. }
  split; [exact S|].
  rewrite length_map. unfold predictions.
  rewrite <- (length_map KalmanBoxTracker_predict (trackers s)).
  apply filter_length_le.
Qed.

(** X2.  When every predicted box is either finite throughout or holds a
    NaN (no box with an infinity and no NaN), the rows of [trks] and the
    trackers kept correspond position by position: row j is the current box
    of tracker j, followed by a 0. *)
Theorem rows_follow_trackers (s : Sort A) :
  (forall p, In p (predictions s) ->
             forallb isfinite (trk_row (fst p)) = nan_free p) ->
  trks s = map (fun trk => trk_row (current_box trk)) (after_deletion s)
  /\ length (trks s) = length (after_deletion s).
Proof.
  intros Hfin.
  assert (E : trks s = map (fun trk => trk_row (current_box trk)) (after_deletion s)).
  { rewrite after_deletion_filter. unfold trks, compress_rows.
    assert (G : forall l : list (list A * KalmanBoxTracker A),
               (forall p, In p l -> forallb isfinite (trk_row (fst p)) = nan_free p) ->
               (forall p, In p l -> fst p = current_box (snd p)) ->
               filter (forallb isfinite) (map (fun p => trk_row (fst p)) l) =
               map (fun trk => trk_row (current_box trk)) (map snd (filter nan_free l))).
    { induction l as [|p l IH]; intros Hf Hb; [reflexivity|].
      cbn [map filter]. rewrite (Hf p (or_introl eq_refl)).
      assert (IH' := IH (fun q Hq => Hf q (or_intror Hq))
                        (fun q Hq => Hb q (or_intror Hq))).
      destruct (nan_free p); cbn [map]; rewrite IH'; [|reflexivity].
      rewrite (Hb p (or_introl eq_refl)). reflexivity. }
    apply G; [exact Hfin|].
    intros p Hp. unfold predictions in Hp. apply in_map_iff in Hp.
    destruct Hp as (t & <- & _). reflexivity. }
  split; [exact E|]. rewrite E, length_map. reflexivity.
Qed.

(** With no detection nothing is matched and no detection is left over. *)
Lemma association_of_nothing (s : Sort A) :
  matched s [] = [] /\ unmatched_dets s [] = [].
Proof.
  unfold matched, unmatched_dets, association, associate_detections_to_trackers.
  destruct (Nat.eqb (length (trks s)) 0); [split; reflexivity|].
  cbn. split; reflexivity.
Qed.

Lemma before_eviction_of_nothing (count : Z) (s : Sort A) :
  before_eviction count s [] = after_deletion s /\
  snd (births count s []) = count.
Proof.
  destruct (association_of_nothing s) as [Em Eu].
  unfold before_eviction, after_correction, births. rewrite Em, Eu.
  cbn. rewrite app_nil_r. split; reflexivity.
Qed.

Lemma empty_frame_step (count : Z) (s : Sort A) :
  let r := Sort_update count s [] in
  snd r = count
  /\ trackers (snd (fst r)) =
     filter (stays (max_age s)) (map snd (filter nan_free (predictions s)))
  /\ (forall trk, In trk (trackers (snd (fst r))) ->
        exists old, In old (trackers s) /\
                    trk = snd (KalmanBoxTracker_predict old) /\
                    time_since_update trk = (time_since_update old + 1)%Z /\
                    hits trk = hits old /\ id trk = id old)
  /\ rows (fst (fst r)) =
     map output_row
       (filter (confirmed (max_age s) (min_hits s))
               (rev (map snd (filter nan_free (predictions s))))).
Proof.
  cbn zeta. destruct (before_eviction_of_nothing count s) as [Eb Ec].
  rewrite rows_of_update, trackers_of_update. unfold emitted.
  rewrite Sort_update_filters. cbn [snd]. rewrite Eb, Ec, after_deletion_filter.
  repeat split.
  intros trk Htrk. apply filter_In in Htrk. destruct Htrk as [Htrk _].
  apply in_map_iff in Htrk. destruct Htrk as (p & <- & Hp).
  apply filter_In in Hp. destruct Hp as [Hp _].
  unfold predictions in Hp. apply in_map_iff in Hp. destruct Hp as (old & <- & Hold).
  exists old. repeat split. exact Hold.
Qed.

(** After an empty frame every tracker is one step older than some tracker
    before it, and none is older than [max_age]. *)
Lemma empty_frame_older (count : Z) (s : Sort A) (k : Z) :
  Forall (fun trk => (k <= time_since_update trk)%Z) (trackers s) ->
  Forall (fun trk => (k + 1 <= time_since_update trk <= max_age s)%Z)
         (trackers (snd (fst (Sort_update count s [])))).
Proof.
  intros Hk. rewrite Forall_forall in *. intros trk Htrk.
  destruct (empty_frame_step count s) as (_ & Et & Hold & _). cbn zeta in Et, Hold.
  destruct (Hold trk Htrk) as (old & Ho & _ & Etsu & _).
  specialize (Hk old Ho). rewrite Et in Htrk. apply filter_In in Htrk.
  destruct Htrk as [_ Hs]. apply stays_iff in Hs. lia.
Qed.

Lemma run_of_empty_frames (n : nat) (count : Z) (s : Sort A) (k : Z) :
  Forall (fun trk => (k <= time_since_update trk)%Z) (trackers s) ->
  let s' := snd (fst (run count s (repeat [] n))) in
  max_age s' = max_age s /\
  Forall (fun trk => (k + Z.of_nat n <= time_since_update trk)%Z) (trackers s') /\
  (0 < n -> Forall (fun trk => (time_since_update trk <= max_age s)%Z) (trackers s'))%nat.
Proof.
  revert count s k. induction n as [|n IH]; intros count s k Hk; cbn zeta.
  - cbn. repeat split; [|lia].
    eapply Forall_impl; [|exact Hk]. cbn. intros; lia.
  - cbn [repeat run].
    pose proof (empty_frame_older count s k Hk) as Hstep.
    destruct (config_of_update count s []) as [Ema _].
    destruct (Sort_update count s []) as [[out s1] c1]. cbn [fst snd] in *.
    assert (H1 : Forall (fun trk => (k + 1 <= time_since_update trk)%Z) (trackers s1)).
    { eapply Forall_impl; [|exact Hstep]. cbn. intros; lia. }
    specialize (IH c1 s1 (k + 1)%Z H1). cbn zeta in IH.
    destruct (run c1 s1 (repeat [] n)) as [[[outs ids] s2] c2] eqn:ER.
    cbn [fst snd] in *.
    destruct IH as (I1 & I2 & I3). repeat split.
    + congruence.
    + eapply Forall_impl; [|exact I2]. cbn. intros; lia.
    + intros _. destruct n as [|n].
      * cbn in ER. injection ER as _ _ <- _.
        eapply Forall_impl; [|exact Hstep]. cbn. intros; lia.
      * rewrite <- Ema. apply I3. lia.
Qed.

(** X3.  A step without detections creates no tracker, leaves the counter
    alone, corrects nothing and emits a row for each coasting tracker that is
    still confirmed: the trackers kept are the predictions of the old ones,
    less those with a NaN box and those now older than [max_age]. *)
Theorem empty_frame_ages (count : Z) (s : Sort A) :
  let r := Sort_update count s [] in
  snd r = count
  /\ trackers (snd (fst r)) =
     filter (stays (max_age s)) (map snd (filter nan_free (predictions s)))
  /\ (forall trk, In trk (trackers (snd (fst r))) ->
        exists old, In old (trackers s) /\
                    trk = snd (KalmanBoxTracker_predict old) /\
                    time_since_update trk = (time_since_update old + 1)%Z /\
                    hits trk = hits old /\ id trk = id old)
  /\ rows (fst (fst r)) =
     map output_row
       (filter (confirmed (max_age s) (min_hits s))
               (rev (map snd (filter nan_free (predictions s))))).
Proof. exact (empty_frame_step count s). Qed.

(** X4.  Trackers that get no detection for [max_age + 1] frames in a row
    are all gone: a run of that many empty frames leaves no tracker. *)
Theorem starved_trackers_vanish (count : Z) (s : Sort A) :
  (0 <= max_age s)%Z ->
  Forall (fun trk => (0 <= time_since_update trk)%Z) (trackers s) ->
  trackers (snd (fst (run count s (repeat [] (Z.to_nat (max_age s) + 1))))) = [].
Proof.
  intros Hma Hpos.
  destruct (run_of_empty_frames (Z.to_nat (max_age s) + 1) count s 0 Hpos)
    as (_ & Hlow & Hhigh). cbn zeta in Hlow, Hhigh.
  specialize (Hhigh ltac:(lia)).
  destruct (trackers (snd (fst (run count s (repeat [] (Z.to_nat (max_age s) + 1))))))
    as [|trk l]; [reflexivity|].
  inversion Hlow; subst. inversion Hhigh; subst. lia.
Qed.

End FrameFacts.

(* ================================================================== *)
(** ** Further properties: what the association returns *)

Section AssignmentFacts.
Local Open Scope nat_scope.

Lemma NoDup_remove_nat (c : nat) (l : list nat) :
  NoDup l -> NoDup (remove Nat.eq_dec c l).
Proof.
  induction 1 as [|x l Hx Hl IH]; cbn [remove]; [constructor|].
  destruct (Nat.eq_dec c x); [exact IH|]. constructor; [|exact IH].
  intros Hin. apply in_remove in Hin. tauto.
Qed.

Lemma injections_spec (rows cols : list nat) (asg : list (nat * nat)) :
  NoDup cols -> In asg (injections rows cols) ->
  map fst asg = rows /\ NoDup (map snd asg) /\ incl (map snd asg) cols.
Proof.
  revert cols asg. induction rows as [|r rs IH]; intros cols asg Hnd Hin.
  - cbn in Hin. destruct Hin as [<-|[]]. cbn. repeat split.
    + constructor.
    + intros x [].
  - cbn [injections] in Hin. apply in_flat_map in Hin.
    destruct Hin as (c & Hc & Hin). apply in_map_iff in Hin.
    destruct Hin as (asg' & <- & Hasg').
    destruct (IH (remove Nat.eq_dec c cols) asg' (NoDup_remove_nat c cols Hnd) Hasg')
      as (Ef & Hs & Hincl).
    cbn [map fst snd]. repeat split.
    + f_equal. exact Ef.
    + constructor; [|exact Hs]. intros Hcin. apply Hincl in Hcin.
      apply in_remove in Hcin. tauto.
    + intros x [<-|Hx]; [exact Hc|]. apply Hincl in Hx.
      apply in_remove in Hx. tauto.
Qed.

Lemma insert_by_row_perm (p : nat * nat) (l : list (nat * nat)) :
  Permutation (insert_by_row p l) (p :: l).
Proof.
  induction l as [|h t IH]; cbn [insert_by_row]; [reflexivity|].
  destruct (Nat.leb (fst p) (fst h)); [reflexivity|].
  rewrite IH. apply perm_swap.
Qed.

Lemma sort_by_row_perm (l : list (nat * nat)) : Permutation (sort_by_row l) l.
Proof.
  unfold sort_by_row. induction l as [|p l IH]; cbn [fold_right]; [reflexivity|].
  rewrite insert_by_row_perm. constructor. exact IH.
Qed.

Lemma valid_assignment_perm (n m : nat) (M M' : list (nat * nat)) :
  Permutation M M' -> valid_assignment n m M -> valid_assignment n m M'.
Proof.
  intros HP (Hf & Hs & Hr). repeat split.
  - eapply Permutation_NoDup; [apply Permutation_map, HP | exact Hf].
  - eapply Permutation_NoDup; [apply Permutation_map, HP | exact Hs].
  - apply Hr. eapply Permutation_in; [symmetry; exact HP | assumption].
  - apply Hr. eapply Permutation_in; [symmetry; exact HP | assumption].
Qed.

Lemma valid_assignment_nil (n m : nat) : valid_assignment n m [].
Proof.
  split; [constructor|]. split; [constructor|]. intros p [].
Qed.

Lemma list_sum_two (l : list nat) (i j x y : nat) :
  nth_error l i = Some x -> nth_error l j = Some y -> i <> j ->
  x + y <= list_sum l.
Proof.
  revert i j. induction l as [|a l IH]; intros i j Hi Hj Hij.
  - destruct i; discriminate.
  - change (list_sum (a :: l)) with (a + list_sum l).
    assert (Hone : forall k z, nth_error l k = Some z -> z <= list_sum l).
    { clear. induction l as [|b l IH]; intros [|k] z Hz; try discriminate;
        change (list_sum (b :: l)) with (b + list_sum l).
      - cbn in Hz. injection Hz as ->. lia.
      - cbn in Hz. specialize (IH k z Hz). lia. }
    destruct i as [|i], j as [|j]; cbn in Hi, Hj.
    + congruence.
    + injection Hi as ->. specialize (Hone j y Hj). lia.
    + injection Hj as ->. specialize (Hone i x Hi). lia.
    + assert (i <> j) by congruence. specialize (IH i j Hi Hj). lia.
Qed.

Lemma NoDup_map_on {X Y : Type} (g : X -> Y) (l : list X) :
  NoDup l -> (forall x y, In x l -> In y l -> g x = g y -> x = y) ->
  NoDup (map g l).
Proof.
  induction 1 as [|a l Ha Hl IH]; intros Hinj; cbn [map]; constructor.
  - intros Hin. apply in_map_iff in Hin. destruct Hin as (b & E & Hb).
    assert (b = a) by (apply Hinj; [right; exact Hb | left; reflexivity | exact E]).
    subst b. contradiction.
  - apply IH. intros x y Hx Hy. apply Hinj; right; assumption.
Qed.

Lemma filter_split_perm {X : Type} (f : X -> bool) (l : list X) :
  Permutation (filter (fun x => negb (f x)) l ++ filter f l) l.
Proof.
  induction l as [|x l IH]; [reflexivity|]. cbn [filter].
  destruct (f x); cbn [negb app].
  - symmetry. apply Permutation_cons_app. symmetry. exact IH.
  - constructor. exact IH.
Qed.

(** The chosen indices and the indices left out are together all the
    indices, each once. *)
Lemma chosen_and_left_out (pr : nat * nat -> nat) (N : nat) (M : list (nat * nat)) :
  NoDup (map pr M) -> (forall p, In p M -> pr p < N) ->
  Permutation (map pr M ++ filter (fun d => negb (mem d (map pr M))) (seq 0 N))
              (seq 0 N).
Proof.
  intros Hnd Hr. apply NoDup_Permutation.
  - apply NoDup_app; [exact Hnd | apply NoDup_filter, seq_NoDup|].
    intros d Hd Hd'. apply filter_In in Hd'. destruct Hd' as [_ Hd'].
    apply negb_true_iff in Hd'. apply mem_In in Hd. congruence.
  - apply seq_NoDup.
  - intros d. rewrite in_app_iff, filter_In, negb_true_iff, in_seq. split.
    + intros [Hd|[Hd _]]; [|lia]. apply in_map_iff in Hd.
      destruct Hd as (p & <- & Hp). specialize (Hr p Hp). lia.
    + intros Hd. destruct (mem d (map pr M)) eqn:E.
      * left. apply mem_In, E.
      * right. split; [lia | reflexivity].
Qed.

End AssignmentFacts.

Section SolverFacts.
Context {A : Type} `{Numeric A}.
Local Open Scope nat_scope.

Lemma cheapest_In (cost : list (list A)) (cands : list (list (nat * nat))) :
  cands <> [] -> In (cheapest cost cands) cands.
Proof.
  destruct cands as [|c0 rest]; [congruence|]. intros _. cbn [cheapest].
  revert c0. induction rest as [|c rest IH]; intros c0; cbn [fold_left].
  - left. reflexivity.
  - destruct (ltb (total_cost cost c) (total_cost cost c0)).
    + destruct (IH c) as [E|Hin]; [right; left; exact E | right; right; exact Hin].
    + destruct (IH c0) as [E|Hin]; [left; exact E | right; right; exact Hin].
Qed.

(** The modelled solver returns an assignment: no row and no column twice,
    indices within the matrix. *)
Lemma linear_assignment_valid (cost : list (list A)) :
  valid_assignment (length cost) (length (hd [] cost)) (linear_assignment cost).
Proof.
  unfold linear_assignment, linear_sum_assignment.
  set (n := length cost). set (m := length (hd [] cost)).
  destruct (Nat.leb n m).
  - destruct (injections (seq 0 n) (seq 0 m)) as [|c0 rest] eqn:E.
    + apply valid_assignment_nil.
    + assert (Hin : In (cheapest cost (c0 :: rest)) (injections (seq 0 n) (seq 0 m))).
      { rewrite E. apply cheapest_In. discriminate. }
      destruct (injections_spec _ _ _ (seq_NoDup m 0) Hin) as (Ef & Hs & Hincl).
      repeat split.
      * rewrite Ef. apply seq_NoDup.
      * exact Hs.
      * assert (In (fst p) (seq 0 n)) by (rewrite <- Ef; apply in_map; assumption).
        apply in_seq in H1. lia.
      * assert (In (snd p) (seq 0 m)) by (apply Hincl, in_map; assumption).
        apply in_seq in H1. lia.
  - apply (valid_assignment_perm n m _ _ (Permutation_sym (sort_by_row_perm _))).
    set (flip := fun rc : nat * nat => (snd rc, fst rc)).
    destruct (map (map flip) (injections (seq 0 m) (seq 0 n))) as [|c0 rest] eqn:E.
    + apply valid_assignment_nil.
    + assert (Hin : In (cheapest cost (c0 :: rest))
                       (map (map flip) (injections (seq 0 m) (seq 0 n)))).
      { rewrite E. apply cheapest_In. discriminate. }
      apply in_map_iff in Hin. destruct Hin as (asg & <- & Hasg).
      destruct (injections_spec _ _ _ (seq_NoDup n 0) Hasg) as (Ef & Hs & Hincl).
      assert (E1 : map fst (map flip asg) = map snd asg).
      { rewrite map_map. apply map_ext. intros [r c]. reflexivity. }
      assert (E2 : map snd (map flip asg) = map fst asg).
      { rewrite map_map. apply map_ext. intros [r c]. reflexivity. }
      repeat split.
      * rewrite E1. exact Hs.
      * rewrite E2, Ef. apply seq_NoDup.
      * assert (In (fst p) (seq 0 n)).
        { apply Hincl. rewrite <- E1. apply in_map. assumption. }
        apply in_seq in H1. lia.
      * assert (In (snd p) (seq 0 m)).
        { rewrite <- Ef, <- E2. apply in_map. assumption. }
        apply in_seq in H1. lia.
Qed.

End SolverFacts.

Section PartitionFacts.
Context {A : Type} `{Numeric A}.
Local Open Scope nat_scope.

Lemma filter_matches_partition (n m : nat) (iou_matrix : list (list A)) (thr : A)
    (M : list (nat * nat)) :
  valid_assignment n m M ->
  let r := filter_matches n m iou_matrix thr M in
  Permutation (map fst (fst (fst r)) ++ snd (fst r)) (seq 0 n) /\
  Permutation (map snd (fst (fst r)) ++ snd r) (seq 0 m) /\
  valid_assignment n m (fst (fst r)) /\
  (forall p, In p (fst (fst r)) ->
             ltb (idx2 iou_matrix (fst p) (snd p)) thr = false).
Proof.
  intros (Hf & Hs & Hr). cbn zeta. rewrite filter_matches_split. cbn [fst snd].
  set (rej := fun p : nat * nat => ltb (idx2 iou_matrix (fst p) (snd p)) thr).
  assert (Part : forall (pr : nat * nat -> nat) (N : nat),
             NoDup (map pr M) -> (forall p, In p M -> pr p < N) ->
             Permutation
               (map pr (filter (fun p => negb (rej p)) M)
                ++ filter (fun d => negb (mem d (map pr M))) (seq 0 N)
                ++ map pr (filter rej M))
               (seq 0 N)).
  { intros pr N Hnd Hrng.
    rewrite (Permutation_app_comm (filter _ (seq 0 N))), app_assoc.
    rewrite <- map_app, (filter_split_perm rej M).
    apply chosen_and_left_out; assumption. }
  split; [|split; [|split]].
  - apply Part; [exact Hf|]. intros p Hp. apply Hr, Hp.
  - apply Part; [exact Hs|]. intros p Hp. apply Hr, Hp.
  - repeat split.
    + apply NoDup_map_filter, Hf.
    + apply NoDup_map_filter, Hs.
    + apply filter_In in H0. apply Hr. tauto.
    + apply filter_In in H0. apply Hr. tauto.
  - intros p Hp. apply filter_In in Hp. destruct Hp as [_ Hp].
    apply negb_true_iff in Hp. exact Hp.
Qed.

Lemma length_hd_threshold (dets trks : list (list A)) (thr : A) :
  0 < length dets ->
  length (hd [] (threshold_matrix (iou_batch dets trks) thr)) = length trks /\
  length (hd [] (negate (iou_batch dets trks))) = length trks /\
  length (negate (iou_batch dets trks)) = length dets.
Proof.
  intros Hn. destruct dets as [|det dets]; [cbn in Hn; lia|].
  unfold threshold_matrix, negate, iou_batch. cbn [map hd].
  rewrite !length_map. repeat split. cbn [length]. rewrite !length_map. reflexivity.
Qed.

(** On the fast path the thresholded pairs are an assignment. *)
Lemma where_valid (dets trks : list (list A)) (thr : A) :
  one_to_one (threshold_matrix (iou_batch dets trks) thr) = true ->
  valid_assignment (length dets) (length trks)
    (where_ (threshold_matrix (iou_batch dets trks) thr)).
Proof.
  intros Hone.
  set (a := threshold_matrix (iou_batch dets trks) thr) in *.
  assert (Hfst : NoDup (map fst (where_ a))).
  { apply by_row_sorted_NoDup, where_from_sorted, one_to_one_rows, Hone. }
  assert (Hrng : forall p, In p (where_ a) ->
                           fst p < length dets /\ snd p < length trks).
  { intros [d t] Hp. apply In_where_iou in Hp. cbn [fst snd]. tauto. }
  split; [exact Hfst|]. split; [|exact Hrng].
  apply NoDup_map_on; [apply (NoDup_map_inv fst), Hfst|].
  intros [r1 c1] [r2 c2] H1 H2 Ec. cbn [snd] in Ec. subst c2. f_equal.
  destruct (Nat.eq_dec r1 r2) as [E|Hne]; [exact E|]. exfalso.
  destruct (Hrng _ H1) as [Hd Hc]. cbn [fst snd] in Hd, Hc.
  unfold where_ in H1, H2. apply In_where_from in H1, H2.
  cbn [fst snd] in H1, H2. rewrite Nat.sub_0_r in H1, H2.
  destruct H1 as (_ & row1 & v1 & Hr1 & Hv1 & Hn1).
  destruct H2 as (_ & row2 & v2 & Hr2 & Hv2 & Hn2).
  unfold one_to_one in Hone. apply andb_true_iff in Hone.
  destruct Hone as [_ Hcol]. apply Nat.eqb_eq in Hcol.
  assert (Hle : list_max (col_sums a) <= 1) by lia.
  apply list_max_le in Hle. rewrite Forall_forall in Hle.
  assert (Hsum : list_sum (map (fun row => nth c1 row 0) a) <= 1).
  { apply Hle. unfold col_sums. apply in_map_iff. exists c1. split; [reflexivity|].
    apply in_seq.
    destruct (length_hd_threshold dets trks thr) as (El & _); [lia|].
    fold a in El. rewrite El. lia. }
  assert (G1 : nth_error (map (fun row => nth c1 row 0) a) r1 = Some v1).
  { rewrite nth_error_map, Hr1. cbn. f_equal. apply nth_error_nth, Hv1. }
  assert (G2 : nth_error (map (fun row => nth c1 row 0) a) r2 = Some v2).
  { rewrite nth_error_map, Hr2. cbn. f_equal. apply nth_error_nth, Hv2. }
  pose proof (list_sum_two _ r1 r2 v1 v2 G1 G2 Hne). lia.
Qed.

(** What [associate_detections_to_trackers] hands to [filter_matches] is an
    assignment, whichever branch produced it. *)
Lemma association_parts (dets trks : list (list A)) (thr : A) :
  length trks <> 0 ->
  exists M,
    valid_assignment (length dets) (length trks) M /\
    associate_detections_to_trackers dets trks thr =
    filter_matches (length dets) (length trks) (iou_batch dets trks) thr M.
Proof.
  intros Hm. unfold associate_detections_to_trackers.
  destruct (Nat.eqb_spec (length trks) 0) as [E|_]; [contradiction|].
  destruct (Nat.ltb_spec 0 (Nat.min (length dets) (length trks))) as [Hmin|_].
  - destruct (one_to_one (threshold_matrix (iou_batch dets trks) thr)) eqn:Hone.
    + eexists. split; [|reflexivity]. apply where_valid, Hone.
    + eexists. split; [|reflexivity].
      destruct (length_hd_threshold dets trks thr) as (_ & E1 & E2); [lia|].
      rewrite <- E1, <- E2 at 1. apply linear_assignment_valid.
  - exists []. split; [apply valid_assignment_nil | reflexivity].
Qed.

End PartitionFacts.

(* ================================================================== *)
(** ** Further properties: the step as a whole *)

#[export] Instance NumericFinite_float : NumericFinite float.
Proof.
  constructor. intros a E. cbn [isnan isfinite Numeric_float] in *.
  unfold PrimFloat.is_finite. rewrite E. reflexivity.
Qed.

#[export] Instance NumericFinite_R : NumericFinite R.
Proof. constructor. intros a E. cbn in E. discriminate. Qed.

Section SortFacts.
Context {A : Type} `{Numeric A}.

Lemma association_valid (dets trks : list (list A)) (thr : A) :
  let r := associate_detections_to_trackers dets trks thr in
  Permutation (map fst (fst (fst r)) ++ snd (fst r)) (seq 0 (length dets)) /\
  Permutation (map snd (fst (fst r)) ++ snd r) (seq 0 (length trks)) /\
  valid_assignment (length dets) (length trks) (fst (fst r)) /\
  (forall p, In p (fst (fst r)) ->
             ltb (idx2 (iou_batch dets trks) (fst p) (snd p)) thr = false).
Proof.
  cbn zeta. destruct (Nat.eq_dec (length trks) 0) as [E|Hm].
  - unfold associate_detections_to_trackers. rewrite E. cbn [Nat.eqb fst snd map app].
    split; [reflexivity|].
    split; [reflexivity|].
    split; [apply valid_assignment_nil | intros p []].
  - destruct (association_parts dets trks thr Hm) as (M & HM & ->).
    apply filter_matches_partition, HM.
Qed.

Lemma matched_valid (s : Sort A) (dets : list (list A)) :
  valid_assignment (length dets) (length (trks s)) (matched s dets).
Proof.
  unfold matched, association.
  destruct (association_valid dets (trks s) (iou_threshold s)) as (_ & _ & V & _).
  exact V.
Qed.

Lemma births_count (count : Z) (s : Sort A) (dets : list (list A)) :
  length (fst (births count s dets)) = length (unmatched_dets s dets) /\
  (length (matched s dets) + length (unmatched_dets s dets) = length dets)%nat.
Proof.
  destruct (births_ids count s dets) as [Eb _]. split.
  - rewrite <- (length_map id), Eb. unfold consecutive.
    rewrite length_map, length_seq. reflexivity.
  - unfold matched, unmatched_dets, association.
    destruct (association_valid dets (trks s) (iou_threshold s)) as (P & _).
    apply Permutation_length in P.
    rewrite length_app, length_map, length_seq in P. exact P.
Qed.

(** X5.  Whatever the detections, the predicted boxes and the threshold,
    the association splits the detections between the matches and the
    unmatched detections, each index in exactly one place, and the predicted
    boxes likewise. *)
Theorem association_partitions (dets trks : list (list A)) (thr : A) :
  let r := associate_detections_to_trackers dets trks thr in
  Permutation (map fst (fst (fst r)) ++ snd (fst r)) (seq 0 (length dets)) /\
  Permutation (map snd (fst (fst r)) ++ snd r) (seq 0 (length trks)).
Proof.
  cbn zeta. destruct (association_valid dets trks thr) as (P1 & P2 & _).
  split; assumption.
Qed.

(** X6.  The matches returned never pair a detection or a predicted box
    twice, stay within the two lists, and never hold a pair whose IoU is
    below the threshold. *)
Theorem matches_are_sound (dets trks : list (list A)) (thr : A) :
  let matches := fst (fst (associate_detections_to_trackers dets trks thr)) in
  NoDup (map fst matches) /\ NoDup (map snd matches) /\
  (forall p, In p matches ->
     (fst p < length dets)%nat /\ (snd p < length trks)%nat /\
     ltb (idx2 (iou_batch dets trks) (fst p) (snd p)) thr = false).
Proof.
  cbn zeta. destruct (association_valid dets trks thr) as (_ & _ & (Hf & Hs & Hr) & Hthr).
  split; [exact Hf|]. split; [exact Hs|].
  intros p Hp. destruct (Hr p Hp). auto.
Qed.

(** X7.  Every detection of a step either corrects a tracker or starts a
    new one, so the trackers kept are at most the old ones plus one per
    detection. *)
Theorem trackers_bounded (count : Z) (s : Sort A) (dets : list (list A)) :
  (length (matched s dets) + length (fst (births count s dets)) = length dets)%nat
  /\ (length (trackers (snd (fst (Sort_update count s dets))))
      <= length (trackers s) + length dets)%nat.
Proof.
  destruct (births_count count s dets) as [Eb Ep]. split; [lia|].
  rewrite trackers_of_update.
  eapply Nat.le_trans; [apply filter_length_le|].
  unfold before_eviction. rewrite length_app, length_after_correction, Eb.
  rewrite after_deletion_filter, length_map.
  pose proof (filter_length_le nan_free (predictions s)) as L.
  unfold predictions in L at 2. rewrite length_map in L. lia.
Qed.

Lemma filter_map_length_le {X Y : Type} (f : Y -> bool) (g : X -> Y) (h : X -> bool)
    (l : list X) :
  (forall x, In x l -> f (g x) = true -> h x = true) ->
  (length (filter f (map g l)) <= length (filter h l))%nat.
Proof.
  induction l as [|x l IH]; intros Hfh; [apply Nat.le_refl|].
  cbn [map filter].
  assert (IH' := IH (fun y Hy => Hfh y (or_intror Hy))).
  destruct (f (g x)) eqn:E.
  - rewrite (Hfh x (or_introl eq_refl) E). cbn [length]. lia.
  - destruct (h x); cbn [length]; lia.
Qed.

Lemma rows_within_trackers `{!NumericFinite A} (s : Sort A) :
  (length (trks s) <= length (after_deletion s))%nat.
Proof.
  rewrite after_deletion_filter, length_map. unfold trks, compress_rows.
  apply filter_map_length_le. intros p Hp Hfin.
  unfold predictions in Hp. apply in_map_iff in Hp. destruct Hp as (t & <- & _).
  unfold nan_free. apply negb_true_iff.
  cbn [KalmanBoxTracker_predict fst] in *. unfold convert_x_to_bbox in *.
  cbn [trk_row idx nth forallb existsb] in *.
  repeat (apply andb_true_iff in Hfin; destruct Hfin as [?F Hfin]).
  repeat match goal with
         | |- (isnan ?a || _)%bool = false =>
             apply orb_false_iff; split;
             [destruct (isnan a) eqn:?E; [|reflexivity];
              apply nan_not_finite in E; congruence|]
         end.
  reflexivity.
Qed.

(** X8.  When a NaN is never finite, every pair the step corrects names a
    row of the detections and a position of [self.trackers]: the indexing
    [self.trackers[m[1]]] and [dets[m[0], :]] stays in range, and no tracker
    is corrected twice in a step. *)
Theorem correction_in_range `{!NumericFinite A} (s : Sort A) (dets : list (list A)) :
  NoDup (map snd (matched s dets)) /\
  forall m, In m (matched s dets) ->
    (fst m < length dets)%nat /\ (snd m < length (after_deletion s))%nat.
Proof.
  destruct (matched_valid s dets) as (_ & Hs & Hr). split; [exact Hs|].
  intros m Hm. destruct (Hr m Hm) as [Hd Ht].
  pose proof (rows_within_trackers s). split; [exact Hd | lia].
Qed.

End SortFacts.

(* ================================================================== *)
(** ** Further properties: the counters of a tracker *)

Section CounterFacts.
Context {A : Type} `{Numeric A}.

Lemma nth_error_update_nth_same {X : Type} (i : nat) (f : X -> X) (l : list X) :
  nth_error (update_nth i f l) i = option_map f (nth_error l i).
Proof.
  revert i. induction l as [|x l IH]; intros [|i]; cbn; auto.
Qed.

Lemma predict_counters (t : KalmanBoxTracker A) :
  counters_ok t -> counters_predicted (snd (KalmanBoxTracker_predict t)).
Proof.
  unfold counters_ok, counters_predicted. cbn [KalmanBoxTracker_predict snd
    time_since_update age hit_streak hits].
  intros (Ht & Hs & Ha). destruct (0 <? time_since_update t)%Z; lia.
Qed.

Lemma update_counters (t : KalmanBoxTracker A) (bbox : list A) :
  counters_predicted t -> counters_ok (KalmanBoxTracker_update t bbox).
Proof.
  unfold counters_ok, counters_predicted. cbn [KalmanBoxTracker_update
    time_since_update age hit_streak hits]. lia.
Qed.

Lemma predicted_is_ok (t : KalmanBoxTracker A) :
  counters_predicted t -> counters_ok t.
Proof. unfold counters_ok, counters_predicted. lia. Qed.

(** Corrections at pairwise distinct positions: each tracker is corrected
    at most once. *)
Lemma correction_counters (dets : list (list A)) (M : list (nat * nat))
    (l : list (KalmanBoxTracker A)) :
  NoDup (map snd M) ->
  Forall counters_predicted l ->
  Forall counters_ok
    (fold_left
       (fun l (m : nat * nat) =>
          update_nth (snd m)
            (fun t => KalmanBoxTracker_update t (nth (fst m) dets [])) l)
       M l).
Proof.
  intros Hnd Hl.
  assert (G : forall M l,
             NoDup (map snd M) ->
             (forall j t, nth_error l j = Some t ->
                          (In j (map snd M) -> counters_predicted t) /\
                          (~ In j (map snd M) -> counters_ok t)) ->
             Forall counters_ok
               (fold_left
                  (fun l (m : nat * nat) =>
                     update_nth (snd m)
                       (fun t => KalmanBoxTracker_update t (nth (fst m) dets [])) l)
                  M l)).
  { clear. induction M as [|m M IH]; intros l Hnd Hinv; cbn [fold_left].
    - apply Forall_forall. intros t Ht. apply In_nth_error in Ht.
      destruct Ht as [j Hj]. apply (Hinv j t Hj). intros [].
    - cbn [map] in Hnd. inversion Hnd as [|? ? Hm HM]; subst.
      apply IH; [exact HM|]. intros j t' Hj.
      destruct (Nat.eq_dec (snd m) j) as [<-|Hne].
      + rewrite nth_error_update_nth_same in Hj.
        destruct (nth_error l (snd m)) as [t|] eqn:Et; [|discriminate].
        cbn in Hj. injection Hj as <-. split; [intros Hc; contradiction|].
        intros _. apply update_counters. apply (Hinv (snd m) t Et). left. reflexivity.
      + rewrite nth_error_update_nth_other in Hj by exact Hne.
        destruct (Hinv j t' Hj) as [HP HQ]. split.
        * intros Hin. apply HP. right. exact Hin.
        * intros Hnin. apply HQ. intros [E|Hin]; [congruence | contradiction]. }
  apply G; [exact Hnd|]. intros j t Hj.
  apply nth_error_In in Hj. rewrite Forall_forall in Hl. specialize (Hl t Hj).
  split; intros _; [exact Hl | apply predicted_is_ok, Hl].
Qed.

Lemma births_counters (dets : list (list A)) (l : list nat)
    (acc : list (KalmanBoxTracker A)) (c : Z) :
  Forall counters_ok acc ->
  Forall counters_ok
    (fst (fold_left
            (fun (acc : list (KalmanBoxTracker A) * Z) i =>
               let (trk, c) := KalmanBoxTracker_init (snd acc) (nth i dets [] ++ [zero]) in
               (fst acc ++ [trk], c))
            l (acc, c))).
Proof.
  revert acc c. induction l as [|i l IH]; intros acc c Hacc; cbn [fold_left].
  - exact Hacc.
  - cbn [KalmanBoxTracker_init fst snd]. apply IH.
    apply Forall_app. split; [exact Hacc|]. constructor; [|constructor].
    unfold counters_ok. cbn. lia.
Qed.

Lemma step_counters (count : Z) (s : Sort A) (dets : list (list A)) :
  Forall counters_ok (trackers s) ->
  Forall counters_ok (before_eviction count s dets).
Proof.
  intros Hs. unfold before_eviction. apply Forall_app. split.
  - unfold after_correction. apply correction_counters.
    + destruct (matched_valid s dets) as (_ & Hnd & _). exact Hnd.
    + rewrite after_deletion_filter. apply Forall_forall. intros t Ht.
      apply in_map_iff in Ht. destruct Ht as (p & <- & Hp).
      apply filter_In in Hp. destruct Hp as [Hp _].
      unfold predictions in Hp. apply in_map_iff in Hp.
      destruct Hp as (old & <- & Hold). apply predict_counters.
      rewrite Forall_forall in Hs. apply Hs, Hold.
  - unfold births. apply births_counters. constructor.
Qed.

Lemma update_counters_kept (count : Z) (s : Sort A) (dets : list (list A)) :
  Forall counters_ok (trackers s) ->
  Forall counters_ok (trackers (snd (fst (Sort_update count s dets)))).
Proof.
  intros Hs. rewrite trackers_of_update.
  pose proof (step_counters count s dets Hs) as Hb.
  rewrite Forall_forall in *. intros t Ht. apply filter_In in Ht. apply Hb, Ht.
Qed.

(** A property of the tracker object that every step keeps holds after any
    run. *)
Lemma run_keeps (P : Sort A -> Prop) :
  (forall count s dets, P s -> P (snd (fst (Sort_update count s dets)))) ->
  forall frames count s, P s -> P (snd (fst (run count s frames))).
Proof.
  intros Hstep. induction frames as [|dets rest IH]; intros count s Hs.
  - exact Hs.
  - cbn [run]. specialize (Hstep count s dets Hs).
    destruct (Sort_update count s dets) as [[out s1] c1]. cbn [fst snd] in Hstep.
    specialize (IH c1 s1 Hstep).
    destruct (run c1 s1 rest) as [[[outs ids] s2] c2]. exact IH.
Qed.

Lemma reachable_counters (count ma mh : Z) (thr : A) (frames : list (list (list A))) :
  Forall counters_ok (trackers (snd (fst (run count (Sort_init ma mh thr) frames)))).
Proof.
  apply (run_keeps (fun s => Forall counters_ok (trackers s))).
  - intros c s dets. apply update_counters_kept.
  - constructor.
Qed.

Lemma reachable_config (count ma mh : Z) (thr : A) (frames : list (list (list A))) :
  let s := snd (fst (run count (Sort_init ma mh thr) frames)) in
  max_age s = ma /\ min_hits s = mh /\
  Forall (fun trk => (time_since_update trk <= ma)%Z) (trackers s).
Proof.
  cbn zeta.
  apply (run_keeps (fun s => max_age s = ma /\ min_hits s = mh /\
                   Forall (fun trk => (time_since_update trk <= ma)%Z) (trackers s))).
  - intros c s dets (E1 & E2 & _).
    destruct (config_of_update c s dets) as [C1 C2].
    split; [congruence|]. split; [congruence|].
    rewrite trackers_of_update. apply Forall_forall. intros t Ht.
    apply filter_In in Ht. destruct Ht as [_ Ht]. apply stays_iff in Ht. lia.
  - cbn. repeat split. constructor.
Qed.

(** X9.  In every state a tracker object reaches from its creation, each
    live tracker has [0 <= time_since_update <= age],
    [0 <= hit_streak <= hits <= age] and [time_since_update <= max_age]. *)
Theorem counters_invariant (count ma mh : Z) (thr : A)
    (frames : list (list (list A))) :
  let s := snd (fst (run count (Sort_init ma mh thr) frames)) in
  Forall counters_ok (trackers s)
  /\ Forall (fun trk => (time_since_update trk <= ma)%Z) (trackers s).
Proof.
  cbn zeta. split; [apply reachable_counters|].
  destruct (reachable_config count ma mh thr frames) as (_ & _ & F). exact F.
Qed.

(** X10.  No tracker is emitted before it has lived [min_hits] steps after
    the step that created it: in any step from a reachable state, a
    confirmed tracker has [age >= hits >= min_hits], each step adding 1 to
    [age]. *)
Theorem emission_needs_age (count ma mh : Z) (thr : A)
    (frames : list (list (list A))) (c : Z) (dets : list (list A)) :
  let s := snd (fst (run count (Sort_init ma mh thr) frames)) in
  forall trk, In trk (before_eviction c s dets) ->
              confirmed (max_age s) (min_hits s) trk = true ->
              (mh <= hits trk <= age trk)%Z.
Proof.
  cbn zeta. intros trk Hin Hc.
  destruct (reachable_config count ma mh thr frames) as (_ & Emh & _).
  cbn zeta in Emh. rewrite Emh in Hc. apply confirmed_iff in Hc.
  pose proof (step_counters c _ dets (reachable_counters count ma mh thr frames)) as Hb.
  rewrite Forall_forall in Hb. specialize (Hb trk Hin).
  unfold counters_ok in Hb. lia.
Qed.

End CounterFacts.

(* ================================================================== *)
(** ** Further properties: the first frame *)

Section FirstFrame.
Context {A : Type} `{Numeric A}.

Lemma births_fields (dets : list (list A)) (l : list nat)
    (acc : list (KalmanBoxTracker A)) (c : Z) :
  let born := fst (fold_left
                     (fun (acc : list (KalmanBoxTracker A) * Z) i =>
                        let (trk, c) :=
                          KalmanBoxTracker_init (snd acc) (nth i dets [] ++ [zero]) in
                        (fst acc ++ [trk], c))
                     l (acc, c)) in
  map (fun t => (bbox_history t, (hits t, time_since_update t, age t))) born =
  map (fun t => (bbox_history t, (hits t, time_since_update t, age t))) acc
  ++ map (fun i => ([nth i dets [] ++ [zero]], (0, 0, 0)%Z)) l.
Proof.
  cbn zeta. revert acc c. induction l as [|i l IH]; intros acc c; cbn [fold_left].
  - cbn. rewrite app_nil_r. reflexivity.
  - cbn [KalmanBoxTracker_init fst snd]. rewrite IH, map_app, <- app_assoc.
    reflexivity.
Qed.

Lemma map_nth_all {X Y : Type} (g : X -> Y) (l : list X) (d : X) :
  map (fun i => g (nth i l d)) (seq 0 (length l)) = map g l.
Proof.
  induction l as [|x l IH]; [reflexivity|].
  cbn [length seq map nth]. f_equal.
  rewrite <- seq_shift, map_map. exact IH.
Qed.

(** X11.  The first frame of a tracker object ([max_age >= 0],
    [min_hits > 0]) starts one tracker per detection, in the order of the
    detections: identities are the next values of the counter, every counter
    of a new tracker is 0, its box history holds the detection with a 0
    appended, and nothing is emitted. *)
Theorem first_frame_starts_trackers (count ma mh : Z) (thr : A)
    (dets : list (list A)) :
  (0 <= ma)%Z -> (0 < mh)%Z ->
  let r := Sort_update count (Sort_init ma mh thr) dets in
  fst (fst r) = empty_array 6
  /\ snd r = (count + Z.of_nat (length dets))%Z
  /\ map id (trackers (snd (fst r))) = consecutive count (length dets)
  /\ map (fun t => (bbox_history t, (hits t, time_since_update t, age t)))
         (trackers (snd (fst r))) =
     map (fun d => ([d ++ [zero]], (0, 0, 0)%Z)) dets.
Proof.
  intros Hma Hmh. cbn zeta.
  assert (Eu : unmatched_dets (Sort_init ma mh thr) dets = seq 0 (length dets))
    by reflexivity.
  assert (Eb : before_eviction count (Sort_init ma mh thr) dets =
               fst (births count (Sort_init ma mh thr) dets)) by reflexivity.
  destruct (births_ids count (Sort_init ma mh thr) dets) as [Eid Ec].
  rewrite Eu, length_seq in Eid, Ec.
  pose proof (births_fields dets (seq 0 (length dets)) [] count) as Ef.
  cbn zeta in Ef. cbn [map app] in Ef.
  rewrite (map_nth_all (fun d => ([d ++ [zero]], (0, 0, 0)%Z)) dets []) in Ef.
  change (fst (fold_left _ (seq 0 (length dets)) ([], count)))
    with (fst (births count (Sort_init ma mh thr) dets)) in Ef.
  set (born := fst (births count (Sort_init ma mh thr) dets)) in *.
  assert (Hz : Forall (fun t => hits t = 0%Z /\ time_since_update t = 0%Z) born).
  { apply Forall_forall. intros t Ht.
    apply (in_map (fun t => (bbox_history t, (hits t, time_since_update t, age t)))) in Ht.
    rewrite Ef in Ht. apply in_map_iff in Ht. destruct Ht as (d & E & _).
    injection E as _ E1 E2 _. auto. }
  assert (Ekeep : filter (stays ma) born = born).
  { apply filter_all. intros t Ht. rewrite Forall_forall in Hz.
    destruct (Hz t Ht) as [_ Et]. apply stays_iff. lia. }
  assert (Eout : filter (confirmed ma mh) (rev born) = []).
  { apply filter_none. intros t Ht. apply in_rev in Ht. rewrite Forall_forall in Hz.
    destruct (Hz t Ht) as [Eh _].
    destruct (confirmed ma mh t) eqn:Ec'; [|reflexivity].
    apply confirmed_iff in Ec'. lia. }
  rewrite Sort_update_filters. unfold emitted.
  cbn [fst snd max_age min_hits Sort_init trackers].
  rewrite Eb, Ekeep, Eout. cbn [map length Nat.ltb Nat.leb].
  repeat split; assumption.
Qed.

End FirstFrame.

(* ================================================================== *)
(** ** Further properties over the reals: geometry and the filter *)

Section ExactTracker.
Import Plane.
Local Open Scope R_scope.

Lemma bbox_round_trip_exact (bbox : list R) :
  well_formed bbox ->
  convert_x_to_bbox (convert_bbox_to_z bbox) = corners bbox.
Proof.
  intros [Hw Hh]. unfold well_formed, width, height in *.
  unfold convert_x_to_bbox, convert_bbox_to_z, corners.
  cbn [idx nth]. cbn [add sub mul div sqrt of_Z Numeric_R].
  set (w := idx bbox 2 - idx bbox 0) in *.
  set (h := idx bbox 3 - idx bbox 1) in *.
  assert (Ew : R_sqrt.sqrt (w * h * (w / h)) = w).
  { replace (w * h * (w / h)) with (w * w) by (field; lra).
    apply sqrt_square. lra. }
  rewrite Ew.
  assert (Eh : w * h / w = h) by (field; lra).
  rewrite Eh. subst w h.
  repeat f_equal; field.
Qed.

Lemma mat_vec_F (a0 a1 a2 a3 a4 a5 a6 a7 : R) :
  mat_vec F_const [a0; a1; a2; a3; a4; a5; a6; a7] =
  [a0 + a5; a1 + a6; a2 + a7; a3; a4; a5; a6; a7].
Proof.
  cbv [mat_vec dotv F_const int_matrix map fold_left combine fst snd
       add mul of_Z Numeric_R zero].
  repeat (apply (f_equal2 (@cons R)); [ring|]). reflexivity.
Qed.

Lemma mat_vec_H (a0 a1 a2 a3 a4 a5 a6 a7 : R) :
  mat_vec H_const [a0; a1; a2; a3; a4; a5; a6; a7] = [a0; a1; a2; a3; a4].
Proof.
  cbv [mat_vec dotv H_const int_matrix map fold_left combine fst snd
       add mul of_Z Numeric_R zero].
  repeat (apply (f_equal2 (@cons R)); [ring|]). reflexivity.
Qed.

Lemma dotv_zeros (row y : list R) :
  Forall (fun v => v = 0) y -> dotv row y = 0.
Proof.
  unfold dotv. cbn [zero of_Z Numeric_R add mul].
  generalize 0 at 2 3 as acc. intros acc Hy. revert row acc.
  induction Hy as [|v y Hv Hy IH]; intros row acc.
  - destruct row; reflexivity.
  - destruct row as [|r row]; [reflexivity|]. cbn [combine fold_left fst snd].
    rewrite IH. subst v. ring.
Qed.

Lemma vec_add_zeros (u v : list R) :
  length v = length u -> Forall (fun a => a = 0) v -> vec_add u v = u.
Proof.
  unfold vec_add. revert v. induction u as [|a u IH]; intros [|b v] Hlen Hv;
    try discriminate; [reflexivity|].
  inversion Hv; subst. cbn [combine map fst snd add Numeric_R]. f_equal.
  - ring.
  - apply IH; [cbn in Hlen; congruence | assumption].
Qed.

(** X12.  Over the reals, a state of positive area and aspect ratio
    converted to a box is a well-formed box, and converting that box to a
    measurement gives the first five entries of the state back. *)
Theorem state_round_trip (x : list R) :
  0 < idx x 2 -> 0 < idx x 3 ->
  well_formed (convert_x_to_bbox x)
  /\ convert_bbox_to_z (convert_x_to_bbox x) =
     [idx x 0; idx x 1; idx x 2; idx x 3; idx x 4].
Proof.
  intros Hs Hr. unfold convert_x_to_bbox, convert_bbox_to_z, well_formed, width, height.
  cbn [idx nth]. cbn [add sub mul div sqrt of_Z Numeric_R].
  set (w := R_sqrt.sqrt (idx x 2 * idx x 3)).
  assert (Hw : 0 < w).
  { apply sqrt_lt_R0. apply Rmult_lt_0_compat; assumption. }
  assert (Hww : w * w = idx x 2 * idx x 3).
  { apply sqrt_sqrt. left. apply Rmult_lt_0_compat; assumption. }
  assert (Hh : 0 < idx x 2 / w).
  { apply Rdiv_lt_0_compat; assumption. }
  split; [split; lra|].
  f_equal; [field | f_equal; [field; lra | f_equal; [field; lra | f_equal]]].
  replace (idx x 0 + w / 2 - (idx x 0 - w / 2)) with w by field.
  replace (idx x 1 + idx x 2 / w / 2 - (idx x 1 - idx x 2 / w / 2))
    with (idx x 2 / w) by (field; lra).
  replace (w / (idx x 2 / w)) with (w * w / idx x 2) by (field; lra).
  rewrite Hww. field. lra.
Qed.

(** X13.  Over the reals, with the tracker's transition matrix, [predict]
    takes a positive area to a positive area: the predicted area is the area
    plus its velocity, or the area itself when that sum is not positive. *)
Theorem predict_keeps_area_positive (t : KalmanBoxTracker R) :
  kf_F (kf t) = F_const -> length (kf_x (kf t)) = 8%nat ->
  let x := kf_x (kf t) in
  let x' := kf_x (kf (snd (KalmanBoxTracker_predict t))) in
  idx x' 2 = (if Rle_dec (idx x 7 + idx x 2) 0 then idx x 2 else idx x 2 + idx x 7)
  /\ (0 < idx x 2 -> 0 < idx x' 2).
Proof.
  intros EF Hlen. cbn zeta.
  cbn [KalmanBoxTracker_predict snd kf KalmanFilter_predict kf_x set_x kf_F].
  rewrite EF.
  destruct (kf_x (kf t)) as [|a0 [|a1 [|a2 [|a3 [|a4 [|a5 [|a6 [|a7 [|]]]]]]]]];
    try discriminate.
  unfold damp_area_velocity. cbn [idx nth leb add mul Numeric_R zero of_Z].
  unfold Exact.leb.
  destruct (Rle_dec (a7 + a2) 0) as [Hle|Hgt].
  - cbn [set_idx]. rewrite mat_vec_F. cbn [idx nth].
    split; [ring | intros; lra].
  - rewrite mat_vec_F. cbn [idx nth]. split; [reflexivity | intros; lra].
Qed.

(** One cycle of [predict] and [update] with the box the state already
    stands for. *)
Lemma still_cycle (t : KalmanBoxTracker R) (z0 z1 z2 z3 z4 : R) (bbox : list R) :
  kf_F (kf t) = F_const -> kf_H (kf t) = H_const ->
  length (kf_Q (kf t)) = 8%nat ->
  kf_x (kf t) = [z0; z1; z2; z3; z4; 0; 0; 0] ->
  convert_bbox_to_z bbox = [z0; z1; z2; z3; z4] ->
  let t' := KalmanBoxTracker_update (snd (KalmanBoxTracker_predict t)) bbox in
  kf_F (kf t') = F_const /\ kf_H (kf t') = H_const /\
  length (kf_Q (kf t')) = 8%nat /\
  kf_x (kf t') = [z0; z1; z2; z3; z4; 0; 0; 0] /\
  hits t' = (hits t + 1)%Z /\ time_since_update t' = 0%Z /\ id t' = id t.
Proof.
  intros EF EH EQ Ex Ez. cbn zeta.
  cbn [KalmanBoxTracker_update KalmanBoxTracker_predict snd kf hits
       time_since_update id KalmanFilter_update KalmanFilter_predict
       kf_F kf_H kf_Q kf_x kf_P kf_R set_x].
  rewrite EF, EH, Ex, Ez.
  assert (Ed : damp_area_velocity [z0; z1; z2; z3; z4; 0; 0; 0] =
               [z0; z1; z2; z3; z4; 0; 0; 0]).
  { unfold damp_area_velocity. cbn [idx nth leb add mul Numeric_R zero of_Z set_idx].
    destruct (Exact.leb (0 + z2) 0); [|reflexivity].
    rewrite Rmult_0_r. reflexivity. }
  rewrite Ed, mat_vec_F.
  replace (z0 + 0) with z0 by ring. replace (z1 + 0) with z1 by ring.
  replace (z2 + 0) with z2 by ring.
  rewrite mat_vec_H.
  repeat split; try assumption.
  apply vec_add_zeros.
  - unfold mat_vec, mat_mul, mat_add, mat_scale.
    rewrite !length_map, length_combine, !length_map, EQ. reflexivity.
  - apply Forall_forall. intros a Ha. unfold mat_vec in Ha.
    apply in_map_iff in Ha. destruct Ha as (row & <- & _).
    apply dotv_zeros. unfold vec_sub. cbn [combine map fst snd sub Numeric_R].
    repeat constructor; ring.
Qed.

(** X14.  Over the reals, a tracker created from a detection and then
    predicted and corrected with the same detection any number of times
    keeps the state it was created with: zero velocities, [hits] equal to
    the number of corrections, and, for a well-formed detection, the
    detection's own corners as its reported box. *)
Theorem still_tracker (count : Z) (x1 y1 x2 y2 conf cls : R) (n : nat) :
  let det := [x1; y1; x2; y2; conf; cls] in
  let cycle := fun t => KalmanBoxTracker_update (snd (KalmanBoxTracker_predict t)) det in
  let t := Nat.iter n cycle (fst (KalmanBoxTracker_init count (det ++ [zero]))) in
  kf_x (kf t) = convert_bbox_to_z det ++ [0; 0; 0]
  /\ hits t = Z.of_nat n
  /\ id t = count
  /\ (well_formed det -> current_box t = [x1; y1; x2; y2; conf]).
Proof.
  cbn zeta.
  set (det := [x1; y1; x2; y2; conf; cls]).
  set (cycle := fun t => KalmanBoxTracker_update (snd (KalmanBoxTracker_predict t)) det).
  assert (Ez : exists z0 z1 z2 z3 z4, convert_bbox_to_z det = [z0; z1; z2; z3; z4]).
  { unfold convert_bbox_to_z. repeat eexists. }
  destruct Ez as (z0 & z1 & z2 & z3 & z4 & Ez).
  assert (G : let t := Nat.iter n cycle (fst (KalmanBoxTracker_init count (det ++ [zero]))) in
              kf_F (kf t) = F_const /\ kf_H (kf t) = H_const /\
              length (kf_Q (kf t)) = 8%nat /\
              kf_x (kf t) = [z0; z1; z2; z3; z4; 0; 0; 0] /\
              hits t = Z.of_nat n /\ id t = count).
  { induction n as [|n IH]; cbn zeta.
    - cbn [Nat.iter KalmanBoxTracker_init fst kf kf_F kf_H kf_Q kf_x hits id].
      repeat split.
      change (convert_bbox_to_z (det ++ [zero])) with (convert_bbox_to_z det).
      rewrite Ez. reflexivity.
    - rewrite !Nat.iter_succ. cbn zeta in IH.
      destruct IH as (EF & EH & EQ & Ex & Eh & Ei).
      destruct (still_cycle _ z0 z1 z2 z3 z4 det EF EH EQ Ex Ez)
        as (EF' & EH' & EQ' & Ex' & Eh' & _ & Ei').
      fold cycle in EF', EH', EQ', Ex', Eh', Ei'.
      repeat split; try assumption; try congruence.
      etransitivity; [exact Eh'|]. rewrite Eh. lia. }
  cbn zeta in G. destruct G as (_ & _ & _ & Ex & Eh & Ei).
  rewrite Ex, Ez. repeat split; try assumption.
  intros Hwf. unfold current_box. rewrite Ex.
  change [z0; z1; z2; z3; z4; 0; 0; 0] with ([z0; z1; z2; z3; z4] ++ [0; 0; 0]).
  assert (E5 : convert_x_to_bbox ([z0; z1; z2; z3; z4] ++ [0; 0; 0]) =
               convert_x_to_bbox [z0; z1; z2; z3; z4]) by reflexivity.
  rewrite E5, <- Ez. rewrite (bbox_round_trip_exact det Hwf). reflexivity.
Qed.

End ExactTracker.

(* ================================================================== *)
(** ** Further properties: identities in one output, a single pair *)

Section IdentityFacts.
Context {A : Type} `{Numeric A}.





End IdentityFacts.

Section SinglePair.
Context {A : Type} {N : Numeric A} {O : NumericOrder A}.

(** X16.  One detection against one predicted box whose IoU is a number
    (not NaN): the two are matched unless their IoU is below the threshold,
    in which case both are unmatched. *)
Theorem single_pair (det trk : list A) (thr : A) :
  isnan (iou det trk) = false ->
  associate_detections_to_trackers [det] [trk] thr =
  if ltb (iou det trk) thr then ([], [0%nat], [0%nat])
  else ([(0%nat, 0%nat)], [], []).
Proof.
  unfold associate_detections_to_trackers, iou_batch, threshold_matrix.
  intros _. cbn [length map Nat.eqb Nat.min Nat.ltb Nat.leb].
  generalize (iou det trk) as v. intros v.
  destruct (ltb thr v) eqn:Egt.
  - cbn. rewrite (ltb_asym _ _ Egt). reflexivity.
  - cbn. destruct (ltb v thr); reflexivity.
Qed.

End SinglePair.

Section NestedBoxes.
Import Plane.
Local Open Scope R_scope.

(** X17.  Over the reals, for a well-formed box lying inside another, the
    IoU is the area of the inner box over the area of the outer one. *)
Theorem iou_of_nested (a b : list R) :
  well_formed a ->
  idx b 0 <= idx a 0 -> idx b 1 <= idx a 1 ->
  idx a 2 <= idx b 2 -> idx a 3 <= idx b 3 ->
  iou a b = area a / area b.
Proof.
  intros [Hw Hh] H0 H1 H2 H3. unfold width, height in *.
  unfold iou, area, width, height. cbn [maximum minimum add sub mul div Numeric_R].
  unfold zero. cbn [of_Z Numeric_R].
  rewrite (Rmax_left (idx a 0) (idx b 0)), (Rmax_left (idx a 1) (idx b 1)),
          (Rmin_left (idx a 2) (idx b 2)), (Rmin_left (idx a 3) (idx b 3)) by lra.
  rewrite !Rmax_right by lra.
  assert (Ha : 0 < (idx a 2 - idx a 0) * (idx a 3 - idx a 1))
    by (apply Rmult_lt_0_compat; lra).
  assert (Hb : 0 < (idx b 2 - idx b 0) * (idx b 3 - idx b 1))
    by (apply Rmult_lt_0_compat; lra).
  field. lra.
Qed.

End NestedBoxes.

(* ================================================================== *)
(** ** The further properties at concrete inputs *)

Section FloatWitnesses.
Import Scenario.
Local Open Scope float_scope.

(** [rows_follow_trackers] on the tracker seen once and missed once. *)
Lemma rows_follow_trackers_witness :
  trks seen_then_missed =
    map (fun trk => trk_row (current_box trk)) (after_deletion seen_then_missed)
  /\ length (trks seen_then_missed) = 1%nat.
Proof.
  assert (Hfin : forall p, In p (predictions seen_then_missed) ->
                           forallb isfinite (trk_row (fst p)) = nan_free p).
  { intros p Hp.
    assert (E : map (fun p => (forallb isfinite (trk_row (fst p)), nan_free p))
                    (predictions seen_then_missed) = [(true, true)])
      by (vm_compute; reflexivity).
    apply (in_map (fun p => (forallb isfinite (trk_row (fst p)), nan_free p))) in Hp.
    rewrite E in Hp. destruct Hp as [Hp|[]]. injection Hp as H1 H2. rewrite <- H2. symmetry. exact H1. }
  destruct (rows_follow_trackers seen_then_missed Hfin) as [E L].
  split; [exact E|]. vm_compute. reflexivity.
Defined.

(** [starved_trackers_vanish] on the same tracker: [max_age = 1], two empty
    frames. *)
Lemma starved_trackers_vanish_witness :
  max_age seen_then_missed = 1%Z /\
  trackers (snd (fst (run 1 seen_then_missed [[]; []]))) = [].
Proof.
  split; [vm_compute; reflexivity|].
  assert (Hma : (0 <= max_age seen_then_missed)%Z)
    by (apply Z.leb_le; vm_compute; reflexivity).
  assert (Hpos : Forall (fun trk => (0 <= time_since_update trk)%Z)
                        (trackers seen_then_missed)).
  { apply Forall_forall. intros trk Htrk.
    apply (in_map time_since_update) in Htrk.
    assert (E : map time_since_update (trackers seen_then_missed) = [1%Z])
      by (vm_compute; reflexivity).
    rewrite E in Htrk. destruct Htrk as [<-|[]]. lia. }
  exact (starved_trackers_vanish 1 seen_then_missed Hma Hpos).
Defined.

(** [correction_in_range] on the frame that trips the misalignment: the
    index is in range even there. *)
Lemma correction_in_range_witness :
  matched wide_and_still [still] = [(0, 0)%nat] /\
  NoDup (map snd (matched wide_and_still [still])) /\
  (0 < length (after_deletion wide_and_still))%nat.
Proof.
  assert (E : matched wide_and_still [still] = [(0, 0)%nat])
    by (vm_compute; reflexivity).
  split; [exact E|].
  destruct (correction_in_range wide_and_still [still]) as [Hnd Hr].
  split; [exact Hnd|].
  apply (Hr (0, 0)%nat). rewrite E. left. reflexivity.
Defined.

(** [emission_needs_age] on the fourth frame of the stationary detection:
    the tracker emitted there has 3 hits and age 3. *)
Lemma emission_needs_age_witness :
  exists trk,
    In trk (before_eviction 1 (final (run 0 fresh [[still]; [still]; [still]])) [still])
    /\ card trk = (0, 3, 0)%Z
    /\ (3 <= hits trk <= age trk)%Z.
Proof.
  pose (s := final (run 0 fresh [[still]; [still]; [still]])).
  destruct (nth_error (before_eviction 1 s [still]) 0) as [trk|] eqn:E;
    [|vm_compute in E; discriminate].
  exists trk.
  assert (Hin : In trk (before_eviction 1 s [still])).
  { eapply nth_error_In. exact E. }
  assert (Hc : card trk = (0, 3, 0)%Z).
  { vm_compute in E. injection E as <-. vm_compute. reflexivity. }
  split; [exact Hin|]. split; [exact Hc|].
  apply (emission_needs_age 0 1 3 0.3 [[still]; [still]; [still]] 1 [still] trk Hin).
  unfold card in Hc. injection Hc as _ Hh Ht.
  apply confirmed_iff. rewrite Hh, Ht. vm_compute. split; [reflexivity | discriminate].
Defined.

(** [first_frame_starts_trackers] on a frame with two detections. *)
Lemma first_frame_starts_trackers_witness :
  map id (trackers (snd (fst (Sort_update 5 (Sort_init 1 3 0.3) [wide; still])))) =
    [5%Z; 6%Z]
  /\ fst (fst (Sort_update 5 (Sort_init 1 3 0.3) [wide; still])) = empty_array 6.
Proof.
  destruct (first_frame_starts_trackers 5 1 3 0.3 [wide; still])
    as (Eout & _ & Eid & _); [lia | lia |].
  split; [exact Eid | exact Eout].
Defined.

(** [single_pair] on the stationary detection and its own box. *)
Lemma single_pair_witness :
  associate_detections_to_trackers [still] [still] 0.3 = ([(0, 0)%nat], [], []).
Proof.
  assert (Hn : isnan (iou still still) = false) by (vm_compute; reflexivity).
  rewrite (single_pair still still 0.3 Hn). vm_compute. reflexivity.
Defined.

End FloatWitnesses.

Section ExactWitnesses.
Import Plane.
Local Open Scope R_scope.

(** [state_round_trip] on the state of a 10-by-10 box at the origin. *)
Lemma state_round_trip_witness :
  convert_bbox_to_z (convert_x_to_bbox [5; 5; 100; 1; 1]) = [5; 5; 100; 1; 1].
Proof.
  destruct (state_round_trip [5; 5; 100; 1; 1]) as [_ E].
  - cbn [idx nth]. lra.
  - cbn [idx nth]. lra.
  - exact E.
Defined.

(** [predict_keeps_area_positive] on a tracker just created from a 10-by-10
    box. *)
Lemma predict_keeps_area_positive_witness :
  0 < idx (kf_x (kf (snd (KalmanBoxTracker_predict
                           (fst (KalmanBoxTracker_init 0 [0; 0; 10; 10; 1; 0; 0])))))) 2.
Proof.
  destruct (predict_keeps_area_positive
              (fst (KalmanBoxTracker_init 0 [0; 0; 10; 10; 1; 0; 0]))) as [_ Hpos].
  - reflexivity.
  - reflexivity.
  - apply Hpos.
    cbn [KalmanBoxTracker_init fst kf kf_x convert_bbox_to_z app idx nth].
    cbn [sub mul Numeric_R]. lra.
Defined.

(** [iou_of_nested] on a unit square inside a square of side 2. *)
Lemma iou_of_nested_witness :
  iou [0; 0; 1; 1] [0; 0; 2; 2] = area [0; 0; 1; 1] / area [0; 0; 2; 2].
Proof.
  apply iou_of_nested.
  - unfold well_formed, width, height. cbn [idx nth]. split; lra.
  - cbn [idx nth]. lra.
  - cbn [idx nth]. lra.
  - cbn [idx nth]. lra.
  - cbn [idx nth]. lra.
Defined.

End ExactWitnesses.

(* ================================================================== *)
(** ** Exact arithmetic against binary64: geometry and prediction *)

Section FloatZero.
Local Open Scope float_scope.




End FloatZero.

Section DampFacts.
Context {A : Type} `{Numeric A}.





End DampFacts.

Section PredictSteps.
Context {A : Type} `{Numeric A}.


End PredictSteps.

Section BinaryRuns.
Import Scenario Extreme.
Local Open Scope float_scope.




End BinaryRuns.

(* ================================================================== *)
(** ** Eviction: what the last loop reads and what it removes *)

Section EvictionFacts.
Context {A : Type} `{Numeric A}.

Lemma In_update_nth {X : Type} (i : nat) (f : X -> X) (l : list X) (x : X) :
  In x (update_nth i f l) -> In x l \/ exists y, In y l /\ x = f y.
Proof.
  revert i. induction l as [|h l IH]; intros [|i]; cbn; try tauto.
  - intros [<-|Hx]; [right; exists h; auto | left; auto].
  - intros [<-|Hx]; [left; auto|].
    destruct (IH i Hx) as [Hl|(y & Hy & ->)]; [left; auto | right; exists y; auto].
Qed.

(** A tracker of the list after the corrections is one of the list before
    them or has just been corrected. *)
Lemma correction_members (dets : list (list A)) (ms : list (nat * nat))
    (l : list (KalmanBoxTracker A)) (t : KalmanBoxTracker A) :
  In t (fold_left
          (fun l (m : nat * nat) =>
             update_nth (snd m)
               (fun t => KalmanBoxTracker_update t (nth (fst m) dets [])) l)
          ms l) ->
  In t l \/ (history t = [] /\ time_since_update t = 0%Z).
Proof.
  revert l. induction ms as [|m ms IH]; intros l; cbn [fold_left]; [auto|].
  intros Ht. destruct (IH _ Ht) as [Hin|Hfresh]; [|auto].
  apply In_update_nth in Hin.
  destruct Hin as [Hin|(y & _ & ->)]; [left; exact Hin | right; split; reflexivity].
Qed.

(** The tracker at a position after the corrections: the same identity, and
    [time_since_update] reset when the position was matched. *)
Lemma correction_at (dets : list (list A)) (ms : list (nat * nat))
    (l : list (KalmanBoxTracker A)) (j : nat) (t : KalmanBoxTracker A) :
  nth_error l j = Some t ->
  exists t',
    nth_error
      (fold_left
         (fun l (m : nat * nat) =>
            update_nth (snd m)
              (fun t => KalmanBoxTracker_update t (nth (fst m) dets [])) l)
         ms l) j = Some t'
    /\ id t' = id t
    /\ time_since_update t' =
       (if mem j (map snd ms) then 0%Z else time_since_update t)
    /\ (mem j (map snd ms) = false -> t' = t).
Proof.
  revert l t. induction ms as [|m ms IH]; intros l t Hj; cbn [fold_left map].
  - exists t. cbn. auto.
  - unfold mem. cbn [existsb]. destruct (Nat.eqb j (snd m)) eqn:E.
    + apply Nat.eqb_eq in E. subst j.
      destruct (IH (update_nth (snd m)
                      (fun t => KalmanBoxTracker_update t (nth (fst m) dets [])) l)
                   (KalmanBoxTracker_update t (nth (fst m) dets [])))
        as (t' & H1 & H2 & H3 & H4).
      { rewrite nth_error_update_nth_same, Hj. reflexivity. }
      exists t'. split; [exact H1|]. split; [rewrite H2; reflexivity|]. split.
      * cbn [orb]. rewrite H3. destruct (mem (snd m) (map snd ms)); reflexivity.
      * discriminate.
    + apply Nat.eqb_neq in E.
      destruct (IH (update_nth (snd m)
                      (fun t => KalmanBoxTracker_update t (nth (fst m) dets [])) l) t)
        as (t' & H1 & H2 & H3 & H4).
      { rewrite nth_error_update_nth_other by congruence. exact Hj. }
      exists t'. cbn [orb]. auto.
Qed.

(** A tracker just created has an empty history and has not waited. *)
Lemma births_fresh (dets : list (list A)) (l : list nat)
    (acc : list (KalmanBoxTracker A)) (c : Z) :
  Forall (fun t => history t = [] /\ time_since_update t = 0%Z) acc ->
  Forall (fun t => history t = [] /\ time_since_update t = 0%Z)
    (fst (fold_left
            (fun (acc : list (KalmanBoxTracker A) * Z) i =>
               let (trk, c) :=
                 KalmanBoxTracker_init (snd acc) (nth i dets [] ++ [zero]) in
               (fst acc ++ [trk], c))
            l (acc, c))).
Proof.
  revert acc c. induction l as [|i l IH]; intros acc c Hacc; cbn [fold_left].
  - exact Hacc.
  - cbn [KalmanBoxTracker_init fst snd]. apply IH.
    apply Forall_app. split; [exact Hacc|].
    constructor; [split; reflexivity | constructor].
Qed.

(** The list left by the deletion loop, tracker by tracker. *)
Lemma after_deletion_members (s : Sort A) (trk : KalmanBoxTracker A) :
  In trk (after_deletion s) <->
  exists old, In old (trackers s)
              /\ trk = snd (KalmanBoxTracker_predict old)
              /\ existsb isnan (fst (KalmanBoxTracker_predict old)) = false.
Proof.
  rewrite after_deletion_filter, in_map_iff. unfold predictions. split.
  - intros (p & <- & Hp). apply filter_In in Hp. destruct Hp as (Hp & Hn).
    apply in_map_iff in Hp. destruct Hp as (old & <- & Hold).
    exists old. split; [exact Hold|]. split; [reflexivity|].
    unfold nan_free in Hn. apply negb_true_iff in Hn. exact Hn.
  - intros (old & Hold & -> & Hn).
    exists (KalmanBoxTracker_predict old). split; [reflexivity|].
    apply filter_In. split; [apply in_map; exact Hold|].
    unfold nan_free. rewrite Hn. reflexivity.
Qed.

(** The box a prediction returned is the last entry of the history of the
    predicted tracker, so a predicted tracker tells its box. *)
Lemma prediction_tells_box (t u : KalmanBoxTracker A) :
  snd (KalmanBoxTracker_predict t) = snd (KalmanBoxTracker_predict u) ->
  fst (KalmanBoxTracker_predict t) = fst (KalmanBoxTracker_predict u).
Proof.
  intros E. apply (f_equal history) in E.
  cbn [KalmanBoxTracker_predict snd history] in E.
  apply app_inj_tail in E. destruct E as [_ E]. exact E.
Qed.

Lemma prediction_has_history (t : KalmanBoxTracker A) :
  history (snd (KalmanBoxTracker_predict t)) <> [].
Proof.
  cbn [KalmanBoxTracker_predict snd history]. intros E.
  apply app_eq_nil in E. destruct E as [_ E]. discriminate.
Qed.

(** C2, as the program has it.  Trackers whose predicted box holds a NaN
    are removed before association, whatever their age: the deletion loop
    leaves the predictions without a NaN, and such a prediction is in no
    later list of the step.  The list the last loop reads then holds, at
    the position of each tracker left by the deletion, a tracker of the
    same identity whose [time_since_update] is the predicted value (the old
    value plus 1), or 0 when that position was corrected in this step, and
    after them the trackers just created, with [time_since_update] 0.  A
    tracker of that list is dropped exactly when its [time_since_update]
    there exceeds [max_age]; so no tracker kept by a step is older than
    [max_age], and a tracker that was not corrected in this step and whose
    predicted age exceeds [max_age] (age 2 for [max_age = 1]: unmatched in
    two consecutive steps) is gone. *)
Theorem eviction_by_age (count : Z) (s : Sort A) (dets : list (list A)) :
  let live := before_eviction count s dets in
  let s' := snd (fst (Sort_update count s dets)) in
  (* removal of the NaN boxes, before association *)
  after_deletion s = map snd (filter nan_free (predictions s))
  /\ (forall old, In old (trackers s) ->
        existsb isnan (fst (KalmanBoxTracker_predict old)) = true ->
        ~ In (snd (KalmanBoxTracker_predict old)) (after_deletion s)
        /\ ~ In (snd (KalmanBoxTracker_predict old)) live
        /\ ~ In (snd (KalmanBoxTracker_predict old)) (trackers s'))
  (* the ages the last loop reads *)
  /\ (forall j trk, nth_error (after_deletion s) j = Some trk ->
        (exists old, In old (trackers s)
                     /\ trk = snd (KalmanBoxTracker_predict old)
                     /\ existsb isnan (fst (KalmanBoxTracker_predict old)) = false
                     /\ time_since_update trk = (time_since_update old + 1)%Z)
        /\ (exists trk', nth_error live j = Some trk'
                         /\ id trk' = id trk
                         /\ time_since_update trk' =
                            (if mem j (map snd (matched s dets)) then 0%Z
                             else time_since_update trk)
                         /\ (mem j (map snd (matched s dets)) = false -> trk' = trk)))
  /\ (forall j trk', nth_error live j = Some trk' ->
        (length (after_deletion s) <= j)%nat ->
        In trk' (fst (births count s dets)) /\ time_since_update trk' = 0%Z)
  (* the eviction *)
  /\ trackers s' = filter (stays (max_age s)) live
  /\ (forall trk, In trk live ->
        (~ In trk (trackers s') <-> (max_age s < time_since_update trk)%Z))
  /\ Forall (fun trk => (time_since_update trk <= max_age s)%Z) (trackers s')
  /\ (forall j trk,
        nth_error (after_deletion s) j = Some trk ->
        ~ In j (map snd (matched s dets)) ->
        (max_age s < time_since_update trk)%Z ->
        nth_error live j = Some trk /\ ~ In trk (trackers s')).
Proof.
  cbn zeta. rewrite trackers_of_update.
  assert (Hin : forall trk,
             In trk (filter (stays (max_age s)) (before_eviction count s dets)) <->
             In trk (before_eviction count s dets) /\
             (time_since_update trk <= max_age s)%Z).
  { intros trk. rewrite filter_In, stays_iff. reflexivity. }
  assert (Hborn : Forall (fun t : KalmanBoxTracker A =>
                            history t = [] /\ time_since_update t = 0%Z)
                         (fst (births count s dets))).
  { unfold births. apply births_fresh. constructor. }
  split; [apply after_deletion_filter|].
  split; [|split; [|split; [|split; [reflexivity|split; [|split]]]]].
  - intros old Hold Hnan.
    assert (Hdel : ~ In (snd (KalmanBoxTracker_predict old)) (after_deletion s)).
    { intros Hd. apply after_deletion_members in Hd.
      destruct Hd as (old' & _ & E & Hfree).
      apply prediction_tells_box in E. rewrite E in Hnan. congruence. }
    assert (Hlive : ~ In (snd (KalmanBoxTracker_predict old))
                         (before_eviction count s dets)).
    { unfold before_eviction. intros Hl. apply in_app_or in Hl.
      destruct Hl as [Hl|Hl].
      - unfold after_correction in Hl. apply correction_members in Hl.
        destruct Hl as [Hl|[Hh _]]; [exact (Hdel Hl)|].
        exact (prediction_has_history old Hh).
      - rewrite Forall_forall in Hborn. destruct (Hborn _ Hl) as [Hh _].
        exact (prediction_has_history old Hh). }
    split; [exact Hdel|]. split; [exact Hlive|].
    intros Hk. apply Hin in Hk. tauto.
  - intros j trk Hj. split.
    + assert (Hm : In trk (after_deletion s)) by (eapply nth_error_In; exact Hj).
      apply after_deletion_members in Hm. destruct Hm as (old & Hold & E & Hfree).
      exists old. split; [exact Hold|]. split; [exact E|]. split; [exact Hfree|].
      rewrite E. reflexivity.
    + destruct (correction_at dets (matched s dets) (after_deletion s) j trk Hj)
        as (trk' & H1 & H2 & H3 & H4).
      exists trk'. split; [|auto].
      unfold before_eviction, after_correction. rewrite nth_error_app1; [exact H1|].
      apply nth_error_Some. rewrite H1. discriminate.
  - intros j trk' Hj Hlen. unfold before_eviction in Hj.
    rewrite nth_error_app2 in Hj by (rewrite length_after_correction; exact Hlen).
    apply nth_error_In in Hj. split; [exact Hj|].
    rewrite Forall_forall in Hborn. apply (Hborn _ Hj).
  - intros trk Hlive. rewrite Hin. split.
    + intros Hn.
      destruct (Z_lt_le_dec (max_age s) (time_since_update trk)) as [Hlt|Hle];
        [exact Hlt | exfalso; apply Hn; split; assumption].
    + intros Hlt [_ Hle]. lia.
  - apply Forall_forall. intros trk Htrk. apply Hin in Htrk. tauto.
  - intros j trk Hj Hun Hold. split.
    + unfold before_eviction, after_correction.
      assert (Hlen : nth_error (after_deletion s) j <> None) by congruence.
      apply nth_error_Some in Hlen.
      rewrite nth_error_app1.
      * rewrite correction_elsewhere by exact Hun. exact Hj.
      * fold (after_correction s dets).
        rewrite length_after_correction. exact Hlen.
    + rewrite Hin. lia.
Qed.

End EvictionFacts.

Section EvictionRuns.
Import Scenario.
Local Open Scope float_scope.

(** The tracker seen once and missed once, left unmatched by an empty frame,
    is dropped: an instance of the last part of [eviction_by_age]. *)
Lemma eviction_by_age_witness :
  exists trk,
    nth_error (after_deletion seen_then_missed) 0 = Some trk /\
    card trk = (0, 0, 2)%Z /\
    ~ In trk (trackers (snd (fst (Sort_update 1 seen_then_missed [])))).
Proof.
  destruct (nth_error (after_deletion seen_then_missed) 0) as [trk|] eqn:E;
    [|vm_compute in E; discriminate].
  exists trk. split; [reflexivity|].
  assert (Hc : card trk = (0, 0, 2)%Z).
  { vm_compute in E. injection E as <-. vm_compute. reflexivity. }
  split; [exact Hc|].
  destruct (eviction_by_age 1 seen_then_missed [])
    as (_ & _ & _ & _ & _ & _ & _ & Hgone).
  apply (Hgone 0%nat trk E).
  - vm_compute. tauto.
  - unfold card in Hc. injection Hc as _ _ Ht. rewrite Ht. vm_compute. reflexivity.
Defined.

End EvictionRuns.

(* ================================================================== *)
(** ** The fast path of the association against the general path *)

Section SolverOrder.
Context {A : Type} `{Numeric A}.
Local Open Scope nat_scope.

Lemma insert_by_row_In (p q : nat * nat) (l : list (nat * nat)) :
  In q (insert_by_row p l) -> q = p \/ In q l.
Proof.
  intros Hq. apply (Permutation_in q (insert_by_row_perm p l)) in Hq.
  destruct Hq as [E|Hq]; [left; symmetry; exact E | right; exact Hq].
Qed.

Lemma insert_by_row_sorted (p : nat * nat) (l : list (nat * nat)) :
  StronglySorted rows_ascend l -> StronglySorted rows_ascend (insert_by_row p l).
Proof.
  induction 1 as [|h t S IH F]; cbn [insert_by_row].
  - repeat constructor.
  - destruct (Nat.leb_spec (fst p) (fst h)) as [Hle|Hgt].
    + constructor; [constructor; assumption|].
      constructor; [exact Hle|].
      rewrite Forall_forall in *. intros q Hq. specialize (F q Hq).
      unfold rows_ascend in *. lia.
    + constructor; [exact IH|].
      rewrite Forall_forall in *. intros q Hq.
      destruct (insert_by_row_In _ _ _ Hq) as [->|Hq'].
      * unfold rows_ascend. lia.
      * apply F, Hq'.
Qed.

Lemma sort_by_row_sorted (l : list (nat * nat)) :
  StronglySorted rows_ascend (sort_by_row l).
Proof.
  unfold sort_by_row. induction l as [|p l IH]; cbn [fold_right].
  - constructor.
  - apply insert_by_row_sorted, IH.
Qed.

Lemma rows_ascend_strict (l : list (nat * nat)) :
  StronglySorted rows_ascend l -> NoDup (map fst l) -> StronglySorted by_row l.
Proof.
  induction 1 as [|h t S IH F]; intros Hnd; [constructor|].
  cbn [map] in Hnd. inversion Hnd as [|? ? Hh Ht]; subst.
  constructor; [apply IH, Ht|].
  rewrite Forall_forall in *. intros q Hq. specialize (F q Hq).
  unfold rows_ascend, by_row in *.
  assert (fst q <> fst h).
  { intros E. apply Hh. rewrite <- E. apply in_map, Hq. }
  lia.
Qed.

Lemma rows_of_seq_sorted (l : list (nat * nat)) (a n : nat) :
  map fst l = seq a n -> StronglySorted by_row l.
Proof.
  revert a n. induction l as [|h t IH]; intros a n E; [constructor|].
  destruct n as [|n]; [discriminate|]. cbn [map seq] in E.
  injection E as Eh Et. constructor; [apply (IH (S a) n), Et|].
  rewrite Forall_forall. intros q Hq. unfold by_row.
  assert (Hin : In (fst q) (seq (S a) n)) by (rewrite <- Et; apply in_map, Hq).
  apply in_seq in Hin. lia.
Qed.

(** The modelled solver lists its pairs by strictly increasing row. *)
Lemma linear_assignment_sorted (cost : list (list A)) :
  StronglySorted by_row (linear_assignment cost).
Proof.
  pose proof (linear_assignment_valid cost) as (Hf & _ & _).
  revert Hf. unfold linear_assignment, linear_sum_assignment.
  set (n := length cost). set (m := length (hd [] cost)).
  destruct (Nat.leb n m).
  - intros _. destruct (injections (seq 0 n) (seq 0 m)) as [|c0 rest] eqn:E.
    + constructor.
    + assert (Hin : In (cheapest cost (c0 :: rest)) (injections (seq 0 n) (seq 0 m))).
      { rewrite E. apply cheapest_In. discriminate. }
      destruct (injections_spec _ _ _ (seq_NoDup m 0) Hin) as (Ef & _ & _).
      apply (rows_of_seq_sorted _ 0 n), Ef.
  - intros Hf. apply rows_ascend_strict; [apply sort_by_row_sorted | exact Hf].
Qed.

End SolverOrder.

Section AssignmentSize.
Local Open Scope nat_scope.

Lemma free_index (l : list nat) (N : nat) :
  length l < N -> exists r, r < N /\ ~ In r l.
Proof.
  intros Hlen.
  destruct (filter (fun r => negb (mem r l)) (seq 0 N)) as [|r rest] eqn:E.
  - exfalso. assert (Hincl : incl (seq 0 N) l).
    { intros r Hr. destruct (mem r l) eqn:Em; [apply mem_In, Em|].
      assert (Hin : In r (filter (fun r => negb (mem r l)) (seq 0 N))).
      { apply filter_In. split; [exact Hr|]. rewrite Em. reflexivity. }
      rewrite E in Hin. destruct Hin. }
    apply NoDup_incl_length in Hincl; [|apply seq_NoDup].
    rewrite length_seq in Hincl. lia.
  - assert (Hin : In r (filter (fun r => negb (mem r l)) (seq 0 N))).
    { rewrite E. left. reflexivity. }
    apply filter_In in Hin. destruct Hin as [Hr Hm]. apply in_seq in Hr.
    exists r. split; [lia|]. intros Hl. apply mem_In in Hl.
    rewrite Hl in Hm. discriminate.
Qed.

Lemma valid_assignment_length (n m : nat) (M : list (nat * nat)) :
  valid_assignment n m M -> length M <= Nat.min n m.
Proof.
  intros (Hf & Hs & Hr).
  assert (H1 : length (map fst M) <= length (seq 0 n)).
  { apply NoDup_incl_length; [exact Hf|]. intros r Hin.
    apply in_map_iff in Hin. destruct Hin as (p & <- & Hp).
    apply in_seq. destruct (Hr p Hp). lia. }
  assert (H2 : length (map snd M) <= length (seq 0 m)).
  { apply NoDup_incl_length; [exact Hs|]. intros r Hin.
    apply in_map_iff in Hin. destruct Hin as (p & <- & Hp).
    apply in_seq. destruct (Hr p Hp). lia. }
  rewrite length_map, length_seq in H1, H2. lia.
Qed.

(** Any assignment is part of one of full size. *)
Lemma assignment_extends (n m : nat) (P : list (nat * nat)) :
  valid_assignment n m P ->
  exists Q, valid_assignment n m Q /\ length Q = Nat.min n m /\ incl P Q.
Proof.
  remember (Nat.min n m - length P) as k eqn:Ek.
  revert P Ek. induction k as [|k IH]; intros P Ek HV.
  - exists P. split; [exact HV|]. split; [|apply incl_refl].
    pose proof (valid_assignment_length n m P HV). lia.
  - destruct HV as (Hf & Hs & Hr).
    destruct (free_index (map fst P) n) as (r & Hr1 & Hr2);
      [rewrite length_map; lia|].
    destruct (free_index (map snd P) m) as (c & Hc1 & Hc2);
      [rewrite length_map; lia|].
    destruct (IH ((r, c) :: P)) as (Q & HQ & HlQ & HiQ).
    + cbn [length]. lia.
    + split; [|split].
      * cbn [map fst]. constructor; assumption.
      * cbn [map snd]. constructor; assumption.
      * intros p [<-|Hp]; [cbn; lia | apply Hr, Hp].
    + exists Q. split; [exact HQ|]. split; [exact HlQ|].
      intros p Hp. apply HiQ. right. exact Hp.
Qed.

Lemma injections_complete (rows cols : list nat) (M : list (nat * nat)) :
  NoDup rows -> Permutation (map fst M) rows ->
  NoDup (map snd M) -> incl (map snd M) cols ->
  exists asg, In asg (injections rows cols) /\ Permutation asg M.
Proof.
  revert cols M. induction rows as [|r rs IH]; intros cols M Hr HP Hs Hi.
  - apply Permutation_sym, Permutation_nil in HP.
    destruct M; [|discriminate]. exists []. split; [left; reflexivity | constructor].
  - assert (Hin : In r (map fst M)).
    { eapply Permutation_in; [symmetry; exact HP | left; reflexivity]. }
    apply in_map_iff in Hin. destruct Hin as ([r' c] & E & Hp).
    cbn [fst] in E. subst r'.
    apply in_split in Hp. destruct Hp as (M1 & M2 & ->).
    assert (PM : Permutation ((r, c) :: M1 ++ M2) (M1 ++ (r, c) :: M2))
      by apply Permutation_middle.
    assert (HP' : Permutation (map fst (M1 ++ M2)) rs).
    { apply (Permutation_cons_inv (a := r)). rewrite <- HP.
      change (r :: map fst (M1 ++ M2)) with (map fst ((r, c) :: M1 ++ M2)).
      apply Permutation_map. exact PM. }
    assert (Hs' : NoDup (map snd ((r, c) :: M1 ++ M2))).
    { eapply Permutation_NoDup; [apply Permutation_map; symmetry; exact PM | exact Hs]. }
    cbn [map snd] in Hs'. inversion Hs' as [|? ? Hc Hs'']; subst.
    destruct (IH (remove Nat.eq_dec c cols) (M1 ++ M2)) as (asg & Ha & Pa).
    + inversion Hr; assumption.
    + exact HP'.
    + exact Hs''.
    + intros x Hx. apply in_in_remove.
      * intros ->. contradiction.
      * apply Hi. rewrite map_app in *. cbn [map]. apply in_app_or in Hx.
        apply in_or_app. destruct Hx; [left | right; right]; assumption.
    + exists ((r, c) :: asg). split.
      * cbn [injections]. apply in_flat_map. exists c. split.
        -- apply Hi. rewrite map_app. apply in_or_app. right. left. reflexivity.
        -- apply in_map. exact Ha.
      * rewrite <- PM. constructor. exact Pa.
Qed.

End AssignmentSize.

(* ================================================================== *)
(** ** Assignments of least cost, over the reals *)

Section ExactAssignment.
Local Open Scope nat_scope.

Lemma total_cost_sum (cost : list (list R)) (asg : list (nat * nat)) :
  total_cost cost asg = entries_sum cost asg.
Proof.
  unfold total_cost, entries_sum.
  assert (G : forall a : R,
             fold_left (fun acc (m : nat * nat) => add acc (idx2 cost (fst m) (snd m)))
                       asg a =
             (a + fold_right Rplus 0
                    (map (fun p => idx2 cost (fst p) (snd p)) asg))%R).
  { induction asg as [|p asg IH]; intros a; cbn [fold_left map fold_right].
    - lra.
    - rewrite IH. cbn [add Numeric_R]. lra. }
  rewrite G. unfold zero. cbn [of_Z Numeric_R]. lra.
Qed.

Lemma entries_sum_perm (M : list (list R)) (l l' : list (nat * nat)) :
  Permutation l l' -> entries_sum M l = entries_sum M l'.
Proof.
  unfold entries_sum. induction 1; cbn [map fold_right]; lra.
Qed.

Lemma entries_sum_app (M : list (list R)) (l l' : list (nat * nat)) :
  entries_sum M (l ++ l') = (entries_sum M l + entries_sum M l')%R.
Proof.
  unfold entries_sum. induction l as [|p l IH]; cbn [app map fold_right]; lra.
Qed.

Lemma entries_sum_split (M : list (list R)) (f : nat * nat -> bool)
    (l : list (nat * nat)) :
  entries_sum M l =
  (entries_sum M (filter f l) + entries_sum M (filter (fun p => negb (f p)) l))%R.
Proof.
  rewrite <- entries_sum_app. apply entries_sum_perm.
  symmetry. rewrite Permutation_app_comm. apply filter_split_perm.
Qed.

Lemma entries_sum_zero (M : list (list R)) (l : list (nat * nat)) :
  (forall p, In p l -> idx2 M (fst p) (snd p) = 0%R) -> entries_sum M l = 0%R.
Proof.
  unfold entries_sum. induction l as [|p l IH]; intros Hz; cbn [map fold_right].
  - reflexivity.
  - rewrite (Hz p (or_introl eq_refl)), IH; [lra|].
    intros q Hq. apply Hz. right. exact Hq.
Qed.

Lemma entries_sum_positive (M : list (list R)) (l : list (nat * nat)) :
  l <> [] -> (forall p, In p l -> (0 < idx2 M (fst p) (snd p))%R) ->
  (0 < entries_sum M l)%R.
Proof.
  unfold entries_sum. induction l as [|p l IH]; intros Hne Hpos; [congruence|].
  cbn [map fold_right]. pose proof (Hpos p (or_introl eq_refl)) as Hp.
  destruct l as [|q l].
  - cbn. lra.
  - assert (0 < fold_right Rplus 0
                  (map (fun p => idx2 M (fst p) (snd p)) (q :: l)))%R.
    { apply IH; [discriminate|]. intros r Hr. apply Hpos. right. exact Hr. }
    lra.
Qed.

Lemma idx2_negate (M : list (list R)) (r c : nat) :
  idx2 (negate M) r c = (- idx2 M r c)%R.
Proof.
  unfold idx2, idx, negate.
  change (@nil R) with (map (@opp R _) []) at 1. rewrite map_nth.
  assert (E : @zero R _ = opp (@zero R _)).
  { unfold zero. cbn [of_Z opp Numeric_R]. lra. }
  rewrite E at 1. rewrite map_nth. reflexivity.
Qed.

Lemma entries_sum_negate (M : list (list R)) (l : list (nat * nat)) :
  entries_sum (negate M) l = (- entries_sum M l)%R.
Proof.
  unfold entries_sum. induction l as [|p l IH]; cbn [map fold_right].
  - lra.
  - rewrite IH, idx2_negate. lra.
Qed.

Lemma cheapest_least (cost : list (list R)) (cands : list (list (nat * nat)))
    (c : list (nat * nat)) :
  In c cands ->
  (total_cost cost (cheapest cost cands) <= total_cost cost c)%R.
Proof.
  destruct cands as [|c0 rest]; [intros []|]. cbn [cheapest].
  assert (G : forall rest best,
             let r := fold_left
                        (fun best c =>
                           if ltb (total_cost cost c) (total_cost cost best)
                           then c else best) rest best in
             (total_cost cost r <= total_cost cost best)%R /\
             forall c, In c rest -> (total_cost cost r <= total_cost cost c)%R).
  { clear. induction rest as [|a rest IH]; intros best; cbn zeta; cbn [fold_left].
    - split; [lra | intros c []].
    - destruct (ltb (total_cost cost a) (total_cost cost best)) eqn:E;
        cbn [ltb Numeric_R] in E; unfold Exact.ltb in E;
        destruct (Rlt_dec (total_cost cost a) (total_cost cost best)) as [Hlt|Hge];
        try discriminate.
      + destruct (IH a) as [H1 H2]. cbn zeta in H1, H2.
        split; [lra|]. intros c [<-|Hc]; [exact H1 | apply H2, Hc].
      + destruct (IH best) as [H1 H2]. cbn zeta in H1, H2.
        split; [exact H1|]. intros c [<-|Hc]; [lra | apply H2, Hc]. }
  destruct (G rest c0) as [H1 H2]. cbn zeta in H1, H2.
  intros [<-|Hc]; [exact H1 | apply H2, Hc].
Qed.

End ExactAssignment.

Section ExactOptimal.
Local Open Scope nat_scope.

Lemma full_rows (n m : nat) (M : list (nat * nat)) :
  valid_assignment n m M -> length M = n -> Permutation (map fst M) (seq 0 n).
Proof.
  intros (Hf & _ & Hr) Hlen. apply NoDup_Permutation_bis; [exact Hf | |].
  - rewrite length_seq, length_map. lia.
  - intros r Hin. apply in_map_iff in Hin. destruct Hin as (p & <- & Hp).
    apply in_seq. destruct (Hr p Hp). lia.
Qed.

Lemma full_cols (n m : nat) (M : list (nat * nat)) :
  valid_assignment n m M -> length M = m -> Permutation (map snd M) (seq 0 m).
Proof.
  intros (_ & Hs & Hr) Hlen. apply NoDup_Permutation_bis; [exact Hs | |].
  - rewrite length_seq, length_map. lia.
  - intros r Hin. apply in_map_iff in Hin. destruct Hin as (p & <- & Hp).
    apply in_seq. destruct (Hr p Hp). lia.
Qed.

Lemma total_cost_perm (cost : list (list R)) (l l' : list (nat * nat)) :
  Permutation l l' -> total_cost cost l = total_cost cost l'.
Proof.
  intros HP. rewrite !total_cost_sum. apply entries_sum_perm, HP.
Qed.

Lemma not_cheaper (a b : R) : (b <= a)%R -> ltb a b = false.
Proof.
  intros Hle. cbn [ltb Numeric_R]. unfold Exact.ltb.
  destruct (Rlt_dec a b); [lra | reflexivity].
Qed.

(** Over the reals the modelled solver returns an assignment of full size
    and least total cost. *)
Lemma linear_assignment_optimal (cost : list (list R)) :
  optimal_assignment (length cost) (length (hd [] cost)) cost
                     (linear_assignment cost).
Proof.
  pose proof (linear_assignment_valid cost) as HV.
  set (n := length cost) in *. set (m := length (hd [] cost)) in *.
  set (flip := fun rc : nat * nat => (snd rc, fst rc)).
  assert (Hflip : forall l, map flip (map flip l) = l).
  { intros l. rewrite map_map. rewrite <- (map_id l) at 2. apply map_ext.
    intros [a b]. reflexivity. }
  destruct (assignment_extends n m [] (valid_assignment_nil n m)) as (Q0 & HQ0 & LQ0 & _).
  destruct (Nat.leb_spec n m) as [Hnm|Hnm].
  - (* no more rows than columns *)
    assert (EM : linear_assignment cost =
                 cheapest cost (injections (seq 0 n) (seq 0 m))).
    { unfold linear_assignment, linear_sum_assignment. fold n m.
      destruct (Nat.leb_spec n m); [reflexivity | lia]. }
    assert (Hcand : forall M', valid_assignment n m M' -> length M' = Nat.min n m ->
              exists asg, In asg (injections (seq 0 n) (seq 0 m)) /\ Permutation asg M').
    { intros M' HV' HL'. apply injections_complete.
      - apply seq_NoDup.
      - apply (full_rows n m); [exact HV' | lia].
      - apply HV'.
      - intros c Hc. apply in_map_iff in Hc. destruct Hc as (p & <- & Hp).
        apply in_seq. destruct HV' as (_ & _ & Hr). destruct (Hr p Hp). lia. }
    split; [exact HV|]. split.
    + destruct (Hcand Q0 HQ0 LQ0) as (asg0 & Ha0 & _).
      assert (Hin : In (linear_assignment cost) (injections (seq 0 n) (seq 0 m))).
      { rewrite EM. apply cheapest_In. intros E. rewrite E in Ha0. destruct Ha0. }
      destruct (injections_spec _ _ _ (seq_NoDup m 0) Hin) as (Ef & _ & _).
      rewrite <- (length_map fst), Ef, length_seq. lia.
    + intros M' HV' HL'. destruct (Hcand M' HV' HL') as (asg & Ha & Pa).
      apply not_cheaper. rewrite EM, <- (total_cost_perm cost _ _ Pa).
      apply cheapest_least, Ha.
  - (* more rows than columns *)
    assert (EM : linear_assignment cost =
                 sort_by_row (cheapest cost
                   (map (map flip) (injections (seq 0 m) (seq 0 n))))).
    { unfold linear_assignment, linear_sum_assignment. fold n m.
      destruct (Nat.leb_spec n m); [lia | reflexivity]. }
    assert (Hcand : forall M', valid_assignment n m M' -> length M' = Nat.min n m ->
              exists asg, In asg (injections (seq 0 m) (seq 0 n)) /\
                          Permutation (map flip asg) M').
    { intros M' HV' HL'.
      destruct (injections_complete (seq 0 m) (seq 0 n) (map flip M'))
        as (asg & Ha & Pa).
      - apply seq_NoDup.
      - rewrite map_map. cbn [flip fst].
        apply (full_cols n m); [exact HV' | lia].
      - rewrite map_map. cbn [flip snd]. apply HV'.
      - rewrite map_map. cbn [flip snd]. intros c Hc.
        apply in_map_iff in Hc. destruct Hc as (p & <- & Hp).
        apply in_seq. destruct HV' as (_ & _ & Hr). destruct (Hr p Hp). lia.
      - exists asg. split; [exact Ha|]. rewrite <- (Hflip M').
        apply Permutation_map, Pa. }
    split; [exact HV|]. split.
    + destruct (Hcand Q0 HQ0 LQ0) as (asg0 & Ha0 & _).
      rewrite EM. rewrite (Permutation_length (sort_by_row_perm _)).
      assert (Hin : In (cheapest cost (map (map flip) (injections (seq 0 m) (seq 0 n))))
                       (map (map flip) (injections (seq 0 m) (seq 0 n)))).
      { apply cheapest_In. intros E. apply map_eq_nil in E.
        rewrite E in Ha0. destruct Ha0. }
      apply in_map_iff in Hin. destruct Hin as (asg & <- & Ha).
      destruct (injections_spec _ _ _ (seq_NoDup n 0) Ha) as (Ef & _ & _).
      rewrite length_map, <- (length_map fst), Ef, length_seq. lia.
    + intros M' HV' HL'. destruct (Hcand M' HV' HL') as (asg & Ha & Pa).
      apply not_cheaper. rewrite EM.
      rewrite (total_cost_perm cost _ _ (sort_by_row_perm _)).
      rewrite <- (total_cost_perm cost _ _ Pa).
      apply cheapest_least, in_map, Ha.
Qed.

End ExactOptimal.

Section ExactFastPath.
Local Open Scope nat_scope.

Lemma holds_In (l : list (nat * nat)) (p : nat * nat) : holds l p = true <-> In p l.
Proof.
  unfold holds. rewrite existsb_exists. split.
  - intros (q & Hq & E). apply andb_true_iff in E. destruct E as [E1 E2].
    apply Nat.eqb_eq in E1, E2. destruct p, q. cbn [fst snd] in *. subst. exact Hq.
  - intros Hp. exists p. split; [exact Hp|]. rewrite !Nat.eqb_refl. reflexivity.
Qed.

Lemma common_pairs (l l' : list (nat * nat)) :
  NoDup l -> NoDup l' ->
  Permutation (filter (holds l') l) (filter (holds l) l').
Proof.
  intros H1 H2. apply NoDup_Permutation; try (apply NoDup_filter; assumption).
  intros p. rewrite !filter_In, !holds_In. tauto.
Qed.

Lemma valid_assignment_NoDup (n m : nat) (M : list (nat * nat)) :
  valid_assignment n m M -> NoDup M.
Proof.
  intros (Hf & _ & _). apply (NoDup_map_inv fst), Hf.
Qed.

(** Over the reals, when the threshold is positive and every IoU that is
    not above it is zero, an assignment of least total cost holds every
    pair above the threshold, and its other pairs are below it. *)
Lemma optimal_holds_pairs (dets trks : list (list R)) (thr : R)
    (M : list (nat * nat)) :
  let n := length dets in
  let m := length trks in
  let iou_matrix := iou_batch dets trks in
  let W := where_ (threshold_matrix iou_matrix thr) in
  one_to_one (threshold_matrix iou_matrix thr) = true ->
  (0 < thr)%R ->
  (forall d t, d < n -> t < m ->
               (idx2 iou_matrix d t <= thr)%R -> idx2 iou_matrix d t = 0%R) ->
  optimal_assignment n m (negate iou_matrix) M ->
  incl W M /\
  forall p, In p M -> ~ In p W ->
            ltb (idx2 iou_matrix (fst p) (snd p)) thr = true.
Proof.
  cbn zeta. intros Hone Hthr Hzero (HV & HL & Hopt).
  set (iou_matrix := iou_batch dets trks) in *.
  set (W := where_ (threshold_matrix iou_matrix thr)).
  pose proof (where_valid dets trks thr Hone) as HW. fold iou_matrix W in HW.
  assert (Habove : forall p, In p W -> (thr < idx2 iou_matrix (fst p) (snd p))%R).
  { intros [d t] Hp. apply In_where_iou in Hp. destruct Hp as (_ & _ & Hlt).
    cbn [ltb Numeric_R] in Hlt. unfold Exact.ltb in Hlt. cbn [fst snd].
    fold iou_matrix in Hlt.
    destruct (Rlt_dec thr (idx2 iou_matrix d t)); [assumption | discriminate]. }
  assert (Hother : forall L p, valid_assignment (length dets) (length trks) L ->
             In p L -> ~ In p W -> idx2 iou_matrix (fst p) (snd p) = 0%R).
  { intros L [d t] (_ & _ & Hr) Hp HnW. destruct (Hr _ Hp) as [Hd Ht].
    cbn [fst snd] in *. apply Hzero; [exact Hd | exact Ht |].
    destruct (Rle_dec (idx2 iou_matrix d t) thr) as [Hle|Hgt]; [exact Hle|].
    exfalso. apply HnW. apply In_where_iou. repeat split; [exact Hd | exact Ht |].
    fold iou_matrix. cbn [ltb Numeric_R]. unfold Exact.ltb.
    destruct (Rlt_dec thr (idx2 iou_matrix d t)); [reflexivity | lra]. }
  assert (Hsum : forall L, valid_assignment (length dets) (length trks) L ->
             entries_sum iou_matrix L = entries_sum iou_matrix (filter (holds W) L)).
  { intros L HLv. rewrite (entries_sum_split iou_matrix (holds W) L).
    rewrite (entries_sum_zero iou_matrix (filter (fun p => negb (holds W p)) L)); [lra|].
    intros p Hp. apply filter_In in Hp. destruct Hp as [Hp Hn].
    apply (Hother L p HLv Hp). intros HpW. apply holds_In in HpW.
    rewrite HpW in Hn. discriminate. }
  destruct (assignment_extends _ _ W HW) as (Q & HQ & LQ & HWQ).
  assert (SQ : entries_sum iou_matrix Q = entries_sum iou_matrix W).
  { rewrite (Hsum Q HQ). apply entries_sum_perm.
    apply NoDup_Permutation.
    - apply NoDup_filter, (valid_assignment_NoDup _ _ _ HQ).
    - apply (valid_assignment_NoDup _ _ _ HW).
    - intros p. rewrite filter_In, holds_In. split; [tauto|].
      intros Hp. split; [apply HWQ, Hp | exact Hp]. }
  assert (SM : entries_sum iou_matrix M =
               entries_sum iou_matrix (filter (holds M) W)).
  { rewrite (Hsum M HV). apply entries_sum_perm, common_pairs.
    - apply (valid_assignment_NoDup _ _ _ HV).
    - apply (valid_assignment_NoDup _ _ _ HW). }
  assert (SW : entries_sum iou_matrix W =
               (entries_sum iou_matrix (filter (holds M) W) +
                entries_sum iou_matrix (filter (fun p => negb (holds M p)) W))%R).
  { apply entries_sum_split. }
  specialize (Hopt Q HQ LQ).
  rewrite !total_cost_sum, !entries_sum_negate in Hopt.
  cbn [ltb Numeric_R] in Hopt. unfold Exact.ltb in Hopt.
  destruct (Rlt_dec (- entries_sum iou_matrix Q) (- entries_sum iou_matrix M))
    as [|Hge]; [discriminate|]. clear Hopt.
  assert (Hrest : filter (fun p => negb (holds M p)) W = []).
  { destruct (filter (fun p => negb (holds M p)) W) as [|q rest] eqn:E;
      [reflexivity|]. exfalso.
    assert (Hpos : (0 < entries_sum iou_matrix (q :: rest))%R).
    { apply entries_sum_positive; [discriminate|].
      intros p Hp. rewrite <- E in Hp. apply filter_In in Hp.
      destruct Hp as [Hp _]. specialize (Habove p Hp). lra. }
    lra. }
  split.
  - intros p Hp. apply holds_In.
    destruct (holds M p) eqn:Eh; [reflexivity|]. exfalso.
    assert (Hin : In p (filter (fun p => negb (holds M p)) W)).
    { apply filter_In. split; [exact Hp|]. rewrite Eh. reflexivity. }
    rewrite Hrest in Hin. destruct Hin.
  - intros p Hp HnW. rewrite (Hother M p HV Hp HnW).
    cbn [ltb Numeric_R]. unfold Exact.ltb.
    destruct (Rlt_dec 0 thr); [reflexivity | lra].
Qed.

End ExactFastPath.

Section FastPathFacts.
Context {A : Type} {N : Numeric A} {O : NumericOrder A}.
Local Open Scope nat_scope.

Lemma pair_in_dec (p : nat * nat) (l : list (nat * nat)) : {In p l} + {~ In p l}.
Proof.
  apply in_dec. decide equality; apply Nat.eq_dec.
Qed.

(** The indices the fast path leaves unmatched are those with no IoU above
    the threshold in their row (or column). *)
Lemma fast_path_left_out (dets trks : list (list A)) (thr : A) :
  let iou_matrix := iou_batch dets trks in
  let W := where_ (threshold_matrix iou_matrix thr) in
  (forall d, In d (filter (fun d => negb (mem d (map fst W))) (seq 0 (length dets))) <->
             d < length dets /\
             forall t, t < length trks -> ltb thr (idx2 iou_matrix d t) = false)
  /\ (forall t, In t (filter (fun t => negb (mem t (map snd W))) (seq 0 (length trks))) <->
                t < length trks /\
                forall d, d < length dets -> ltb thr (idx2 iou_matrix d t) = false).
Proof.
  cbn zeta. split.
  - intros d. rewrite filter_In, in_seq, negb_true_iff. split.
    + intros [Hd Hm]. split; [lia|]. intros t Ht.
      destruct (ltb thr (idx2 (iou_batch dets trks) d t)) eqn:E; [|reflexivity].
      assert (Hin : In d (map fst (where_ (threshold_matrix (iou_batch dets trks) thr)))).
      { apply in_map_iff. exists (d, t). split; [reflexivity|].
        apply In_where_iou. repeat split; [lia | exact Ht | exact E]. }
      apply mem_In in Hin. congruence.
    + intros [Hd Hall]. split; [lia|].
      destruct (mem d (map fst (where_ (threshold_matrix (iou_batch dets trks) thr))))
        eqn:E; [|reflexivity].
      apply mem_In, in_map_iff in E. destruct E as ([d' t] & Ed & Hp).
      cbn [fst] in Ed. subst d'. apply In_where_iou in Hp.
      destruct Hp as (_ & Ht & Hlt). rewrite (Hall t Ht) in Hlt. discriminate.
  - intros t. rewrite filter_In, in_seq, negb_true_iff. split.
    + intros [Ht Hm]. split; [lia|]. intros d Hd.
      destruct (ltb thr (idx2 (iou_batch dets trks) d t)) eqn:E; [|reflexivity].
      assert (Hin : In t (map snd (where_ (threshold_matrix (iou_batch dets trks) thr)))).
      { apply in_map_iff. exists (d, t). split; [reflexivity|].
        apply In_where_iou. repeat split; [exact Hd | lia | exact E]. }
      apply mem_In in Hin. congruence.
    + intros [Ht Hall]. split; [lia|].
      destruct (mem t (map snd (where_ (threshold_matrix (iou_batch dets trks) thr))))
        eqn:E; [|reflexivity].
      apply mem_In, in_map_iff in E. destruct E as ([d t'] & Et & Hp).
      cbn [snd] in Et. subst t'. apply In_where_iou in Hp.
      destruct Hp as (Hd & _ & Hlt). rewrite (Hall d Hd) in Hlt. discriminate.
Qed.

(** The general path on an assignment [M], against the thresholded pairs
    [W]: the matches are equal exactly when [M] holds every pair of [W] and
    nothing else that survives the filter; the unmatched lists then hold the
    same indices. *)
Lemma general_against_fast (dets trks : list (list A)) (thr : A)
    (M : list (nat * nat)) :
  let n := length dets in
  let m := length trks in
  let iou_matrix := iou_batch dets trks in
  let W := where_ (threshold_matrix iou_matrix thr) in
  let below := fun p : nat * nat => ltb (idx2 iou_matrix (fst p) (snd p)) thr in
  let general := filter_matches n m iou_matrix thr M in
  one_to_one (threshold_matrix iou_matrix thr) = true ->
  valid_assignment n m M ->
  StronglySorted by_row M ->
  (W = fst (fst general) <->
     incl W M /\ forall p, In p M -> ~ In p W -> below p = true)
  /\ (incl W M -> (forall p, In p M -> ~ In p W -> below p = true) ->
      Permutation (filter (fun d => negb (mem d (map fst W))) (seq 0 n))
                  (snd (fst general))
      /\ Permutation (filter (fun t => negb (mem t (map snd W))) (seq 0 m))
                     (snd general))
  /\ ((forall p, In p M ->
         ltb thr (idx2 iou_matrix (fst p) (snd p)) = false -> below p = true) ->
      forall p, In p (fst (fst general)) <-> In p M /\ In p W).
Proof.
  cbn zeta. intros Hone (Hf & Hs & Hr) HS.
  rewrite filter_matches_split. cbn [fst snd].
  set (iou_matrix := iou_batch dets trks) in *.
  set (W := where_ (threshold_matrix iou_matrix thr)).
  set (rej := fun p : nat * nat => ltb (idx2 iou_matrix (fst p) (snd p)) thr).
  assert (HWrej : forall p, In p W -> rej p = false).
  { intros [d t] Hp. apply In_where_iou in Hp. apply ltb_asym. tauto. }
  split; [|split].
  - split.
    + intros E. split.
      * intros p Hp. rewrite E in Hp. apply filter_In in Hp. tauto.
      * intros p Hp HnW. fold (rej p). destruct (rej p) eqn:Er; [reflexivity|].
        exfalso. apply HnW. rewrite E. apply filter_In. split; [exact Hp|].
        change (negb (rej p) = true). rewrite Er. reflexivity.
    + intros [HWM HMrej]. apply by_row_sorted_ext.
      * apply where_from_sorted, one_to_one_rows, Hone.
      * apply by_row_sorted_filter, HS.
      * intros p. rewrite filter_In. split.
        -- intros Hp. split; [apply HWM, Hp|].
           change (negb (rej p) = true). rewrite (HWrej p Hp). reflexivity.
        -- intros [Hp Hk]. change (negb (rej p) = true) in Hk.
           destruct (pair_in_dec p W) as [HW|HnW]; [exact HW|].
           pose proof (HMrej p Hp HnW) as Hb. change (rej p = true) in Hb.
           rewrite Hb in Hk. discriminate.
  - intros HWM HMrej. split.
    + apply unmatched_permutation; auto.
      intros p Hp. apply Hr, Hp.
    + apply unmatched_permutation; auto.
      intros p Hp. apply Hr, Hp.
  - intros Htot p. rewrite filter_In. change (In p M /\ negb (rej p) = true <-> In p M /\ In p W). split.
    + intros [Hp Hk]. split; [exact Hp|].
      destruct p as [d t]. apply In_where_iou.
      destruct (Hr _ Hp) as [Hd Ht]. cbn [fst snd] in Hd, Ht.
      repeat split; [exact Hd | exact Ht |].
      destruct (ltb thr (idx2 (iou_batch dets trks) d t)) eqn:E; [reflexivity|].
      specialize (Htot (d, t) Hp E). unfold rej in Hk. cbn [fst snd] in Hk, Htot.
      fold iou_matrix in Htot. rewrite Htot in Hk. discriminate.
    + intros [Hp HW]. split; [exact Hp|]. rewrite (HWrej p HW). reflexivity.
Qed.

End FastPathFacts.

Section ExactPaths.
Local Open Scope nat_scope.

(** Over the reals, with a positive threshold and every IoU not above it
    zero, the general path on an assignment of least cost returns what the
    fast path returns. *)
Lemma exact_paths_agree (dets trks : list (list R)) (thr : R)
    (M : list (nat * nat)) :
  let iou_matrix := iou_batch dets trks in
  let fast := associate_detections_to_trackers dets trks thr in
  let general := filter_matches (length dets) (length trks) iou_matrix thr M in
  one_to_one (threshold_matrix iou_matrix thr) = true ->
  (0 < thr)%R ->
  (forall d t, d < length dets -> t < length trks ->
               (idx2 iou_matrix d t <= thr)%R -> idx2 iou_matrix d t = 0%R) ->
  optimal_assignment (length dets) (length trks) (negate iou_matrix) M ->
  StronglySorted by_row M ->
  fst (fst fast) = fst (fst general)
  /\ Permutation (snd (fst fast)) (snd (fst general))
  /\ Permutation (snd fast) (snd general).
Proof.
  cbn zeta. intros Hone Hthr Hzero Hopt HS.
  destruct (optimal_holds_pairs dets trks thr M Hone Hthr Hzero Hopt) as [HWM Hrej].
  destruct (general_against_fast dets trks thr M Hone (proj1 Hopt) HS)
    as (Hiff & Hperm & _).
  rewrite (fast_path_result dets trks thr Hone). cbn [fst snd].
  split; [apply Hiff; split; assumption | apply Hperm; assumption].
Qed.

Lemma solved_is_optimal (dets trks : list (list R)) :
  0 < length dets ->
  optimal_assignment (length dets) (length trks) (negate (iou_batch dets trks))
                     (linear_assignment (negate (iou_batch dets trks))).
Proof.
  intros Hn. destruct (length_hd_threshold dets trks 0%R Hn) as (_ & E1 & E2).
  rewrite <- E1, <- E2 at 1. apply linear_assignment_optimal.
Qed.

End ExactPaths.

Section FastPathAgainstGeneral.
Context {A : Type} {N : Numeric A} {O : NumericOrder A}.
Local Open Scope nat_scope.

(** C4, as the program has it.  When the thresholded matrix passes the
    fast-path test, the function returns as matches exactly the pairs whose
    IoU exceeds the threshold, and as unmatched the detections (tracks) none
    of whose IoUs exceeds it.  Take any assignment the solver may return (no
    row and no column twice, indices in range, listed by increasing row):
    the general path followed by the post-filter returns the same matches
    if and only if the assignment contains every pair above the threshold
    and all its other pairs are below the threshold, and then the unmatched
    lists hold the same indices, in some order; when no IoU of the
    assignment is left undecided by the two comparisons, the matches of the
    general path are the pairs above the threshold that the assignment
    contains, so they are among those of the fast path.  The modelled
    solver returns such an assignment.  Over the reals, when the threshold
    is positive and every IoU that is not above it is zero, every
    assignment of full size and least total cost meets the condition, the
    modelled solver's among them, and the two paths agree. *)
Theorem fast_path_agrees (dets trks : list (list A)) (thr : A) :
  let n := length dets in
  let m := length trks in
  let iou_matrix := iou_batch dets trks in
  let W := where_ (threshold_matrix iou_matrix thr) in
  let fast := associate_detections_to_trackers dets trks thr in
  let solved := linear_assignment (negate iou_matrix) in
  let below := fun p : nat * nat => ltb (idx2 iou_matrix (fst p) (snd p)) thr in
  (one_to_one (threshold_matrix iou_matrix thr) = true ->
   (* the fast path *)
   (fast = (W, filter (fun d => negb (mem d (map fst W))) (seq 0 n),
               filter (fun t => negb (mem t (map snd W))) (seq 0 m))
    /\ (forall d t, In (d, t) (fst (fst fast)) <->
                    d < n /\ t < m /\ ltb thr (idx2 iou_matrix d t) = true)
    /\ (forall d, In d (snd (fst fast)) <->
                  d < n /\ forall t, t < m -> ltb thr (idx2 iou_matrix d t) = false)
    /\ (forall t, In t (snd fast) <->
                  t < m /\ forall d, d < n -> ltb thr (idx2 iou_matrix d t) = false))
   (* against the general path, for any assignment *)
   /\ (forall M, valid_assignment n m M -> StronglySorted by_row M ->
         let general := filter_matches n m iou_matrix thr M in
         (fst (fst fast) = fst (fst general) <->
            incl W M /\ forall p, In p M -> ~ In p W -> below p = true)
         /\ (incl W M -> (forall p, In p M -> ~ In p W -> below p = true) ->
             Permutation (snd (fst fast)) (snd (fst general))
             /\ Permutation (snd fast) (snd general))
         /\ ((forall p, In p M ->
                ltb thr (idx2 iou_matrix (fst p) (snd p)) = false -> below p = true) ->
             forall p, In p (fst (fst general)) <-> In p M /\ In p (fst (fst fast))))
   (* the modelled solver *)
   /\ (valid_assignment n m solved
       /\ StronglySorted by_row solved
       /\ associate_general dets trks thr = filter_matches n m iou_matrix thr solved))
  (* over the reals, boxes that overlap above the threshold or not at all *)
  /\ (forall (rdets rtrks : list (list R)) (rthr : R),
        let riou := iou_batch rdets rtrks in
        let rfast := associate_detections_to_trackers rdets rtrks rthr in
        one_to_one (threshold_matrix riou rthr) = true ->
        (0 < rthr)%R ->
        (forall d t, d < length rdets -> t < length rtrks ->
                     (idx2 riou d t <= rthr)%R -> idx2 riou d t = 0%R) ->
        optimal_assignment (length rdets) (length rtrks) (negate riou)
                           (linear_assignment (negate riou))
        /\ (forall M,
              optimal_assignment (length rdets) (length rtrks) (negate riou) M ->
              StronglySorted by_row M ->
              let general :=
                filter_matches (length rdets) (length rtrks) riou rthr M in
              fst (fst rfast) = fst (fst general)
              /\ Permutation (snd (fst rfast)) (snd (fst general))
              /\ Permutation (snd rfast) (snd general))
        /\ (let general := associate_general rdets rtrks rthr in
            fst (fst rfast) = fst (fst general)
            /\ Permutation (snd (fst rfast)) (snd (fst general))
            /\ Permutation (snd rfast) (snd general))).
Proof.
  cbn zeta. split.
  - intros Hone.
    rewrite (fast_path_result dets trks thr Hone). cbn [fst snd].
    destruct (fast_path_left_out dets trks thr) as [Ld Lt].
    destruct (one_to_one_nonempty dets trks thr Hone) as [Hn Hm].
    split; [|split].
    + split; [reflexivity|]. split; [|split].
      * intros d t. apply In_where_iou.
      * exact Ld.
      * exact Lt.
    + intros M HV HS. apply (general_against_fast dets trks thr M Hone HV HS).
    + split; [|split].
      * destruct (length_hd_threshold dets trks thr Hn) as (_ & E1 & E2).
        rewrite <- E1, <- E2 at 1. apply linear_assignment_valid.
      * apply linear_assignment_sorted.
      * reflexivity.
  - intros rdets rtrks rthr Hone Hthr Hzero.
    destruct (one_to_one_nonempty rdets rtrks rthr Hone) as [Hn Hm].
    pose proof (solved_is_optimal rdets rtrks Hn) as Hopt.
    split; [exact Hopt|]. split.
    + intros M HM HS. apply exact_paths_agree; assumption.
    + unfold associate_general.
      apply exact_paths_agree; try assumption. apply linear_assignment_sorted.
Qed.

End FastPathAgainstGeneral.

Section FastPathRuns.
Import Scenario Apart Plane.
Local Open Scope float_scope.

Lemma iou_here_there :
  iou_batch [here; there] [here; there] = [[1; 0]; [0; 1]]%R.
Proof.
  unfold iou_batch. cbn [map]. rewrite !iou_exact.
  unfold union_area, intersection_area, area, width, height, here, there.
  cbn [idx nth].
  rewrite (Rmin_left 1 1), (Rmax_left 0 0), (Rmin_left 6 6), (Rmax_left 5 5),
    (Rmin_left 1 6), (Rmax_right 0 5), (Rmin_right 6 1), (Rmax_left 5 0),
    (Rmax_right 0 (1 - 0)), (Rmax_right 0 (6 - 5)), (Rmax_left 0 (1 - 5)) by lra.
  repeat (apply (f_equal2 (@cons (list R)));
          [repeat (apply (f_equal2 (@cons R)); [field|]); reflexivity|]).
  reflexivity.
Qed.

(** [fast_path_agrees] on two detections far apart, the first of which sits
    on a predicted box: the solver's assignment holds the pair above the
    threshold and its other pair is below it, so both paths match that pair
    and leave the rest unmatched; and, over the reals, on two unit squares
    far apart that sit on two predicted boxes. *)
Lemma fast_path_agrees_witness :
  (one_to_one (threshold_matrix (iou_batch apart_dets apart_trks) 0.3) = true /\
   fst (fst (associate_detections_to_trackers apart_dets apart_trks 0.3)) =
     fst (fst (associate_general apart_dets apart_trks 0.3)) /\
   Permutation (snd (fst (associate_detections_to_trackers apart_dets apart_trks 0.3)))
               (snd (fst (associate_general apart_dets apart_trks 0.3))) /\
   Permutation (snd (associate_detections_to_trackers apart_dets apart_trks 0.3))
               (snd (associate_general apart_dets apart_trks 0.3)))
  /\ (one_to_one (threshold_matrix (iou_batch [here; there] [here; there]) 0.3%R)
       = true /\
      fst (fst (associate_detections_to_trackers [here; there] [here; there] 0.3%R)) =
        fst (fst (associate_general [here; there] [here; there] 0.3%R)) /\
      Permutation
        (snd (fst (associate_detections_to_trackers [here; there] [here; there] 0.3%R)))
        (snd (fst (associate_general [here; there] [here; there] 0.3%R))) /\
      Permutation
        (snd (associate_detections_to_trackers [here; there] [here; there] 0.3%R))
        (snd (associate_general [here; there] [here; there] 0.3%R))).
Proof.
  assert (Hone : one_to_one (threshold_matrix (iou_batch apart_dets apart_trks) 0.3)
                 = true) by (vm_compute; reflexivity).
  assert (EM : linear_assignment (negate (iou_batch apart_dets apart_trks))
               = [(0, 0); (1, 1)]%nat) by (vm_compute; reflexivity).
  assert (EW : where_ (threshold_matrix (iou_batch apart_dets apart_trks) 0.3)
               = [(0, 0)]%nat) by (vm_compute; reflexivity).
  destruct (fast_path_agrees apart_dets apart_trks 0.3) as [Hfloat Hreal].
  split.
  - split; [exact Hone|].
    destruct (Hfloat Hone) as (_ & G & (HV & HS & ->)).
    destruct (G _ HV HS) as (Hiff & Hperm & _).
    assert (Hin : incl (where_ (threshold_matrix (iou_batch apart_dets apart_trks) 0.3))
                       (linear_assignment (negate (iou_batch apart_dets apart_trks)))).
    { rewrite EM, EW. intros p [<-|[]]. left. reflexivity. }
    assert (Hout : forall p,
               In p (linear_assignment (negate (iou_batch apart_dets apart_trks))) ->
               ~ In p (where_ (threshold_matrix (iou_batch apart_dets apart_trks) 0.3)) ->
               ltb (idx2 (iou_batch apart_dets apart_trks) (fst p) (snd p)) 0.3 = true).
    { rewrite EM, EW. intros p [<-|[<-|[]]] Hp.
      - exfalso. apply Hp. left. reflexivity.
      - vm_compute. reflexivity. }
    split; [apply Hiff; split; assumption|].
    apply Hperm; assumption.
  - assert (Hr1 : one_to_one
                    (threshold_matrix (iou_batch [here; there] [here; there]) 0.3%R)
                  = true).
    { rewrite iou_here_there. unfold threshold_matrix.
      cbn [map ltb Numeric_R]. unfold Exact.ltb.
      destruct (Rlt_dec 0.3 1); [|lra]. destruct (Rlt_dec 0.3 0); [lra|].
      reflexivity. }
    split; [exact Hr1|].
    destruct (Hreal [here; there] [here; there] 0.3%R Hr1) as (_ & _ & Hagree).
    + lra.
    + rewrite iou_here_there.
      intros [|[|d]] [|[|t]] Hd Ht; cbn [length] in Hd, Ht; try lia;
        cbn [idx2 idx nth]; lra.
    + exact Hagree.
Defined.

End FastPathRuns.
